(** * Resumable batch jobs of the plate cloud functions

    A shallow embedding of the two batch jobs of the repository:
    - the meal-description migration ([updateExistingMeals.ts]) with its lock
      documents, retry loop, batch step and drain loop;
    - the Recraft image regeneration ([generateRecraftImages.ts] and
      [recraftImageGeneration.ts]) with its scan cursor;
    together with the functions around them: the statistics, the limited
    update and the test image, the triggers of [index.ts], and the text
    helpers that clean the answer of the language model and build the
    prompt and the file name of an image.

    Firestore documents are field maps, collections are maps from document id
    to document.  Asynchronous functions become computations over an explicit
    world (the persisted documents, a clock, a log of the external
    interactions) that either return a value or throw.  Whether a store
    operation or an external API call fails is decided by an environment
    indexed by the number of the interaction. *)

From Stdlib Require Import ZArith Ascii String List Lia Bool.
From stdpp Require Import base option list gmap strings sorting pretty.

Open Scope string_scope.
Open Scope list_scope.
Open Scope Z_scope.

(** ** Values and documents *)

(** JSON-like values held in document fields. *)
#[warnings="-register-all"]
Inductive Value : Type :=
| VNull
| VBool (b : bool)
| VNum (z : Z)
| VStr (s : string)
| VTime (ms : Z)
| VArr (items : list Value)
| VObj (fields : list (string * Value)).

(** A document is a JavaScript object: a finite map from field names. *)
Abbreviation Doc := (gmap string Value).

(** JavaScript truthiness of a possibly missing field. *)
Definition truthy (v : option Value) : bool :=
  match v with
  | None => false
  | Some VNull => false
  | Some (VBool b) => b
  | Some (VNum z) => negb (z =? 0)
  | Some (VStr s) => negb (s =? "")%string
  | Some (VTime _) => true
  | Some (VArr _) => true
  | Some (VObj _) => true
  end.

Fixpoint assoc (k : string) (l : list (string * Value)) : option Value :=
  match l with
  | [] => None
  | (k', v) :: rest => if (k =? k')%string then Some v else assoc k rest
  end.

(** [v?.k]: member access with optional chaining. *)
Definition member (k : string) (v : option Value) : option Value :=
  match v with
  | Some (VObj fields) => assoc k fields
  | _ => None
  end.

(** [a || b] on possibly missing values. *)
Definition js_or (a b : option Value) : option Value :=
  if truthy a then a else b.

Definition truthy_str (s : option string) : bool :=
  match s with
  | Some s => negb (s =? "")%string
  | None => false
  end.

(** ** Persisted state *)

(** [system/meal_update_lock] *)
Record LockDoc : Type := mkLock {
  locked : option bool;
  timestamp : option Z;
  process_id : option string
}.

(** [system/meal_update_progress] *)
Module ProgressDoc.
Record t : Type := mk {
  lastProcessedId : option string;
  totalProcessed : option Z;
  totalUpdated : option Z;
  lastUpdate : option Z
}.
End ProgressDoc.

(** [internal/recraft_image_generation_state]; [lastDocId] is [None] both
    when the field is absent and when it is [null]. *)
Record RecraftScanState : Type := mkScan {
  lastDocId : option string;
  started_at : option Z;
  finished : option bool;
  updated_at : option Z
}.

(** Store operations, as they appear in the log. *)
Inductive StoreOp : Type :=
| LockGet | LockSet | LockDelete
| ProgressGet | ProgressSet | ProgressDelete
| ScanStateGet | ScanStateSet
| MealGet (id : string)
| MealsQuery (start : option string)
| MealEnrich (id : string)
| MealImage (id : string)
| MealImageFailed (id : string).

(** External interactions, with their outcome. *)
Inductive Event : Type :=
| EvStore (op : StoreOp) (ok : bool)
| EvOpenAI (title : option Value) (ok : bool)
| EvRecraft (title : option Value) (ok : bool)
| EvSleep (ms : Z).

Record World : Type := mkWorld {
  meals : gmap string Doc;              (* collection generated_meals *)
  lock : option LockDoc;
  progress : option ProgressDoc.t;
  scan_state : option RecraftScanState;
  now : Z;                              (* clock, milliseconds *)
  steps : nat;                          (* external interactions so far *)
  trace : list Event                    (* newest first *)
}.

(** What the outside world answers to the n-th interaction. *)
Record Env : Type := mkEnv {
  store_fault : nat -> option string;          (* Some msg: the store call throws *)
  openai : nat -> Doc -> string + Doc;         (* error message or parsed JSON *)
  recraft : nat -> Doc -> string + (string * string)
                                               (* error message or (photoUrl, blurhash) *)
}.

Definition set_meals (m : gmap string Doc) (w : World) : World :=
  mkWorld m (lock w) (progress w) (scan_state w) (now w) (steps w) (trace w).
Definition set_lock (l : option LockDoc) (w : World) : World :=
  mkWorld (meals w) l (progress w) (scan_state w) (now w) (steps w) (trace w).
Definition set_progress (p : option ProgressDoc.t) (w : World) : World :=
  mkWorld (meals w) (lock w) p (scan_state w) (now w) (steps w) (trace w).
Definition set_scan_state (s : option RecraftScanState) (w : World) : World :=
  mkWorld (meals w) (lock w) (progress w) s (now w) (steps w) (trace w).
(** Record one external interaction. *)
Definition record (e : Event) (w : World) : World :=
  mkWorld (meals w) (lock w) (progress w) (scan_state w) (now w)
          (S (steps w)) (e :: trace w).

(** ** Computations: state, exceptions, environment *)

Inductive Outcome (A : Type) : Type :=
| Ok (a : A)
| Throw (message : string).
Arguments Ok {A} a.
Arguments Throw {A} message.

Definition M (A : Type) : Type := Env -> World -> Outcome A * World.

Definition ret {A} (a : A) : M A := fun _ w => (Ok a, w).
Definition throw {A} (msg : string) : M A := fun _ w => (Throw msg, w).
Definition bind {A B} (m : M A) (k : A -> M B) : M B :=
  fun env w =>
    match m env w with
    | (Ok a, w') => k a env w'
    | (Throw e, w') => (Throw e, w')
    end.

(** [try { m } catch (error) { h error }] *)
Definition try_catch {A} (m : M A) (h : string -> M A) : M A :=
  fun env w =>
    match m env w with
    | (Ok a, w') => (Ok a, w')
    | (Throw e, w') => h e env w'
    end.

(** [try { m } finally { f }]: [f] always runs; an exception of [f]
    replaces the outcome of [m]. *)
Definition try_finally {A} (m : M A) (f : M unit) : M A :=
  fun env w =>
    match m env w with
    | (r, w') =>
        match f env w' with
        | (Ok _, w'') => (r, w'')
        | (Throw e, w'') => (Throw e, w'')
        end
    end.

Declare Scope job_scope.
Delimit Scope job_scope with job.
Notation "'let*' x ':=' m 'in' k" :=
  (bind m (fun x => k))
  (at level 10, x name, m at level 100, k at level 200) : job_scope.
Notation "m ';;' k" :=
  (bind m (fun _ => k))
  (at level 100, k at level 200, right associativity) : job_scope.
Open Scope job_scope.

(** [Date.now()] / [Timestamp.now()] *)
Definition clock : M Z := fun _ w => (Ok (now w), w).

(** [await new Promise(resolve => setTimeout(resolve, ms))] *)
Definition sleep (ms : Z) : M unit :=
  fun _ w =>
    (Ok tt, mkWorld (meals w) (lock w) (progress w) (scan_state w)
                    (now w + ms) (steps w) (EvSleep ms :: trace w)).

(** A store call: it throws when the environment says so, otherwise it
    applies [effect], which may itself be rejected by the store. *)
Definition store_call {A} (op : StoreOp) (effect : World -> string + (A * World)) : M A :=
  fun env w =>
    match store_fault env (steps w) with
    | Some msg => (Throw msg, record (EvStore op false) w)
    | None =>
        match effect w with
        | inl msg => (Throw msg, record (EvStore op false) w)
        | inr (a, w') => (Ok a, record (EvStore op true) w')
        end
    end.

(** ** Lock manager ([updateExistingMeals.ts]) *)

Module Lock.

(** [30 * 60 * 1000] *)
Definition STALE_AFTER_MS : Z := 30 * 60 * 1000.

(** [releaseLock] *)
Definition releaseLock : M unit :=
  try_catch
    (store_call LockDelete (fun w => inr (tt, set_lock None w)))
    (fun _ => ret tt).

(** [isUpdateProcessRunning] *)
Definition isUpdateProcessRunning : M bool :=
  try_catch
    (let* lockDoc := store_call LockGet (fun w => inr (lock w, w)) in
     match lockDoc with
     | None => ret false
     | Some lockData =>
         let* now := clock in
         let stale :=
           match timestamp lockData with
           | Some lockTime => now - lockTime >? STALE_AFTER_MS
           | None => false
           end in
         if stale then (releaseLock ;; ret false)
         else ret (match locked lockData with Some true => true | _ => false end)
     end)
    (fun _ => ret false).

(** [acquireLock] *)
Definition acquireLock : M bool :=
  try_catch
    (let* t := clock in
     store_call LockSet
       (fun w => inr (tt, set_lock
                            (Some (mkLock (Some true) (Some t)
                                          (Some ("update_" +:+ pretty t)))) w)) ;;
     ret true)
    (fun _ => ret false).

End Lock.

(** ** The collection [generated_meals] *)

(** [db.collection("generated_meals").doc(id)]: the empty path is rejected. *)
Definition INVALID_PATH : string :=
  "Value for argument documentPath is not a valid resource path".
Definition NOT_FOUND : string := "NOT_FOUND: No document to update".

(** The write of [doc(id).update(...)], [patch] being its effect on the
    document: fails when the document does not exist. *)
Definition update_doc (op : StoreOp) (id : string) (patch : Doc -> Doc) : M unit :=
  if (id =? "")%string then throw INVALID_PATH
  else
    store_call op
      (fun w =>
         match meals w !! id with
         | Some d => inr (tt, set_meals (<[id := patch d]> (meals w)) w)
         | None => inl NOT_FOUND
         end).

(** ** Updates by field path *)

(** [key.split(".")]: the segments of a dotted key. *)
Fixpoint split_dots (s : string) : list string :=
  match s with
  | EmptyString => [""]
  | String c rest =>
      if Ascii.eqb c "."%char then "" :: split_dots rest
      else
        match split_dots rest with
        | seg :: segs => String c seg :: segs
        | [] => [String c ""]
        end
  end.

(** The field a key writes to: its first segment. *)
Definition top_field (key : string) : string := hd "" (split_dots key).

(** The characters a field path given as a string may not hold. *)
Definition reserved (c : Ascii.ascii) : bool :=
  existsb (Ascii.eqb c) ["*"; "~"; "/"; "["; "]"]%char.

Fixpoint has_reserved (s : string) : bool :=
  match s with
  | EmptyString => false
  | String c rest => reserved c || has_reserved rest
  end.

(** [validateFieldPath]: a key is read as a path of fields separated by
    dots; it may not be empty, start or end with a dot, hold two dots in a
    row, or hold a reserved character. *)
Definition valid_field_path (key : string) : bool :=
  forallb (fun seg => negb (seg =? "")%string) (split_dots key)
  && negb (has_reserved key).

(** Levels of arrays and maps below a value. *)
Fixpoint height (v : Value) : nat :=
  match v with
  | VArr l => foldr (fun x n => Nat.max (S (height x)) n) 0%nat l
  | VObj fs => foldr (fun kv n => Nat.max (S (height kv.2)) n) 0%nat fs
  | _ => 0%nat
  end.

Definition MAX_DEPTH : nat := 20.

(** Some map inside the value has a field with the empty name. *)
Fixpoint has_empty_name (v : Value) : bool :=
  match v with
  | VArr l => existsb has_empty_name l
  | VObj fs => existsb (fun kv => (kv.1 =? "")%string || has_empty_name kv.2) fs
  | _ => false
  end.

(** [validateUserInput] on the value of a field: at most [MAX_DEPTH] levels
    below it and no empty field name. *)
Definition valid_field_value (v : Value) : bool :=
  (height v <=? MAX_DEPTH)%nat && negb (has_empty_name v).

Fixpoint is_prefix (p q : list string) : bool :=
  match p, q with
  | [], _ => true
  | x :: p', y :: q' => (x =? y)%string && is_prefix p' q'
  | _ :: _, [] => false
  end.

(** [validateNoConflictingFields]: the path of one key is a prefix of the
    path of another. *)
Definition conflicting (data : Doc) : bool :=
  existsb
    (fun p : string * Value =>
       existsb
         (fun q : string * Value =>
            negb (p.1 =? q.1)%string && is_prefix (split_dots p.1) (split_dots q.1))
         (map_to_list data))
    (map_to_list data).

(** The messages of the client go on to name the offending path or value. *)
Definition INVALID_UPDATE : string :=
  "Update() requires either a single JavaScript object or an alternating list of field/value pairs that can be followed by an optional precondition.".
Definition CONFLICTING_FIELDS : string :=
  "Value for argument dataOrField is not a valid update map.".

(** What the client checks in the argument of [update] before it calls the
    store. *)
Definition update_error (data : Doc) : option string :=
  if forallb (fun kv : string * Value => valid_field_value kv.2 && valid_field_path kv.1)
       (map_to_list data)
  then if conflicting data then Some CONFLICTING_FIELDS else None
  else Some INVALID_UPDATE.

(** The first field named [k] of a map value set to [v]. *)
Fixpoint assoc_set (k : string) (v : Value) (fields : list (string * Value))
    : list (string * Value) :=
  match fields with
  | [] => [(k, v)]
  | (k', v') :: rest =>
      if (k =? k')%string then (k, v) :: rest else (k', v') :: assoc_set k v rest
  end.

(** The fields of a value that is a map; a value that is not one is replaced
    by a map when a path leads through it. *)
Definition fields_of (v : option Value) : list (string * Value) :=
  match v with
  | Some (VObj fs) => fs
  | _ => []
  end.

(** [v] written at the path [segs] inside a map value. *)
Fixpoint set_in (segs : list string) (v : Value) (fields : list (string * Value))
    : list (string * Value) :=
  match segs with
  | [] => fields
  | [k] => assoc_set k v fields
  | k :: rest => assoc_set k (VObj (set_in rest v (fields_of (assoc k fields)))) fields
  end.

(** [v] written at the path [segs] of a document; the other fields, also
    those of the maps on the path, stay. *)
Definition set_path (segs : list string) (v : Value) (d : Doc) : Doc :=
  match segs with
  | [] => d
  | [k] => <[k := v]> d
  | k :: rest => <[k := VObj (set_in rest v (fields_of (d !! k)))]> d
  end.

(** The document after [update(data)]: every key of [data] written at its
    path. *)
Definition apply_update (data : Doc) (d : Doc) : Doc :=
  foldr (fun kv : string * Value => set_path (split_dots kv.1) kv.2) d (map_to_list data).

(** [doc(id).update(data)] *)
Definition update_fields (op : StoreOp) (id : string) (data : Doc) : M unit :=
  if (id =? "")%string then throw INVALID_PATH
  else
    match update_error data with
    | Some msg => throw msg
    | None => update_doc op id (apply_update data)
    end.

(** Order of document ids (byte-wise, as Firestore compares them). *)
Definition id_le (a b : string * Doc) : Prop := String.leb a.1 b.1 = true.
#[global] Instance id_le_dec a b : Decision (id_le a b).
Proof. unfold id_le. apply _. Defined.

(** [orderBy(documentId())]: all documents, by ascending id. *)
Definition by_document_id (m : gmap string Doc) : list (string * Doc) :=
  merge_sort id_le (map_to_list m).

(** ** Order of values *)

(** Firestore orders values of different types by type: null, boolean,
    number, timestamp, string, array, map. *)
Definition type_rank (v : Value) : nat :=
  match v with
  | VNull => 0
  | VBool _ => 1
  | VNum _ => 2
  | VTime _ => 3
  | VStr _ => 4
  | VArr _ => 5
  | VObj _ => 6
  end.

(** Element by element; a proper prefix comes first. *)
Fixpoint lex_compare {A} (cmp : A -> A -> comparison) (l l' : list A) : comparison :=
  match l, l' with
  | [], [] => Eq
  | [], _ :: _ => Lt
  | _ :: _, [] => Gt
  | x :: l, y :: l' =>
      match cmp x y with
      | Eq => lex_compare cmp l l'
      | c => c
      end
  end.

(** A field of a map: the name, then the value. *)
Definition field_compare (cmp : Value -> Value -> comparison)
    (p q : string * Value) : comparison :=
  match String.compare p.1 q.1 with
  | Eq => cmp p.2 q.2
  | c => c
  end.

(** Values of one type: booleans with false first, numbers and timestamps
    by value, strings byte-wise, arrays element by element, maps field by
    field. *)
Fixpoint compare_values (a b : Value) : comparison :=
  match a, b with
  | VNull, VNull => Eq
  | VBool x, VBool y => Bool.compare x y
  | VNum x, VNum y => x ?= y
  | VTime x, VTime y => x ?= y
  | VStr x, VStr y => String.compare x y
  | VArr l, VArr l' => lex_compare compare_values l l'
  | VObj f, VObj f' => lex_compare (field_compare compare_values) f f'
  | _, _ => Nat.compare (type_rank a) (type_rank b)
  end.

Definition field_le (p q : string * Value) : Prop := String.leb p.1 q.1 = true.
#[global] Instance field_le_dec p q : Decision (field_le p q).
Proof. unfold field_le. apply _. Defined.

(** The first field of each name, the one [assoc] reads. *)
Fixpoint first_fields (fs : list (string * Value)) : list (string * Value) :=
  match fs with
  | [] => []
  | (k, v) :: rest =>
      (k, v) :: List.filter (fun q => negb (q.1 =? k)%string) (first_fields rest)
  end.

(** A value as the store holds it: in a map, one field of each name, by
    ascending name, at every level. *)
Fixpoint canonical (v : Value) : Value :=
  match v with
  | VArr l => VArr (map canonical l)
  | VObj fs =>
      VObj (merge_sort field_le
              (first_fields (map (fun kv : string * Value => (kv.1, canonical kv.2)) fs)))
  | _ => v
  end.

(** The order of [orderBy] on the values of a field. *)
Definition value_compare (a b : Value) : comparison :=
  compare_values (canonical a) (canonical b).

Definition value_ltb (a b : Value) : bool :=
  match value_compare a b with Lt => true | _ => false end.
Definition value_eqb (a b : Value) : bool :=
  match value_compare a b with Eq => true | _ => false end.

(** The field [created_time] of a document, of whatever type. *)
Definition created_time (d : Doc) : option Value := d !! "created_time".

(** Sort key of [orderBy("created_time", "asc")]: the field, then the id. *)
Definition key_ltb (a b : Value * string) : bool :=
  value_ltb a.1 b.1 || (value_eqb a.1 b.1 && String.ltb a.2 b.2).
Definition key_leb (a b : Value * string) : bool :=
  value_ltb a.1 b.1 || (value_eqb a.1 b.1 && String.leb a.2 b.2).

Definition row_le (a b : Value * string * Doc) : Prop := key_leb a.1 b.1 = true.
#[global] Instance row_le_dec a b : Decision (row_le a b).
Proof. unfold row_le. apply _. Defined.

(** The ordered query returns the documents that have the field, whatever
    its value, and no document without it. *)
Definition rows (m : gmap string Doc) : list (Value * string * Doc) :=
  omap (fun '(id, d) => (fun t => (t, id, d)) <$> created_time d) (map_to_list m).

Definition by_created_time (m : gmap string Doc) : list (Value * string * Doc) :=
  merge_sort row_le (rows m).

Definition after_key (cursor : option (Value * string)) (r : Value * string * Doc) : bool :=
  match cursor with
  | Some k => key_ltb k r.1
  | None => true
  end.

(** [orderBy("created_time").startAfter(cursor).limit(n).get()] *)
Definition query_by_created_time (cursor : option (Value * string)) (n : nat)
    (m : gmap string Doc) : list (string * Doc) :=
  (fun r : Value * string * Doc => (r.1.2, r.2)) <$>
    take n (List.filter (after_key cursor) (by_created_time m)).

Definition after_id (cursor : option string) (r : string * Doc) : bool :=
  match cursor with
  | Some k => String.ltb k r.1
  | None => true
  end.

(** [orderBy(documentId()).startAfter(lastDocId).limit(n).get()] *)
Definition query_by_document_id (cursor : option string) (n : nat)
    (m : gmap string Doc) : list (string * Doc) :=
  take n (List.filter (after_id cursor) (by_document_id m)).

(** ** Meal-description migration ([updateExistingMeals.ts]) *)

Module MealUpdate.
Import Lock.

(** The guard of [updateSingleMeal]:
    [meal.description_localized && meal.benefits && meal.ingredients]. *)
Definition already_updated (meal : Doc) : bool :=
  truthy (meal !! "description_localized")
  && truthy (meal !! "benefits")
  && truthy (meal !! "ingredients").

Definition MISSING_FIELDS : string :=
  "Invalid response structure: missing required fields".

(** [generateEnhancedMealDescription]: one call to the language model, the
    parse of its answer (both answered by the environment) and the check
    of the three required fields. *)
Definition generateEnhancedMealDescription (meal : Doc) : M Doc :=
  fun env w =>
    match openai env (steps w) meal with
    | inl msg => (Throw msg, record (EvOpenAI (meal !! "title") false) w)
    | inr updateData =>
        if negb (truthy (updateData !! "title_localized"))
           || negb (truthy (updateData !! "description_localized"))
           || negb (truthy (updateData !! "benefits"))
        then (Throw MISSING_FIELDS, record (EvOpenAI (meal !! "title") false) w)
        else (Ok updateData, record (EvOpenAI (meal !! "title") true) w)
    end.

(** [{...updateData, updated_time: Timestamp.now()}] *)
Definition update_data (updateData : Doc) (t : Z) : Doc :=
  <["updated_time" := VTime t]> updateData.

(** The document after the write of an answer. *)
Definition enrich (updateData : Doc) (t : Z) (d : Doc) : Doc :=
  apply_update (update_data updateData t) d.

Definition maxRetries : Z := 3.

(** The [try] block of [updateSingleMeal]: skip a meal that already has
    the new fields, otherwise generate and write them. *)
Definition attempt (mealId : string) (meal : Doc) : M bool :=
  if already_updated meal then ret true
  else
    let* updateData := generateEnhancedMealDescription meal in
    let* t := clock in
    update_fields (MealEnrich mealId) mealId (update_data updateData t) ;;
    ret true.

(** The loop [for (attempt = 1; attempt <= maxRetries; attempt++)] of
    [updateSingleMeal], with [remaining] iterations left. *)
Fixpoint attempts (remaining : nat) (n : Z) (mealId : string) (meal : Doc)
    : M bool :=
  match remaining with
  | O => ret false
  | S remaining' =>
      try_catch
        (attempt mealId meal)
        (fun _ =>
           if n =? maxRetries then ret false
           else
             (sleep (2 ^ n * 1000) ;;
              attempts remaining' (n + 1) mealId meal))
  end.

(** [updateSingleMeal] *)
Definition updateSingleMeal (mealId : string) (meal : Doc) : M bool :=
  attempts (Z.to_nat maxRetries) 1 mealId meal.

Definition BATCH_SIZE : nat := 5.

Record BatchResult : Type := mkBatch {
  processed : Z;
  updated : Z;
  hasMore : bool;
  lastProcessedId : option string
}.

(** The loop [for (const doc of mealsSnap.docs)] of [updateMealsInBatches]. *)
Fixpoint process_docs (docs : list (string * Doc))
    (processedCount updatedCount : Z) (last : string) : M (Z * Z * string) :=
  match docs with
  | [] => ret (processedCount, updatedCount, last)
  | (id, meal) :: rest =>
      let* updatedCount' :=
        try_catch
          (let* success := updateSingleMeal id meal in
           ret (if success : bool then updatedCount + 1 else updatedCount))
          (fun _ => ret updatedCount) in
      process_docs rest (processedCount + 1) updatedCount' id
  end.

Definition MISSING_ORDER_FIELD : string :=
  "Field " +:+ String (Ascii.ascii_of_nat 34) "created_time"
  +:+ String (Ascii.ascii_of_nat 34)
        " is missing in the provided DocumentSnapshot. Please provide a document that contains values for all specified orderBy() and where() constraints.".

(** The part of [updateMealsInBatches] after the page has been read. *)
Definition process_page (docs : list (string * Doc)) : M BatchResult :=
  match docs with
  | [] => ret (mkBatch 0 0 false None)
  | _ :: _ =>
      let* r := process_docs docs 0 0 "" in
      ret (mkBatch r.1.1 r.1.2 (r.1.1 =? Z.of_nat BATCH_SIZE) (Some r.2))
  end.

(** The cursor of [updateMealsInBatches]: the snapshot of the document
    [startAfter], when it is given and exists.  [startAfter(startDoc)] reads
    the value of the order field from the snapshot and throws when the
    snapshot has no such field. *)
Definition start_cursor (startAfter : option string) : M (option (Value * string)) :=
  match startAfter with
  | Some sid =>
      if truthy_str startAfter then
        let* startDoc := store_call (MealGet sid) (fun w => inr (meals w !! sid, w)) in
        match startDoc with
        | Some d =>
            match created_time d with
            | Some t => ret (Some (t, sid))
            | None => throw MISSING_ORDER_FIELD
            end
        | None => ret None
        end
      else ret None
  | None => ret None
  end.

(** [updateMealsInBatches] *)
Definition updateMealsInBatches (startAfter : option string) : M BatchResult :=
  let* cursor := start_cursor startAfter in
  let* docs :=
    store_call (MealsQuery startAfter)
      (fun w => inr (query_by_created_time cursor BATCH_SIZE (meals w), w)) in
  process_page docs.

(** [updateSingleBatchOnly] *)
Definition updateSingleBatchOnly : M BatchResult :=
  try_catch
    (let* progressDoc := store_call ProgressGet (fun w => inr (progress w, w)) in
     let startAfter := progressDoc ≫= ProgressDoc.lastProcessedId in
     let* result := updateMealsInBatches startAfter in
     (if hasMore result && truthy_str (lastProcessedId result) then
        let* t := clock in
        store_call ProgressSet
          (fun w =>
             inr (tt, set_progress
                        (Some (ProgressDoc.mk
                                 (lastProcessedId result)
                                 (Some (default 0 (progressDoc ≫= ProgressDoc.totalProcessed)
                                        + processed result))
                                 (Some (default 0 (progressDoc ≫= ProgressDoc.totalUpdated)
                                        + updated result))
                                 (Some t))) w))
      else
        store_call ProgressDelete (fun w => inr (tt, set_progress None w))) ;;
     ret (mkBatch (processed result) (updated result) (hasMore result) None))
    (fun error => throw error).

(** The loop [while (true)] of [updateAllExistingMeals]; [None] when the
    loop has not left after [fuel] batches. *)
Fixpoint drain (fuel : nat) (totalProcessed totalUpdated : Z)
    (startAfter : option string) (env : Env) (w : World)
    : option (Outcome (Z * Z) * World) :=
  match fuel with
  | O => None
  | S fuel' =>
      match updateMealsInBatches startAfter env w with
      | (Throw e, w1) => Some (Throw e, w1)
      | (Ok result, w1) =>
          let totalProcessed := totalProcessed + processed result in
          let totalUpdated := totalUpdated + updated result in
          if negb (hasMore result) then Some (Ok (totalProcessed, totalUpdated), w1)
          else
            drain fuel' totalProcessed totalUpdated (lastProcessedId result)
                  env (snd (sleep 5000 env w1))
      end
  end.

Definition ALREADY_RUNNING : string := "Update process already running".
Definition LOCK_FAILED : string := "Failed to acquire lock".

(** The computation that has already run to [r]. *)
Definition resumed {A} (r : Outcome A * World) : M A := fun _ _ => r.

(** [updateAllExistingMeals] *)
Definition updateAllExistingMeals (fuel : nat) (env : Env) (w : World)
    : option (Outcome unit * World) :=
  match isUpdateProcessRunning env w with
  | (Throw e, w1) => Some (Throw e, w1)
  | (Ok true, w1) => Some (Throw ALREADY_RUNNING, w1)
  | (Ok false, w1) =>
      match acquireLock env w1 with
      | (Throw e, w2) => Some (Throw e, w2)
      | (Ok false, w2) => Some (Throw LOCK_FAILED, w2)
      | (Ok true, w2) =>
          match drain fuel 0 0 None env w2 with
          | None => None
          | Some r =>
              Some (try_finally
                      (try_catch (resumed r ;; ret tt) (fun error => throw error))
                      releaseLock env w2)
          end
      end
  end.

End MealUpdate.

(** ** Image regeneration ([generateRecraftImages.ts], [recraftImageGeneration.ts]) *)

Module Recraft.

Definition BATCH_SIZE : nat := 10.
Definition SCAN_PAGE_SIZE : nat := 200.

(** [getScanState] *)
Definition getScanState : M RecraftScanState :=
  let* snap := store_call ScanStateGet (fun w => inr (scan_state w, w)) in
  ret (match snap with
       | Some s => s
       | None => mkScan None None None None
       end).

(** [Partial<RecraftScanState>]: an absent field is [None]; a present
    [lastDocId] is [Some None] for [null]. *)
Record ScanPatch : Type := mkPatch {
  patch_lastDocId : option (option string);
  patch_started_at : option Z;
  patch_finished : option bool
}.

(** [set({...patch, updated_at}, {merge: true})] *)
Definition merge_state (patch : ScanPatch) (t : Z) (old : option RecraftScanState)
    : RecraftScanState :=
  let old := default (mkScan None None None None) old in
  mkScan (default (lastDocId old) (patch_lastDocId patch))
         (match patch_started_at patch with Some s => Some s | None => started_at old end)
         (match patch_finished patch with Some f => Some f | None => finished old end)
         (Some t).

(** [setScanState] *)
Definition setScanState (patch : ScanPatch) : M unit :=
  let* t := clock in
  store_call ScanStateSet
    (fun w => inr (tt, set_scan_state (Some (merge_state patch t (scan_state w))) w)).

(** [resetRecraftScanCursor] *)
Definition resetRecraftScanCursor : M unit :=
  let* t := clock in
  store_call ScanStateSet
    (fun w =>
       inr (tt, set_scan_state
                  (Some (merge_state (mkPatch (Some None) (Some t) (Some false)) t
                                     (scan_state w))) w)).

(** [data.image_generation_source !== "recraft-v3"] *)
Definition needsRegeneration (data : Doc) : bool :=
  negb (match data !! "image_generation_source" with
        | Some (VStr s) => (s =? "recraft-v3")%string
        | _ => false
        end).

(** [meal.title_localized?.en || meal.title] *)
Definition englishTitle (data : Doc) : option Value :=
  js_or (member "en" (data !! "title_localized")) (data !! "title").

(** The filter of [generateImagesBatch]: [needsRegeneration && hasData]. *)
Definition is_candidate (doc : string * Doc) : bool :=
  needsRegeneration doc.2 && truthy (englishTitle doc.2).

(** [generateRecraftFoodImage], called with the title, description, type and
    tags of [meal]: answered by the environment. *)
Definition generateRecraftFoodImage (meal : Doc) : M (string * string) :=
  fun env w =>
    match recraft env (steps w) meal with
    | inl msg => (Throw msg, record (EvRecraft (englishTitle meal) false) w)
    | inr result => (Ok result, record (EvRecraft (englishTitle meal) true) w)
    end.

(** The fields written after a successful generation. *)
Definition image_patch (photoUrl blurhash : string) (t : Z) (d : Doc) : Doc :=
  <["photo" := VStr photoUrl]>
    (<["blurhash" := VStr blurhash]>
       (<["image_generated_at" := VTime t]>
          (<["image_generation_source" := VStr "recraft-v3"]>
             (<["image_compressed" := VBool true]>
                (<["previous_photo_regenerated" := VBool true]>
                   (<["updated_time" := VTime t]>
                      (<["image_generation_failed" := VBool false]>
                         (delete "image_generation_error"
                            (delete "image_generation_failed_at" d))))))))).

(** The fields written by [markMealImageFailed]. *)
Definition failure_patch (error : string) (t : Z) (d : Doc) : Doc :=
  <["image_generation_failed" := VBool true]>
    (<["image_generation_error" := VStr error]>
       (<["image_generation_failed_at" := VTime t]>
          (<["updated_time" := VTime t]> d))).

(** The argument of [doc(...)]: only a string is a path. *)
Definition doc_path (v : option Value) : M string :=
  match v with
  | Some (VStr s) => ret s
  | _ => throw INVALID_PATH
  end.

(** [markMealImageFailed] *)
Definition markMealImageFailed (mealId : option Value) (error : string) : M unit :=
  try_catch
    (let* path := doc_path mealId in
     let* t := clock in
     update_doc (MealImageFailed path) path (failure_patch error t))
    (fun _ => ret tt).

(** [meal.id] of [{id: doc.id, ...data}]: a field [id] of the data wins. *)
Definition meal_id (doc : string * Doc) : option Value :=
  match doc.2 !! "id" with
  | Some v => Some v
  | None => Some (VStr doc.1)
  end.

Record Counts : Type := mkCounts {
  processedCount : Z;
  generatedCount : Z;
  failedCount : Z
}.

(** The loop [for (const doc of toProcess)] of [generateImagesBatch]. *)
Fixpoint process_docs (docs : list (string * Doc)) (c : Counts) : M Counts :=
  match docs with
  | [] => ret c
  | doc :: rest =>
      let c := mkCounts (processedCount c + 1) (generatedCount c) (failedCount c) in
      if negb (truthy (meal_id doc)) then process_docs rest c
      else
        let* c' :=
          try_catch
            (if negb (truthy (englishTitle doc.2)) then ret c
             else
               let* result := generateRecraftFoodImage doc.2 in
               let* path := doc_path (meal_id doc) in
               let* t := clock in
               update_doc (MealImage path) path (image_patch result.1 result.2 t) ;;
               sleep 500 ;;
               ret (mkCounts (processedCount c) (generatedCount c + 1) (failedCount c)))
            (fun errorMessage =>
               markMealImageFailed (meal_id doc) errorMessage ;;
               ret (mkCounts (processedCount c) (generatedCount c) (failedCount c + 1))) in
        process_docs rest c'
  end.

Record Summary : Type := mkSummary {
  processed : Z;
  generated : Z;
  failed : Z;
  hasMore : bool
}.

(** [state.lastDocId || null] *)
Definition cursor_of (state : RecraftScanState) : option string :=
  if truthy_str (lastDocId state) then lastDocId state else None.

(** The part of [generateImagesBatch] after the page has been read. *)
Definition process_page (snapshot : list (string * Doc)) : M Summary :=
  match snapshot with
  | [] =>
      setScanState (mkPatch (Some None) None (Some true)) ;;
      ret (mkSummary 0 0 0 false)
  | _ :: _ =>
      match last snapshot with
      | None =>
          setScanState (mkPatch (Some None) None (Some true)) ;;
          ret (mkSummary 0 0 0 false)
      | Some lastDocOnPage =>
          let pageHasMore := (length snapshot =? SCAN_PAGE_SIZE)%nat in
          let candidates := List.filter is_candidate snapshot in
          match candidates with
          | [] =>
              setScanState (mkPatch (Some (Some lastDocOnPage.1)) None
                                    (Some (negb pageHasMore))) ;;
              ret (mkSummary 0 0 0 pageHasMore)
          | _ :: _ =>
              let toProcess := take BATCH_SIZE candidates in
              let* c := process_docs toProcess (mkCounts 0 0 0) in
              setScanState (mkPatch (Some (Some lastDocOnPage.1)) None
                                    (Some (negb pageHasMore))) ;;
              ret (mkSummary (processedCount c) (generatedCount c)
                             (failedCount c) pageHasMore)
          end
      end
  end.

(** [generateImagesBatch] *)
Definition generateImagesBatch : M Summary :=
  try_catch
    (let* state := getScanState in
     let lastDocId := cursor_of state in
     let* snapshot :=
       store_call (MealsQuery lastDocId)
         (fun w => inr (query_by_document_id lastDocId SCAN_PAGE_SIZE (meals w), w)) in
     process_page snapshot)
    (fun error => throw error).

End Recraft.

(** ** Administrative functions of the meal job ([updateExistingMeals.ts]) *)

(** The value of [getUpdateStats].  [lastUpdate] is the instant whose ISO
    rendering the code returns; [None] stands for the string "Never". *)
Module UpdateStats.
Record t : Type := mk {
  totalProcessed : Z;
  totalUpdated : Z;
  lastUpdate : option Z;
  hasMore : bool
}.
End UpdateStats.

Module MealAdmin.
Import MealUpdate.

(** [getUpdateStats] *)
Definition getUpdateStats : M UpdateStats.t :=
  try_catch
    (let* progressDoc := store_call ProgressGet (fun w => inr (progress w, w)) in
     match progressDoc with
     | Some data =>
         ret (UpdateStats.mk (default 0 (ProgressDoc.totalProcessed data))
                             (default 0 (ProgressDoc.totalUpdated data))
                             (ProgressDoc.lastUpdate data)
                             true)
     | None => ret (UpdateStats.mk 0 0 None false)
     end)
    (fun error => throw error).

(** The loop [for (const doc of mealsSnap.docs)] of [updateLimitedMeals]. *)
Fixpoint limited_docs (docs : list (string * Doc)) (updatedCount : Z) : M Z :=
  match docs with
  | [] => ret updatedCount
  | (id, meal) :: rest =>
      let* updatedCount' :=
        try_catch
          (let* success := updateSingleMeal id meal in
           ret (if success : bool then updatedCount + 1 else updatedCount))
          (fun _ => ret updatedCount) in
      limited_docs rest updatedCount'
  end.

(** [updateLimitedMeals(limit)], for a positive [limit].  The query has no
    [orderBy]: the documents come by ascending id. *)
Definition updateLimitedMeals (limit : positive) : M unit :=
  try_catch
    (let* mealsSnap :=
       store_call (MealsQuery None)
         (fun w => inr (query_by_document_id None (Pos.to_nat limit) (meals w), w)) in
     match mealsSnap with
     | [] => ret tt
     | _ :: _ => limited_docs mealsSnap 0 ;; ret tt
     end)
    (fun error => throw error).

End MealAdmin.

(** ** Test and debug functions of the image job ([generateRecraftImages.ts]) *)

(** [a && b] on possibly missing values. *)
Definition js_and (a b : option Value) : option Value :=
  if truthy a then b else a.

Module RecraftTest.
Import Recraft.

(** [normalizeMealType] *)
Definition normalizeMealType (t : option Value) : string :=
  match t with
  | Some (VStr s) =>
      if (s =? "snack")%string || (s =? "drink")%string then s else "full_meal"
  | _ => "full_meal"
  end.

(** [debugMealPhotos]: it reads ten documents and only prints. *)
Definition debugMealPhotos : M unit :=
  try_catch
    (store_call (MealsQuery None)
       (fun w => inr (query_by_document_id None 10 (meals w), w)) ;;
     ret tt)
    (fun _ => ret tt).

(** The filter of [generateSingleTestImage]:
    [needsRegeneration && (hasEnglishData || data.title)]. *)
Definition needs_test_image (doc : string * Doc) : bool :=
  needsRegeneration doc.2
  && truthy (js_or (js_and (member "en" (doc.2 !! "title_localized"))
                           (member "en" (doc.2 !! "description_localized")))
                   (doc.2 !! "title")).

(** The fields written by [generateSingleTestImage] ([updated_time] is not
    among them). *)
Definition test_image_patch (photoUrl blurhash : string) (t : Z) (d : Doc) : Doc :=
  <["photo" := VStr photoUrl]>
    (<["blurhash" := VStr blurhash]>
       (<["image_generated_at" := VTime t]>
          (<["image_generation_source" := VStr "recraft-v3"]>
             (<["image_compressed" := VBool true]>
                (<["previous_photo_regenerated" := VBool true]>
                   (<["image_generation_failed" := VBool false]>
                      (delete "image_generation_error"
                         (delete "image_generation_failed_at" d)))))))).

(** [generateSingleTestImage] *)
Definition generateSingleTestImage : M unit :=
  try_catch
    (let* snapshot :=
       store_call (MealsQuery None)
         (fun w => inr (query_by_document_id None 50 (meals w), w)) in
     match snapshot with
     | [] => ret tt
     | _ :: _ =>
         match List.filter needs_test_image snapshot with
         | [] => debugMealPhotos
         | doc :: _ =>
             if negb (truthy (englishTitle doc.2)) then ret tt
             else if negb (truthy (meal_id doc)) then ret tt
             else
               let* result := generateRecraftFoodImage doc.2 in
               let* path := doc_path (meal_id doc) in
               let* t := clock in
               update_doc (MealImage path) path
                          (test_image_patch result.1 result.2 t)
         end
     end)
    (fun error => throw error).

End RecraftTest.

(** ** Triggers ([index.ts]) *)

Module Triggers.

(** The handler of [scheduledMealsUpdate]. *)
Definition scheduledMealsUpdate : M unit :=
  try_catch
    (let* running := Lock.isUpdateProcessRunning in
     if running : bool then ret tt
     else (MealUpdate.updateSingleBatchOnly ;; ret tt))
    (fun _ => ret tt).

(** The handler of [scheduledRecraftImageGeneration]. *)
Definition scheduledRecraftImageGeneration : M unit :=
  try_catch
    (Recraft.generateImagesBatch ;; ret tt)
    (fun _ => ret tt).

(** What [toggleScheduledUpdates] answers. *)
Inductive ToggleResponse : Type :=
| Status (isRunning : bool) (stats : UpdateStats.t)
| Stopped
| Started
| BadAction
| ServerError (error : string).

(** The HTTP status of an answer. *)
Definition http_status (r : ToggleResponse) : Z :=
  match r with
  | Status _ _ | Stopped | Started => 200
  | BadAction => 400
  | ServerError _ => 500
  end.

(** The handler of [toggleScheduledUpdates]; [action] is [req.query.action]. *)
Definition toggleScheduledUpdates (action : option string) : M ToggleResponse :=
  try_catch
    (match action with
     | Some a =>
         if (a =? "status")%string then
           let* isRunning := Lock.isUpdateProcessRunning in
           let* stats := MealAdmin.getUpdateStats in
           ret (Status isRunning stats)
         else if (a =? "stop")%string then
           (Lock.acquireLock ;; ret Stopped)
         else if (a =? "start")%string then
           (Lock.releaseLock ;; ret Started)
         else ret BadAction
     | None => ret BadAction
     end)
    (fun error => ret (ServerError error)).

(** The handler of [testRecraftImageGeneration]: the HTTP status it
    answers with. *)
Definition testRecraftImageGeneration : M Z :=
  try_catch
    (RecraftTest.generateSingleTestImage ;; ret 200)
    (fun _ => ret 500).

End Triggers.

(** ** Messages of the language model ([utils/openai.ts]) *)

Module OpenAI.

(** [textMsg] *)
Definition textMsg (role text : string) : Value :=
  VObj [("role", VStr role);
        ("content", VArr [VObj [("type", VStr "text"); ("text", VStr text)]])].

(** [imageMsg]; [textContent] is optional. *)
Definition imageMsg (role imageUrl : string) (textContent : option string) : Value :=
  VObj [("role", VStr role);
        ("content",
         VArr ((if truthy_str textContent
                then [VObj [("type", VStr "text");
                            ("text", VStr (default "" textContent))]]
                else [])
               ++ [VObj [("type", VStr "image_url");
                         ("image_url", VObj [("url", VStr imageUrl)])]]))].

(** [v?.[0]] *)
Definition first_element (v : option Value) : option Value :=
  match v with
  | Some (VArr l) => head l
  | Some (VObj fields) => assoc "0" fields
  | Some (VStr (String c _)) => Some (VStr (String c ""))
  | _ => None
  end.

(** [b?.type === "text"] *)
Definition is_text_block (b : Value) : bool :=
  match member "type" (Some b) with
  | Some (VStr t) => (t =? "text")%string
  | _ => false
  end.

(** The [text] of [extractTextFromChat]. *)
Definition extractTextFromChat (raw : option Value) : Value :=
  match member "content" (member "message" (first_element (member "choices" raw))) with
  | Some (VStr content) => VStr content
  | Some (VArr content) =>
      match List.find is_text_block content with
      | Some firstText =>
          match member "text" (Some firstText) with
          | None | Some VNull => VStr ""
          | Some text => text
          end
      | None => VStr ""
      end
  | _ => VStr ""
  end.

End OpenAI.

(** ** Text ([updateExistingMeals.ts], [recraftImageGeneration.ts])

    A JavaScript string is a sequence of UTF-16 code units. *)

Module Text.

Definition str : Type := list N.

(** An ASCII literal. *)
Definition lit (s : string) : str := Ascii.N_of_ascii <$> list_ascii_of_string s.

(** White space and line terminators: what [trim] strips and [\s] matches. *)
Definition is_space (c : N) : bool :=
  ((c =? 9) || (c =? 10) || (c =? 11) || (c =? 12) || (c =? 13) || (c =? 32)
   || (c =? 160) || (c =? 5760) || ((8192 <=? c) && (c <=? 8202))
   || (c =? 8232) || (c =? 8233) || (c =? 8239) || (c =? 8287)
   || (c =? 12288) || (c =? 65279))%N.

Fixpoint trimStart (s : str) : str :=
  match s with
  | [] => []
  | c :: rest => if is_space c then trimStart rest else s
  end.

Definition trimEnd (s : str) : str := rev (trimStart (rev s)).

Definition trim (s : str) : str := trimEnd (trimStart s).

(** [s.startsWith(p)] *)
Fixpoint startsWith (s p : str) : bool :=
  match p, s with
  | [], _ => true
  | _ :: _, [] => false
  | a :: p', b :: s' => (a =? b)%N && startsWith s' p'
  end.

(** [s.endsWith(p)] *)
Definition endsWith (s p : str) : bool := startsWith (rev s) (rev p).

(** [s.includes(p)] *)
Fixpoint includes (s p : str) : bool :=
  startsWith s p
  || match s with
     | [] => false
     | _ :: rest => includes rest p
     end.

(** [s.replace(/^p\s*/, "")] for a literal [p]: the match can only start
    at the beginning, and [\s*] takes all the white space that follows. *)
Definition strip_leading (p s : str) : str :=
  if startsWith s p then trimStart (drop (length p) s) else s.

(** [s.replace(/\s*p$/, "")] for a literal [p] that has no white space: the
    leftmost match starts where the white space before the final [p]
    starts. *)
Definition strip_trailing (p s : str) : str :=
  if endsWith s p then trimEnd (take (length s - length p) s) else s.

Definition fence : str := lit "```".
Definition json_fence : str := lit "```json".

(** The text [parseGptJsonResponse] hands to [JSON.parse]. *)
Definition cleanedText (responseText : str) : str :=
  let cleanedText := trim responseText in
  let cleanedText :=
    if startsWith cleanedText json_fence then strip_leading json_fence cleanedText
    else cleanedText in
  let cleanedText :=
    if startsWith cleanedText fence then strip_leading fence cleanedText
    else cleanedText in
  let cleanedText :=
    if endsWith cleanedText fence then strip_trailing fence cleanedText
    else cleanedText in
  trim cleanedText.

(** [/[a-z0-9]/] *)
Definition is_slug_char (c : N) : bool :=
  (((97 <=? c) && (c <=? 122)) || ((48 <=? c) && (c <=? 57)))%N.

Definition underscore : N := 95.

(** [s.replace(/_+/g, "_")] *)
Fixpoint collapse (s : str) : str :=
  match s with
  | [] => []
  | a :: rest =>
      match rest with
      | [] => [a]
      | b :: _ =>
          if ((a =? underscore) && (b =? underscore))%N then collapse rest
          else a :: collapse rest
      end
  end.

(** [s.replace(/^_|_$/g, "")] *)
Definition strip_underscores (s : str) : str :=
  let s1 := match s with
            | c :: rest => if (c =? underscore)%N then rest else s
            | [] => []
            end in
  match rev s1 with
  | c :: rest => if (c =? underscore)%N then rev rest else s1
  | [] => []
  end.

Section LowerCase.

(** [String.prototype.toLowerCase] *)
Variable toLowerCase : str -> str.

(** The first part of [tempMealId] in [generateRecraftFoodImage]. *)
Definition slug (englishTitle : str) : str :=
  take 20
    (strip_underscores
       (collapse
          ((fun c => if is_slug_char c then c else underscore)
             <$> toLowerCase englishTitle))).

(** [tempMealId], at time [now]. *)
Definition tempMealId (englishTitle : str) (now : N) : str :=
  slug englishTitle ++ lit "_" ++ lit (pretty now).

(** [getCompositionStyle] *)
Definition getCompositionStyle (title mealType : str) (tags : list str) : str :=
  let titleLower := toLowerCase title in
  if includes titleLower (lit "soup") || includes titleLower (lit "salad")
     || includes titleLower (lit "bowl")
  then lit "Top-down view, elegant white ceramic bowl on marble surface. "
  else if includes titleLower (lit "burger") || includes titleLower (lit "sandwich")
          || includes titleLower (lit "toast")
  then lit "45-degree angle, rustic wooden cutting board, layered presentation. "
  else if existsb (fun keyword => includes titleLower keyword)
            [lit "drink"; lit "juice"; lit "smoothie"; lit "coffee"; lit "tea"]
          || bool_decide (mealType = lit "drink")
  then lit "Side view, clear glass, natural ingredients visible. "
  else if existsb (fun keyword => includes titleLower keyword)
            [lit "cake"; lit "pie"; lit "dessert"; lit "ice cream"; lit "pastry"]
  then lit "Elegant plating, white porcelain plate, refined presentation. "
  else if existsb
            (fun tag =>
               bool_decide
                 (toLowerCase tag
                  ∈ [lit "healthy"; lit "organic"; lit "fresh"; lit "natural";
                     lit "vegan"; lit "vegetarian"]))
            tags
  then lit "Clean minimal composition, marble surface, fresh herbs accent. "
  else lit "Classic food photography angle, clean white plate, professional styling. ".

(** [createSmartFoodPrompt] *)
Definition createSmartFoodPrompt (title description mealType : str)
    (tags : list str) : str :=
  let prompt := lit "Professional food photography of " ++ title ++ lit ". " in
  let prompt :=
    if negb (bool_decide (description = [])) && (length description <? 200)%nat
    then prompt ++ description ++ lit ". "
    else prompt in
  let prompt := prompt ++ getCompositionStyle title mealType tags in
  let prompt :=
    prompt
    ++ lit "Professional food styling, warm natural lighting, appetizing presentation. " in
  let prompt :=
    prompt ++ lit "High-end restaurant quality, commercial food photography. " in
  let prompt := prompt ++ lit "Sharp focus, rich colors, inviting atmosphere." in
  if (1000 <? length prompt)%nat then take 997 prompt ++ lit "..." else prompt.

End LowerCase.

End Text.

(** ** Reading the log *)

Definition is_model_call (e : Event) : bool :=
  match e with
  | EvOpenAI _ _ => true
  | _ => false
  end.

(** Number of calls to the language model in a piece of log. *)
Definition model_calls (tr : list Event) : nat :=
  length (List.filter is_model_call tr).

Definition sleep_of (e : Event) : option Z :=
  match e with
  | EvSleep ms => Some ms
  | _ => None
  end.

(** The pauses of a piece of log, oldest first. *)
Definition sleeps (tr : list Event) : list Z := omap sleep_of (rev tr).

(** The document a store operation writes to, if it is a write to
    [generated_meals]. *)
Definition written_id (op : StoreOp) : option string :=
  match op with
  | MealEnrich id | MealImage id | MealImageFailed id => Some id
  | _ => None
  end.

Definition write_of (e : Event) : option string :=
  match e with
  | EvStore op _ => written_id op
  | _ => None
  end.

(** The ids of the meal documents against which a write was issued
    (whether or not the store accepted it). *)
Definition writes (tr : list Event) : list string := omap write_of tr.

(** From [w] to [w'] the log only grew, writes were issued only against
    documents whose id satisfies [P], and every other document is as it was. *)
Definition frame (P : string -> Prop) (w w' : World) : Prop :=
  exists tr,
    trace w' = tr ++ trace w
    /\ Forall P (writes tr)
    /\ forall id, ~ P id -> meals w' !! id = meals w !! id.

(** A computation that respects [frame P] from every world. *)
Definition frames {A} (P : string -> Prop) (m : M A) : Prop :=
  forall env w, frame P w (snd (m env w)).

(** A computation that never throws. *)
Definition total {A} (m : M A) : Prop :=
  forall env w, exists a w', m env w = (Ok a, w').

Definition recraft_call_of (e : Event) : option (option Value) :=
  match e with
  | EvRecraft title _ => Some title
  | _ => None
  end.

(** The titles for which an image was requested, oldest first. *)
Definition requested (tr : list Event) : list (option Value) :=
  omap recraft_call_of (rev tr).

Definition is_item_failure (e : Event) : bool :=
  match e with
  | EvRecraft _ false => true
  | EvStore (MealImage _) false => true
  | _ => false
  end.

(** Failed image requests and failed writes of a generated image. *)
Definition item_failures (tr : list Event) : Z :=
  Z.of_nat (length (List.filter is_item_failure tr)).

(** The data of the document has no field [id] (the type [GeneratedMeal]
    has none), so that [meal.id] is the document id. *)
Definition no_id_field (doc : string * Doc) : bool :=
  match doc.2 !! "id" with
  | None => true
  | Some _ => false
  end.

(** The document has a non-empty id and no field [id]. *)
Definition has_plain_id (doc : string * Doc) : bool :=
  negb (doc.1 =? "")%string && no_id_field doc.

Definition is_enrich_success (e : Event) : bool :=
  match e with
  | EvStore (MealEnrich _) true => true
  | _ => false
  end.

(** Number of description updates the store accepted. *)
Definition enriched (tr : list Event) : nat :=
  length (List.filter is_enrich_success tr).

(** Number of documents of a page that [updateSingleMeal] skips. *)
Definition skipped (docs : list (string * Doc)) : nat :=
  length (List.filter (fun doc => MealUpdate.already_updated doc.2) docs).

(** Number of documents of a page that still need the new fields. *)
Definition pending (docs : list (string * Doc)) : nat :=
  length (List.filter (fun doc => negb (MealUpdate.already_updated doc.2)) docs).

(** From [w] to [w'] the collection is the same and no write was issued. *)
Definition quiet (w w' : World) : Prop :=
  meals w' = meals w /\ exists tr, trace w' = tr ++ trace w /\ writes tr = [].

(** No document of the collection has a field [id]. *)
Definition no_id_fields (m : gmap string Doc) : bool :=
  forallb no_id_field (map_to_list m).

(** ** Progress of the drain *)

(** [k] lies after the cursor. *)
Definition after (c : option (Value * string)) (k : Value * string) : bool :=
  match c with
  | Some c => key_ltb c k
  | None => true
  end.

(** The sort keys of the documents the ordered query can return. *)
Definition sort_keys (m : gmap string Doc) : list (Value * string) :=
  (fun r : Value * string * Doc => r.1) <$> rows m.

(** Number of documents after the cursor. *)
Definition left_after (c : option (Value * string)) (m : gmap string Doc) : nat :=
  length (List.filter (after c) (sort_keys m)).

(** The same documents exist in [m'] as in [m], with the same
    [created_time]. *)
Definition same_keys (m m' : gmap string Doc) : Prop :=
  forall id, created_time <$> (m' !! id) = created_time <$> (m !! id).

(** Some key of [data] writes to the field [f] or inside it. *)
Definition touches (f : string) (data : Doc) : bool :=
  existsb (fun kv : string * Value => (top_field kv.1 =? f)%string) (map_to_list data).

(** No answer of the language model writes to [created_time], be it with
    the key itself or with a dotted key that leads inside the field. *)
Definition answers_keep_sort_key (env : Env) : Prop :=
  forall n meal updateData,
    openai env n meal = inr updateData -> touches "created_time" updateData = false.

(** A computation that leaves every sort key as it is. *)
Definition keeps_keys {A} (env : Env) (m : M A) : Prop :=
  forall w, same_keys (meals w) (meals (snd (m env w))).

(** The cursor [start_cursor] computes when its read succeeds. *)
Definition cursor_at (startAfter : option string) (m : gmap string Doc)
    : option (Value * string) :=
  match startAfter with
  | Some sid =>
      if truthy_str startAfter then
        match m !! sid with
        | Some d => (fun t => (t, sid)) <$> created_time d
        | None => None
        end
      else None
  | None => None
  end.

(** Number of documents left to the drain that resumes after [startAfter]. *)
Definition left_from (startAfter : option string) (w : World) : nat :=
  left_after (cursor_at startAfter (meals w)) (meals w).

(** No document has the empty id. *)
Definition ids_nonempty (m : gmap string Doc) : bool :=
  forallb (fun doc : string * Doc => negb (doc.1 =? "")%string) (map_to_list m).

(** ** Documents a computation leaves alone *)

(** After the computation, [f] of the world is what it was. *)
Definition leaves {A X} (f : World -> X) (m : M A) : Prop :=
  forall env w, f (snd (m env w)) = f w.

(** A projection of the world that does not see the clock, the count of
    interactions or the log. *)
Definition persistent {X} (f : World -> X) : Prop :=
  forall w t n tr,
    f (mkWorld (meals w) (lock w) (progress w) (scan_state w) t n tr) = f w.

(** A projection of the world that does not see the collection. *)
Definition ignores_meals {X} (f : World -> X) : Prop :=
  forall m w, f (set_meals m w) = f w.

(** The lock, the progress document and the scan cursor. *)
Definition control (w : World)
    : option LockDoc * option ProgressDoc.t * option RecraftScanState :=
  (lock w, progress w, scan_state w).

(** ** What a computation spends *)

(** Total time of the pauses of a piece of log. *)
Definition slept (tr : list Event) : Z := foldr Z.add 0 (sleeps tr).

(** Number of images requested in a piece of log. *)
Definition image_requests (tr : list Event) : nat := length (requested tr).

(** From every world, the computation calls the language model at most [o]
    times, requests at most [r] images and pauses for at most [s]
    milliseconds; the clock moves by the pauses only. *)
Definition uses {A} (o r : nat) (s : N) (m : M A) : Prop :=
  forall env w, exists tr,
    trace (snd (m env w)) = tr ++ trace w
    /\ (model_calls tr <= o)%nat
    /\ (image_requests tr <= r)%nat
    /\ 0 <= slept tr <= Z.of_N s
    /\ now (snd (m env w)) = now w + slept tr.

(** An id other than [id]: the writes of a computation that leaves the
    document [id] alone go elsewhere. *)
Definition elsewhere (id i : string) : Prop := i <> id.

(** ** Shapes of text *)

(** White space only. *)
Definition blank (ws : Text.str) : Prop := Forall (fun c => Text.is_space c = true) ws.

(** A text that neither starts nor ends with white space or a backquote. *)
Definition bare (x : Text.str) : Prop :=
  (exists c, head x = Some c /\ Text.is_space c = false /\ c <> 96%N)
  /\ (exists c, last x = Some c /\ Text.is_space c = false /\ c <> 96%N).


(** No two underscores in a row. *)
Fixpoint no_double (s : Text.str) : bool :=
  match s with
  | [] => true
  | a :: rest =>
      match rest with
      | [] => true
      | b :: _ => negb ((a =? Text.underscore) && (b =? Text.underscore))%N && no_double rest
      end
  end.


(** ** Documents a computation does not look at *)

(** The computation runs the same way whether or not the world has first
    been changed by [g], and [g] can as well be applied afterwards. *)
Definition oblivious {A} (g : World -> World) (m : M A) : Prop :=
  forall env w, m env (g w) = (fst (m env w), g (snd (m env w))).

(** The computation runs the same way whatever the lock document holds. *)
Definition ignores_lock {A} (m : M A) : Prop :=
  forall l, oblivious (set_lock l) m.

(** ** Sample environments and worlds *)

Module Sample.

(** No store failure; both generation services are down. *)
Definition env_offline : Env :=
  mkEnv (fun _ => None) (fun _ _ => inl "offline") (fun _ _ => inl "offline").

(** The store rejects every call. *)
Definition env_store_down : Env :=
  mkEnv (fun _ => Some "UNAVAILABLE") (fun _ _ => inl "offline") (fun _ _ => inl "offline").

Definition minutes (n : Z) : Z := n * 60 * 1000.

(** A lock taken at time 0. *)
Definition lock_at_0 : LockDoc := mkLock (Some true) (Some 0) (Some "update_0").

(** Nothing but the lock, seen [age] milliseconds after it was taken. *)
Definition locked_world (age : Z) : World :=
  mkWorld ∅ (Some lock_at_0) None None age 0 [].


Definition localized (en ru : string) : Value :=
  VObj [("en", VStr en); ("ru", VStr ru)].

(** A well-formed answer of the language model. *)
Definition answer : Doc :=
  list_to_map
    [("title_localized", localized "Apple" "Yabloko");
     ("description_localized", localized "A crisp apple" "Khrustyashchee yabloko");
     ("benefits", localized "Fibre" "Kletchatka");
     ("ingredients", VObj [("en", VArr [VStr "apple"]); ("ru", VArr [VStr "yabloko"])])].

(** Both services answer, the store accepts every call. *)
Definition env_fine : Env :=
  mkEnv (fun _ => None) (fun _ _ => inr answer)
        (fun _ _ => inr ("https://img/1.webp", "LEHV6n")).

(** As [env_fine], but the image service fails, every time, for the meal
    titled "Carrot soup". *)
Definition env_third_image_fails : Env :=
  mkEnv (fun _ => None) (fun _ _ => inr answer)
        (fun _ meal =>
           match meal !! "title" with
           | Some (VStr "Carrot soup") => inl "Recraft 500"
           | _ => inr ("https://img/1.webp", "LEHV6n")
           end).

(** A meal with the old fields only. *)
Definition old_meal (title : string) (created : Z) : Doc :=
  list_to_map [("title", VStr title); ("comment", VStr "tasty");
               ("created_time", VTime created)].

(** A meal that already has the new description fields. *)
Definition new_meal (title : string) (created : Z) : Doc :=
  answer ∪ old_meal title created.

(** A meal whose image already comes from Recraft. *)
Definition recraft_meal (title : string) (created : Z) : Doc :=
  <["image_generation_source" := VStr "recraft-v3"]> (old_meal title created).

Definition world_of (docs : list (string * Doc)) : World :=
  mkWorld (list_to_map docs) None None None 1000 0 [].

Definition one_old_meal : World := world_of [("m1", old_meal "Apple" 10)].
Definition one_new_meal : World := world_of [("m1", new_meal "Apple" 10)].

Definition five_docs : list (string * Doc) :=
  [("m1", old_meal "Apple" 10); ("m2", old_meal "Banana" 20);
   ("m3", old_meal "Carrot soup" 30); ("m4", old_meal "Dates" 40);
   ("m5", old_meal "Eggs" 50)].
Definition five_old_meals : World := world_of five_docs.

(** Three meals, the second one already regenerated by Recraft. *)
Definition three_docs : list (string * Doc) :=
  [("m1", old_meal "Apple" 10); ("m2", recraft_meal "Banana" 20);
   ("m3", new_meal "Carrot soup" 30)].
Definition three_meals : World := world_of three_docs.

(** The store fails once, at interaction 2 (the first query of a drain that
    starts at interaction 0). *)
Definition env_query_fails : Env :=
  mkEnv (fun n => if (n =? 2)%nat then Some "UNAVAILABLE" else None)
        (fun _ _ => inr answer) (fun _ _ => inr ("https://img/1.webp", "LEHV6n")).

(** The store accepts the first two interactions (the check and the write
    of the lock by a drain that starts at interaction 0) and rejects every
    call after them. *)
Definition env_store_lost : Env :=
  mkEnv (fun n => if (n <? 2)%nat then None else Some "UNAVAILABLE")
        (fun _ _ => inr answer) (fun _ _ => inr ("https://img/1.webp", "LEHV6n")).

(** The sample collection with the image cursor on its last document. *)
Definition scanned_to_end : World :=
  set_scan_state (Some (mkScan (Some "m3") None (Some true) (Some 0))) three_meals.

(** The five old meals under the lock taken at time 0, seen [age]
    milliseconds later. *)
Definition locked_meals (age : Z) : World :=
  mkWorld (list_to_map five_docs) (Some lock_at_0) None None age 0 [].

(** The store fails once, at the first interaction. *)
Definition env_first_call_fails : Env :=
  mkEnv (fun n => if (n =? 0)%nat then Some "UNAVAILABLE" else None)
        (fun _ _ => inr answer) (fun _ _ => inr ("https://img/1.webp", "LEHV6n")).

(** Twelve old meals, [m10] to [m21]. *)
Definition twelve_docs : list (string * Doc) :=
  (fun k : Z => ("m" +:+ pretty k, old_meal "Apple" k)) <$> seqZ 10 12.
Definition twelve_old_meals : World := world_of twelve_docs.

(** A meal without [created_time]. *)
Definition undated_meal (title : string) : Doc :=
  list_to_map [("title", VStr title); ("comment", VStr "tasty")].

(** One dated and one undated meal. *)
Definition with_undated : World :=
  world_of [("m0", undated_meal "Bread"); ("m1", old_meal "Apple" 10)].

(** A meal whose [created_time] is a number, not a timestamp. *)
Definition numbered_meal (title : string) (created : Z) : Doc :=
  list_to_map [("title", VStr title); ("comment", VStr "tasty");
               ("created_time", VNum created)].

(** The five old meals and a meal dated by a number. *)
Definition mixed_docs : list (string * Doc) :=
  ("m0", numbered_meal "Bread" 99) :: five_docs.

(** The six meals, with a progress document whose cursor names a document
    that is gone. *)
Definition cursor_gone : World :=
  set_progress (Some (ProgressDoc.mk (Some "gone") (Some 40) (Some 30) (Some 0)))
               (world_of mixed_docs).

End Sample.

(** * Properties of the lock manager *)

Section LockManager.
Import Lock.

Lemma releaseLock_done env w :
  store_fault env (steps w) = None ->
  releaseLock env w = (Ok tt, record (EvStore LockDelete true) (set_lock None w)).
Proof.
  intros H. unfold releaseLock, try_catch, store_call. now rewrite H.
Qed.

Lemma releaseLock_fault env w msg :
  store_fault env (steps w) = Some msg ->
  releaseLock env w = (Ok tt, record (EvStore LockDelete false) w).
Proof.
  intros H. unfold releaseLock, try_catch, store_call. now rewrite H.
Qed.

(** [releaseLock] returns normally whatever the store does, and its delete
    is the last interaction. *)
Lemma releaseLock_returns env w :
  exists ok,
    releaseLock env w
    = (Ok tt, record (EvStore LockDelete ok) (if ok then set_lock None w else w)).
Proof.
  destruct (store_fault env (steps w)) as [msg|] eqn:H.
  - exists false. now apply releaseLock_fault with msg.
  - exists true. now apply releaseLock_done.
Qed.

Lemma isUpdateProcessRunning_fault env w msg :
  store_fault env (steps w) = Some msg ->
  isUpdateProcessRunning env w = (Ok false, record (EvStore LockGet false) w).
Proof.
  intros H. unfold isUpdateProcessRunning, try_catch, bind, store_call.
  now rewrite H.
Qed.

Lemma acquireLock_fault env w msg :
  store_fault env (steps w) = Some msg ->
  acquireLock env w = (Ok false, record (EvStore LockSet false) w).
Proof.
  intros H. unfold acquireLock, try_catch, bind, store_call, clock.
  now rewrite H.
Qed.

Lemma acquireLock_done env w :
  store_fault env (steps w) = None ->
  acquireLock env w
  = (Ok true,
     record (EvStore LockSet true)
       (set_lock (Some (mkLock (Some true) (Some (now w))
                               (Some ("update_" +:+ pretty (now w))))) w)).
Proof.
  intros H. unfold acquireLock, try_catch, bind, store_call, clock.
  now rewrite H.
Qed.

(** The check on a lock that is not stale: the answer is [locked === true]
    and nothing is written. *)
Lemma isUpdateProcessRunning_fresh env w l :
  store_fault env (steps w) = None ->
  lock w = Some l ->
  (forall t, timestamp l = Some t -> now w - t <= STALE_AFTER_MS) ->
  isUpdateProcessRunning env w
  = (Ok (match locked l with Some true => true | _ => false end),
     record (EvStore LockGet true) w).
Proof.
  intros Hio Hl Hage.
  unfold isUpdateProcessRunning, try_catch, bind, store_call, clock.
  rewrite Hio, Hl. simpl.
  destruct (timestamp l) as [t|] eqn:Ht; [|reflexivity].
  specialize (Hage t eq_refl).
  destruct (now w - t >? STALE_AFTER_MS) eqn:Hcmp; [|reflexivity].
  apply Z.gtb_lt in Hcmp. lia.
Qed.

(** The check on a stale lock: the answer is [false] after a delete was
    issued. *)
Lemma isUpdateProcessRunning_stale env w l t :
  store_fault env (steps w) = None ->
  lock w = Some l ->
  timestamp l = Some t ->
  now w - t > STALE_AFTER_MS ->
  isUpdateProcessRunning env w
  = (Ok false, snd (releaseLock env (record (EvStore LockGet true) w))).
Proof.
  intros Hio Hl Ht Hage.
  unfold isUpdateProcessRunning, try_catch, bind, store_call, clock.
  rewrite Hio, Hl. simpl. rewrite Ht.
  replace (now w - t >? STALE_AFTER_MS) with true
    by (symmetry; apply Z.gtb_lt; lia).
  destruct (releaseLock_returns env (record (EvStore LockGet true) w)) as [ok Hr].
  rewrite Hr. reflexivity.
Qed.

(** The check never throws. *)
Lemma isUpdateProcessRunning_returns env w :
  exists b w', isUpdateProcessRunning env w = (Ok b, w').
Proof.
  destruct (store_fault env (steps w)) as [msg|] eqn:Hio.
  - erewrite isUpdateProcessRunning_fault by eassumption. eauto.
  - unfold isUpdateProcessRunning, try_catch, bind, store_call, clock.
    rewrite Hio. simpl.
    destruct (lock w) as [l|]; [|unfold ret; eauto].
    match goal with |- context [if ?c then _ else _] => destruct c end.
    + destruct (releaseLock_returns env (record (EvStore LockGet true) w)) as [ok Hr].
      rewrite Hr. unfold ret. eauto.
    + unfold ret. eauto.
Qed.

End LockManager.

(** C4. Stale-lock recovery.  For a stored lock with an acquisition time,
    the read of the lock succeeding: when its age exceeds 30 minutes the check
    answers [false] after issuing a delete of the lock, and the lock record
    is gone when the store accepts that delete; when it is younger than 30
    minutes and has [locked = true], the check answers [true] and writes
    nothing. *)
Theorem stale_lock_recovery env w l t :
  lock w = Some l ->
  timestamp l = Some t ->
  store_fault env (steps w) = None ->
  (now w - t > Lock.STALE_AFTER_MS ->
   exists ok w',
     Lock.isUpdateProcessRunning env w = (Ok false, w')
     /\ trace w' = EvStore LockDelete ok :: EvStore LockGet true :: trace w
     /\ (store_fault env (S (steps w)) = None -> ok = true /\ lock w' = None))
  /\ (now w - t < Lock.STALE_AFTER_MS ->
      locked l = Some true ->
      Lock.isUpdateProcessRunning env w = (Ok true, record (EvStore LockGet true) w)).
Proof.
  intros Hl Ht Hio. split.
  - intros Hage.
    rewrite (isUpdateProcessRunning_stale env w l t Hio Hl Ht Hage).
    destruct (store_fault env (S (steps w))) as [msg|] eqn:Hdel.
    + rewrite (releaseLock_fault env _ msg) by exact Hdel.
      exists false. eexists. split; [reflexivity|]. split; [reflexivity|].
      discriminate.
    + rewrite releaseLock_done by exact Hdel.
      exists true. eexists. split; [reflexivity|]. split; [reflexivity|].
      intros _. split; reflexivity.
  - intros Hage Hlocked.
    rewrite (isUpdateProcessRunning_fresh env w l Hio Hl).
    + now rewrite Hlocked.
    + intros t' Ht'. rewrite Ht in Ht'. injection Ht' as <-. lia.
Qed.

(** The scenario of the specification: a lock taken 40 minutes ago is
    reported inactive and removed; taken 10 minutes ago it is reported active. *)
Lemma stale_lock_recovery_witness :
  (exists ok w',
     Lock.isUpdateProcessRunning Sample.env_offline
       (Sample.locked_world (Sample.minutes 40)) = (Ok false, w')
     /\ trace w' = [EvStore LockDelete ok; EvStore LockGet true]
     /\ (store_fault Sample.env_offline 1 = None -> ok = true /\ lock w' = None))
  /\ Lock.isUpdateProcessRunning Sample.env_offline
       (Sample.locked_world (Sample.minutes 10))
     = (Ok true, record (EvStore LockGet true) (Sample.locked_world (Sample.minutes 10))).
Proof.
  split.
  - apply (proj1 (stale_lock_recovery Sample.env_offline
                    (Sample.locked_world (Sample.minutes 40)) Sample.lock_at_0 0
                    eq_refl eq_refl eq_refl)).
    vm_compute. reflexivity.
  - apply (proj2 (stale_lock_recovery Sample.env_offline
                    (Sample.locked_world (Sample.minutes 10)) Sample.lock_at_0 0
                    eq_refl eq_refl eq_refl));
      [vm_compute; reflexivity | reflexivity].
Defined.

(** The scenario, evaluated: the answer is [false] and the record is gone. *)
Example stale_lock_removed :
  let res := Lock.isUpdateProcessRunning Sample.env_offline
               (Sample.locked_world (Sample.minutes 40)) in
  fst res = Ok false /\ lock (snd res) = None.
Proof. vm_compute. split; reflexivity. Qed.

(** C2, as stated, fails: with an active lock in the store and a failing
    read, the check answers [false] instead of raising the error; a failing
    delete lets [releaseLock] return normally with the lock still there. *)
Lemma lock_errors_swallowed_counterexample :
  let env := Sample.env_store_down in
  let w := Sample.locked_world (Sample.minutes 10) in
  store_fault env (steps w) = Some "UNAVAILABLE"
  /\ fst (Lock.isUpdateProcessRunning env w) = Ok false
  /\ fst (Lock.releaseLock env w) = Ok tt
  /\ lock (snd (Lock.releaseLock env w)) = Some Sample.lock_at_0.
Proof. vm_compute. repeat split; reflexivity. Qed.

(** C2, amended.  No operation of the lock manager ever throws.  When the
    store call of an operation fails, the check answers [false], [acquireLock]
    answers [false], and [releaseLock] returns normally; in each case the
    world is unchanged apart from the log. *)
Theorem lock_manager_swallows_store_errors env w :
  (exists b w', Lock.isUpdateProcessRunning env w = (Ok b, w'))
  /\ (exists b w', Lock.acquireLock env w = (Ok b, w'))
  /\ (exists w', Lock.releaseLock env w = (Ok tt, w'))
  /\ (forall msg,
        store_fault env (steps w) = Some msg ->
        Lock.isUpdateProcessRunning env w = (Ok false, record (EvStore LockGet false) w)
        /\ Lock.acquireLock env w = (Ok false, record (EvStore LockSet false) w)
        /\ Lock.releaseLock env w = (Ok tt, record (EvStore LockDelete false) w)).
Proof.
  split; [apply isUpdateProcessRunning_returns|].
  split.
  { destruct (store_fault env (steps w)) as [msg|] eqn:Hio.
    - erewrite acquireLock_fault by eassumption. eauto.
    - rewrite acquireLock_done by assumption. eauto. }
  split.
  { destruct (releaseLock_returns env w) as [ok Hr]. rewrite Hr. eauto. }
  intros msg Hio. split; [|split].
  - now apply isUpdateProcessRunning_fault with msg.
  - now apply acquireLock_fault with msg.
  - now apply releaseLock_fault with msg.
Qed.

Lemma lock_manager_swallows_store_errors_witness :
  Lock.isUpdateProcessRunning Sample.env_store_down (Sample.locked_world 0)
  = (Ok false, record (EvStore LockGet false) (Sample.locked_world 0))
  /\ Lock.acquireLock Sample.env_store_down (Sample.locked_world 0)
     = (Ok false, record (EvStore LockSet false) (Sample.locked_world 0))
  /\ Lock.releaseLock Sample.env_store_down (Sample.locked_world 0)
     = (Ok tt, record (EvStore LockDelete false) (Sample.locked_world 0)).
Proof.
  apply (proj2 (proj2 (proj2 (lock_manager_swallows_store_errors
                                Sample.env_store_down (Sample.locked_world 0))))
           "UNAVAILABLE").
  reflexivity.
Defined.

(** C1, as stated, fails: with an active lock in the store (the check answers
    [true]), [acquireLock] still answers [true], and so does a second
    [acquireLock] right after the first. *)
Lemma acquire_twice_counterexample :
  let env := Sample.env_offline in
  let w := Sample.locked_world (Sample.minutes 10) in
  fst (Lock.isUpdateProcessRunning env w) = Ok true
  /\ fst (Lock.acquireLock env w) = Ok true
  /\ fst (Lock.acquireLock env (snd (Lock.acquireLock env w))) = Ok true.
Proof. vm_compute. repeat split; reflexivity. Qed.

(** C1, amended.  [acquireLock] does not look at the stored lock: whenever
    its write succeeds it answers [true] and the lock record is the fresh
    one.  Exclusion comes from the check: as long as that lock is stored and
    is at most 30 minutes old the check answers [true], and the drain, which
    runs the check first, then raises "Update process already running" and
    leaves the store as it is. *)
Theorem acquire_unconditional_check_guards env w :
  store_fault env (steps w) = None ->
  let fresh := mkLock (Some true) (Some (now w)) (Some ("update_" +:+ pretty (now w))) in
  Lock.acquireLock env w
  = (Ok true, record (EvStore LockSet true) (set_lock (Some fresh) w))
  /\ (forall w2,
        lock w2 = Some fresh ->
        now w2 - now w <= Lock.STALE_AFTER_MS ->
        store_fault env (steps w2) = None ->
        Lock.isUpdateProcessRunning env w2 = (Ok true, record (EvStore LockGet true) w2)
        /\ forall fuel,
             MealUpdate.updateAllExistingMeals fuel env w2
             = Some (Throw MealUpdate.ALREADY_RUNNING, record (EvStore LockGet true) w2)).
Proof.
  intros Hio fresh. split; [now apply acquireLock_done|].
  intros w2 Hl Hage Hio2.
  assert (Hrun : Lock.isUpdateProcessRunning env w2
                 = (Ok true, record (EvStore LockGet true) w2)).
  { rewrite (isUpdateProcessRunning_fresh env w2 fresh Hio2 Hl); [reflexivity|].
    simpl. intros t [= <-]. exact Hage. }
  split; [exact Hrun|].
  intros fuel. unfold MealUpdate.updateAllExistingMeals. now rewrite Hrun.
Qed.

(** After a successful [acquireLock] on the sample world, the check answers
    [true] and a drain refuses to start. *)
Lemma acquire_unconditional_check_guards_witness :
  let env := Sample.env_offline in
  let w := Sample.locked_world (Sample.minutes 10) in
  let w2 := snd (Lock.acquireLock env w) in
  fst (Lock.acquireLock env w) = Ok true
  /\ Lock.isUpdateProcessRunning env w2 = (Ok true, record (EvStore LockGet true) w2)
  /\ MealUpdate.updateAllExistingMeals 1 env w2
     = Some (Throw MealUpdate.ALREADY_RUNNING, record (EvStore LockGet true) w2).
Proof.
  pose proof (acquire_unconditional_check_guards Sample.env_offline
                (Sample.locked_world (Sample.minutes 10)) eq_refl) as [Hacq Hcheck].
  cbv zeta. rewrite Hacq. split; [reflexivity|].
  destruct (Hcheck (snd (Lock.acquireLock Sample.env_offline
                           (Sample.locked_world (Sample.minutes 10)))))
    as [Hrun Hdrain].
  - reflexivity.
  - vm_compute. discriminate.
  - reflexivity.
  - rewrite Hacq in Hrun, Hdrain. split; [exact Hrun | exact (Hdrain 1%nat)].
Defined.

Lemma last_cons_default {A} (a : A) l d : List.last (a :: l) d = List.last l a.
Proof.
  revert a d. induction l as [|x l IH]; intros a d; [reflexivity|].
  change (List.last (a :: x :: l) d) with (List.last (x :: l) d).
  now rewrite (IH x d), (IH x a).
Qed.

(** * Frame rules *)

Section Frames.
Context (P : string -> Prop).

Lemma frame_refl w : frame P w w.
Proof. exists []. repeat split; auto. Qed.

Lemma frame_trans w1 w2 w3 : frame P w1 w2 -> frame P w2 w3 -> frame P w1 w3.
Proof.
  intros (tr1 & T1 & F1 & M1) (tr2 & T2 & F2 & M2).
  exists (tr2 ++ tr1). split; [|split].
  - rewrite T2, T1. apply app_assoc.
  - unfold writes in *. rewrite omap_app. apply Forall_app. split; assumption.
  - intros id Hid. rewrite M2, M1; auto.
Qed.

Lemma frames_ret {A} (a : A) : frames P (ret a).
Proof. intros env w. apply frame_refl. Qed.

Lemma frames_throw {A} msg : frames P (@throw A msg).
Proof. intros env w. apply frame_refl. Qed.

Lemma frames_clock : frames P clock.
Proof. intros env w. apply frame_refl. Qed.

Lemma frames_sleep ms : frames P (sleep ms).
Proof.
  intros env w. exists [EvSleep ms]. repeat split; auto.
Qed.

Lemma frames_bind {A B} (m : M A) (k : A -> M B) :
  frames P m -> (forall a, frames P (k a)) -> frames P (bind m k).
Proof.
  intros Hm Hk env w. unfold bind. specialize (Hm env w).
  destruct (m env w) as [[a|e] w1]; simpl in Hm; [|exact Hm].
  eapply frame_trans; [exact Hm | apply Hk].
Qed.

Lemma frames_try_catch {A} (m : M A) (h : string -> M A) :
  frames P m -> (forall e, frames P (h e)) -> frames P (try_catch m h).
Proof.
  intros Hm Hh env w. unfold try_catch. specialize (Hm env w).
  destruct (m env w) as [[a|e] w1]; simpl in Hm; [exact Hm|].
  eapply frame_trans; [exact Hm | apply Hh].
Qed.

(** A store call that is not a write to a meal and leaves the collection
    alone. *)
Lemma frames_store_call {A} op (effect : World -> string + (A * World)) :
  written_id op = None ->
  (forall w a w', effect w = inr (a, w') -> meals w' = meals w /\ trace w' = trace w) ->
  frames P (store_call op effect).
Proof.
  intros Hop Heff env w. unfold store_call.
  destruct (store_fault env (steps w)).
  { exists [EvStore op false]. cbn. rewrite Hop. repeat split; auto. }
  destruct (effect w) as [msg|[a w']] eqn:E.
  { exists [EvStore op false]. cbn. rewrite Hop. repeat split; auto. }
  destruct (Heff _ _ _ E) as [Hm Ht].
  exists [EvStore op true]. cbn. rewrite Hop, Ht, Hm. repeat split; auto.
Qed.

(** A write to the document [id], which [P] allows. *)
Lemma frames_update_doc op id patch :
  written_id op = Some id -> P id -> frames P (update_doc op id patch).
Proof.
  intros Hop HP env w. unfold update_doc.
  destruct (id =? "")%string; [apply frame_refl|].
  unfold store_call.
  destruct (store_fault env (steps w)).
  { exists [EvStore op false]. cbn. rewrite Hop. repeat split; auto. }
  destruct (meals w !! id) as [d|] eqn:E.
  - exists [EvStore op true]. cbn. rewrite Hop. repeat split; auto.
    intros id' Hid'. apply lookup_insert_ne. intros ->. contradiction.
  - exists [EvStore op false]. cbn. rewrite Hop. repeat split; auto.
Qed.

Lemma frames_update_fields op id data :
  written_id op = Some id -> P id -> frames P (update_fields op id data).
Proof.
  intros Hop HP. unfold update_fields.
  destruct (id =? "")%string; [apply frames_throw|].
  destruct (update_error data); [apply frames_throw|].
  now apply frames_update_doc.
Qed.

End Frames.

(** * Properties of the meal-description job *)

Section MealRetry.
Import MealUpdate.

(** A meal that already has the new fields is skipped: success, no
    interaction, nothing written. *)
Lemma attempt_skip mealId meal env w :
  already_updated meal = true ->
  attempt mealId meal env w = (Ok true, w).
Proof. intros H. unfold attempt. now rewrite H. Qed.

(** One attempt on a meal that needs the update: either the model answered
    and the write went through, or the attempt threw, having changed nothing
    but the log. *)
Lemma attempt_shape mealId meal env w :
  already_updated meal = false ->
  (exists w',
     attempt mealId meal env w = (Ok true, w')
     /\ trace w' = EvStore (MealEnrich mealId) true
                   :: EvOpenAI (meal !! "title") true :: trace w
     /\ now w' = now w)
  \/ (exists e w' tr,
        attempt mealId meal env w = (Throw e, w')
        /\ trace w' = tr ++ trace w
        /\ now w' = now w
        /\ meals w' = meals w
        /\ (tr = [EvOpenAI (meal !! "title") false]
            \/ tr = [EvOpenAI (meal !! "title") true]
            \/ tr = [EvStore (MealEnrich mealId) false;
                     EvOpenAI (meal !! "title") true])).
Proof.
  intros H. unfold attempt. rewrite H.
  unfold bind, generateEnhancedMealDescription, clock.
  destruct (openai env (steps w) meal) as [msg|updateData].
  { right. exists msg. eexists. exists [EvOpenAI (meal !! "title") false].
    repeat split; auto. }
  match goal with |- context [if ?c then _ else _] => destruct c end.
  { right. exists MISSING_FIELDS. eexists. exists [EvOpenAI (meal !! "title") false].
    repeat split; auto. }
  unfold update_fields. destruct (mealId =? "")%string eqn:Hid.
  { right. exists INVALID_PATH. eexists. exists [EvOpenAI (meal !! "title") true].
    repeat split; auto. }
  destruct (update_error _) as [msg|].
  { right. exists msg. eexists. exists [EvOpenAI (meal !! "title") true].
    repeat split; auto. }
  unfold update_doc. rewrite Hid.
  unfold store_call. simpl steps.
  destruct (store_fault env (S (steps w))) as [msg|].
  { right. exists msg. eexists.
    exists [EvStore (MealEnrich mealId) false; EvOpenAI (meal !! "title") true].
    repeat split; auto. }
  simpl meals. destruct (meals w !! mealId) as [d|].
  - left. eexists. repeat split; reflexivity.
  - right. exists NOT_FOUND. eexists.
    exists [EvStore (MealEnrich mealId) false; EvOpenAI (meal !! "title") true].
    repeat split; auto.
Qed.

(** One turn of the retry loop. *)
Lemma attempts_step remaining n mealId meal env w :
  attempts (S remaining) n mealId meal env w
  = match attempt mealId meal env w with
    | (Ok b, w1) => (Ok b, w1)
    | (Throw _, w1) =>
        if n =? maxRetries then (Ok false, w1)
        else attempts remaining (n + 1) mealId meal env
                      (snd (sleep (2 ^ n * 1000) env w1))
    end.
Proof.
  cbn [attempts]. unfold try_catch, bind.
  destruct (attempt mealId meal env w) as [[b|e] w1]; [reflexivity|].
  destruct (n =? maxRetries); reflexivity.
Qed.

(** [updateSingleMeal] never throws. *)
Lemma attempts_total remaining n mealId meal : total (attempts remaining n mealId meal).
Proof.
  revert n. induction remaining as [|r IH]; intros n env w.
  - cbn. unfold ret. eauto.
  - rewrite attempts_step.
    destruct (attempt mealId meal env w) as [[b|e] w1]; [eauto|].
    destruct (n =? maxRetries); [eauto|]. apply IH.
Qed.

(** A skipped meal: success and an untouched world. *)
Lemma updateSingleMeal_skip mealId meal env w :
  already_updated meal = true ->
  updateSingleMeal mealId meal env w = (Ok true, w).
Proof.
  intros H. unfold updateSingleMeal.
  change (Z.to_nat maxRetries) with 3%nat.
  rewrite attempts_step. now rewrite attempt_skip.
Qed.

(** When the loop gives up, no write has gone through. *)
Lemma attempts_false_meals remaining n mealId meal env w w' :
  attempts remaining n mealId meal env w = (Ok false, w') ->
  meals w' = meals w.
Proof.
  revert n w. induction remaining as [|r IH]; intros n w.
  - cbn. unfold ret. now intros [= <-].
  - rewrite attempts_step.
    destruct (already_updated meal) eqn:Hup.
    { rewrite attempt_skip by assumption. discriminate. }
    destruct (attempt_shape mealId meal env w Hup)
      as [(w1 & E1 & _) | (e1 & w1 & tr1 & E1 & _ & _ & M1 & _)]; rewrite E1.
    { discriminate. }
    destruct (n =? maxRetries).
    + intros [= <-]. exact M1.
    + intros H. apply IH in H. rewrite H. exact M1.
Qed.

Section MealFrames.
Context (P : string -> Prop).

Lemma frames_generateEnhancedMealDescription meal :
  frames P (generateEnhancedMealDescription meal).
Proof.
  intros env w. unfold generateEnhancedMealDescription.
  destruct (openai env (steps w) meal) as [msg|updateData].
  { exists [EvOpenAI (meal !! "title") false]. repeat split; auto. }
  match goal with |- context [if ?c then _ else _] => destruct c end.
  - exists [EvOpenAI (meal !! "title") false]. repeat split; auto.
  - exists [EvOpenAI (meal !! "title") true]. repeat split; auto.
Qed.

Lemma frames_attempt mealId meal :
  (already_updated meal = false -> P mealId) ->
  frames P (attempt mealId meal).
Proof.
  intros HP. unfold attempt.
  destruct (already_updated meal); [apply frames_ret|].
  apply frames_bind; [apply frames_generateEnhancedMealDescription|].
  intros updateData. apply frames_bind; [apply frames_clock|].
  intros t. apply frames_bind; [|intros; apply frames_ret].
  apply frames_update_fields; auto.
Qed.

Lemma frames_attempts remaining n mealId meal :
  (already_updated meal = false -> P mealId) ->
  frames P (attempts remaining n mealId meal).
Proof.
  intros HP. revert n. induction remaining as [|r IH]; intros n.
  - apply frames_ret.
  - cbn [attempts]. apply frames_try_catch; [now apply frames_attempt|].
    intros _. destruct (n =? maxRetries); [apply frames_ret|].
    apply frames_bind; [apply frames_sleep|]. intros _. apply IH.
Qed.

Lemma frames_process_docs docs p u last :
  Forall (fun doc : string * Doc => already_updated doc.2 = false -> P doc.1) docs ->
  frames P (process_docs docs p u last).
Proof.
  intros H. revert p u last.
  induction H as [|[id meal] rest Hd _ IH]; intros p u last.
  - apply frames_ret.
  - cbn [process_docs]. apply frames_bind; [|intros; apply IH].
    apply frames_try_catch; [|intros; apply frames_ret].
    apply frames_bind; [|intros; apply frames_ret].
    now apply frames_attempts.
Qed.

End MealFrames.

(** The loop over a page never throws; it counts every document as
    processed, and as updated those for which [updateSingleMeal] answered
    [true]. *)
Lemma meal_docs_counts docs p u last env w :
  exists u' last' w',
    process_docs docs p u last env w
    = (Ok (p + Z.of_nat (length docs), u', last'), w')
    /\ u <= u' <= u + Z.of_nat (length docs)
    /\ last' = List.last (map fst docs) last.
Proof.
  revert p u last w.
  induction docs as [|[id meal] rest IH]; intros p u last w.
  - exists u, last, w. cbn. unfold ret. rewrite Z.add_0_r. repeat split; lia.
  - cbn [process_docs]. unfold bind at 1. unfold try_catch, bind at 1.
    destruct (attempts_total (Z.to_nat maxRetries) 1 id meal env w) as (b & w1 & E).
    unfold updateSingleMeal. rewrite E. unfold ret at 1.
    destruct (IH (p + 1) (if b then u + 1 else u) id w1) as (u' & last' & w' & E' & Hu & Hl).
    exists u', last', w'. rewrite E'. split; [|split].
    + replace (p + Z.of_nat (length ((id, meal) :: rest)))
        with (p + 1 + Z.of_nat (length rest)) by (cbn [length]; lia).
      reflexivity.
    + cbn [length]. destruct b; lia.
    + rewrite Hl. cbn [map]. symmetry. apply last_cons_default.
Qed.

Lemma model_calls_app tr2 tr1 : model_calls (tr2 ++ tr1) = (model_calls tr2 + model_calls tr1)%nat.
Proof. unfold model_calls. now rewrite List.filter_app, length_app. Qed.

Lemma enriched_app tr2 tr1 : enriched (tr2 ++ tr1) = (enriched tr2 + enriched tr1)%nat.
Proof. unfold enriched. now rewrite List.filter_app, length_app. Qed.

(** The retry loop on a meal that needs the update: the answer is [true]
    exactly when one write was accepted, and the model is called at least
    once. *)
Lemma attempts_log remaining n mealId meal env w :
  already_updated meal = false ->
  exists b w' tr,
    attempts (S remaining) n mealId meal env w = (Ok b, w')
    /\ trace w' = tr ++ trace w
    /\ enriched tr = (if b then 1 else 0)%nat
    /\ (1 <= model_calls tr)%nat.
Proof.
  intros Hup. revert n w. induction remaining as [|r IH]; intros n w;
    rewrite attempts_step;
    (destruct (attempt_shape mealId meal env w Hup)
      as [(w1 & E1 & T1 & _) | (e1 & w1 & tr1 & E1 & T1 & _ & _ & S1)]; rewrite E1;
     [exists true, w1,
        [EvStore (MealEnrich mealId) true; EvOpenAI (meal !! "title") true];
      repeat split; auto|]).
  - assert (Hcount : enriched tr1 = 0%nat /\ (1 <= model_calls tr1)%nat)
      by (destruct S1 as [-> | [-> | ->]]; cbn; split; lia).
    destruct (n =? maxRetries).
    + exists false, w1, tr1. repeat split; tauto.
    + cbn. unfold ret. eexists false, _, (EvSleep (2 ^ n * 1000) :: tr1).
      split; [reflexivity|]. cbn. rewrite T1.
      split; [reflexivity|]. exact Hcount.
  - assert (Hcount : enriched tr1 = 0%nat /\ (1 <= model_calls tr1)%nat)
      by (destruct S1 as [-> | [-> | ->]]; cbn; split; lia).
    destruct (n =? maxRetries).
    + exists false, w1, tr1. repeat split; tauto.
    + destruct (IH (n + 1) (snd (sleep (2 ^ n * 1000) env w1)))
        as (b & w' & tr & E & T & He & Hc).
      exists b, w', (tr ++ EvSleep (2 ^ n * 1000) :: tr1). rewrite E.
      split; [reflexivity|].
      split; [rewrite T; cbn; rewrite T1; now rewrite <- app_assoc|].
      rewrite enriched_app, model_calls_app.
      change (enriched (EvSleep (2 ^ n * 1000) :: tr1)) with (enriched tr1).
      change (model_calls (EvSleep (2 ^ n * 1000) :: tr1)) with (model_calls tr1).
      split; lia.
Qed.

(** The loop over a page, with its log: it never throws; every document is
    counted as processed; [updatedCount] grows by the skipped documents plus
    the accepted writes; the model is called for every pending document. *)
Lemma meal_docs_log docs p u last env w :
  exists u' last' w' tr,
    process_docs docs p u last env w
    = (Ok (p + Z.of_nat (length docs), u', last'), w')
    /\ trace w' = tr ++ trace w
    /\ u' = u + Z.of_nat (skipped docs) + Z.of_nat (enriched tr)
    /\ (pending docs <= model_calls tr)%nat.
Proof.
  revert p u last w.
  induction docs as [|[id meal] rest IH]; intros p u last w.
  - exists u, last, w, []. cbn. unfold ret. rewrite Z.add_0_r.
    repeat split; auto; lia.
  - cbn [process_docs]. unfold bind at 1. unfold try_catch, bind at 1.
    unfold updateSingleMeal. change (Z.to_nat maxRetries) with 3%nat.
    unfold skipped, pending. cbn [List.filter snd].
    destruct (already_updated meal) eqn:Hup.
    + pose proof (updateSingleMeal_skip id meal env w Hup) as E.
      unfold updateSingleMeal in E. change (Z.to_nat maxRetries) with 3%nat in E.
      rewrite E. unfold ret at 1.
      destruct (IH (p + 1) (u + 1) id w) as (u' & last' & w' & tr & E' & T & Hu & Hc).
      exists u', last', w', tr. rewrite E'.
      replace (p + Z.of_nat (length ((id, meal) :: rest)))
        with (p + 1 + Z.of_nat (length rest)) by (cbn [length]; lia).
      split; [reflexivity|]. split; [exact T|].
      unfold skipped, pending in *. cbn [negb length]. split; lia.
    + destruct (attempts_log 2 1 id meal env w Hup) as (b & w1 & tr1 & E & T1 & He & Hc1).
      rewrite E. unfold ret at 1.
      destruct (IH (p + 1) (if b then u + 1 else u) id w1)
        as (u' & last' & w' & tr & E' & T & Hu & Hc).
      exists u', last', w', (tr ++ tr1). rewrite E'.
      replace (p + Z.of_nat (length ((id, meal) :: rest)))
        with (p + 1 + Z.of_nat (length rest)) by (cbn [length]; lia).
      split; [reflexivity|]. split; [rewrite T, T1; apply app_assoc|].
      rewrite enriched_app, model_calls_app.
      unfold skipped, pending in *. cbn [negb length].
      destruct b; split; lia.
Qed.

End MealRetry.

(** C8. Retry budget and backoff.  On a meal that needs the update,
    [updateSingleMeal] always returns; it calls the model at least once and at
    most 3 times; the pauses it takes are 2000 ms after the first failed
    attempt and 4000 ms after the second; it answers [true] exactly when its
    last interaction is the successful write, and [false] only after three
    calls none of which led to a successful write. *)
Theorem retry_budget_and_backoff mealId meal env w :
  MealUpdate.already_updated meal = false ->
  exists b w' tr,
    MealUpdate.updateSingleMeal mealId meal env w = (Ok b, w')
    /\ trace w' = tr ++ trace w
    /\ (1 <= model_calls tr <= 3)%nat
    /\ sleeps tr = take (model_calls tr - 1) [2000; 4000]
    /\ now w' = now w + foldr Z.add 0 (sleeps tr)
    /\ (b = true <-> head tr = Some (EvStore (MealEnrich mealId) true))
    /\ (b = false ->
        model_calls tr = 3%nat /\ ~ In (EvStore (MealEnrich mealId) true) tr).
Proof.
  intros H. unfold MealUpdate.updateSingleMeal.
  change (Z.to_nat MealUpdate.maxRetries) with 3%nat.
  set (done := [EvStore (MealEnrich mealId) true; EvOpenAI (meal !! "title") true]).
  rewrite attempts_step.
  destruct (attempt_shape mealId meal env w H)
    as [(w1 & E1 & T1 & N1) | (e1 & w1 & tr1 & E1 & T1 & N1 & _ & S1)];
    rewrite E1.
  { exists true, w1, done. split; [reflexivity|]. split; [exact T1|].
    cbn. repeat split; try lia; try reflexivity; try discriminate. }
  change (1 =? MealUpdate.maxRetries) with false. cbv iota.
  rewrite attempts_step.
  destruct (attempt_shape mealId meal env (snd (sleep (2 ^ 1 * 1000) env w1)) H)
    as [(w2 & E2 & T2 & N2) | (e2 & w2 & tr2 & E2 & T2 & N2 & _ & S2)];
    rewrite E2.
  { exists true, w2, (done ++ EvSleep 2000 :: tr1). split; [reflexivity|].
    rewrite T2, N2. cbn. rewrite T1, N1.
    destruct S1 as [-> | [-> | ->]]; cbn;
      repeat split; try lia; try reflexivity; try discriminate. }
  change (1 + 1 =? MealUpdate.maxRetries) with false. cbv iota.
  rewrite attempts_step.
  destruct (attempt_shape mealId meal env
              (snd (sleep (2 ^ (1 + 1) * 1000) env w2)) H)
    as [(w3 & E3 & T3 & N3) | (e3 & w3 & tr3 & E3 & T3 & N3 & _ & S3)];
    rewrite E3.
  { exists true, w3, (done ++ EvSleep 4000 :: tr2 ++ EvSleep 2000 :: tr1).
    split; [reflexivity|].
    rewrite T3, N3. cbn. rewrite T2, N2. cbn. rewrite T1, N1.
    destruct S1 as [-> | [-> | ->]], S2 as [-> | [-> | ->]]; cbn;
      repeat split; try lia; try reflexivity; try discriminate. }
  change (1 + 1 + 1 =? MealUpdate.maxRetries) with true. cbv iota.
  exists false, w3, (tr3 ++ EvSleep 4000 :: tr2 ++ EvSleep 2000 :: tr1).
  split; [reflexivity|].
  rewrite T3, N3. cbn. rewrite T2, N2. cbn. rewrite T1, N1.
  destruct S1 as [-> | [-> | ->]], S2 as [-> | [-> | ->]], S3 as [-> | [-> | ->]];
    cbn; repeat split; try lia; try reflexivity; try discriminate;
    intuition discriminate.
Qed.

Lemma retry_budget_and_backoff_witness :
  exists b w' tr,
    MealUpdate.updateSingleMeal "m1" (Sample.old_meal "Apple" 10)
      Sample.env_offline Sample.one_old_meal = (Ok b, w')
    /\ trace w' = tr ++ trace Sample.one_old_meal
    /\ (1 <= model_calls tr <= 3)%nat
    /\ sleeps tr = take (model_calls tr - 1) [2000; 4000]
    /\ now w' = now Sample.one_old_meal + foldr Z.add 0 (sleeps tr)
    /\ (b = true <-> head tr = Some (EvStore (MealEnrich "m1") true))
    /\ (b = false ->
        model_calls tr = 3%nat /\ ~ In (EvStore (MealEnrich "m1") true) tr).
Proof.
  apply (retry_budget_and_backoff "m1" (Sample.old_meal "Apple" 10)
           Sample.env_offline Sample.one_old_meal).
  vm_compute. reflexivity.
Defined.

(** Three failed attempts: pauses of 2 s and 4 s, then [false]. *)
Example three_failed_attempts :
  let res := MealUpdate.updateSingleMeal "m1" (Sample.old_meal "Apple" 10)
               Sample.env_offline Sample.one_old_meal in
  fst res = Ok false
  /\ trace (snd res)
     = [EvOpenAI (Some (VStr "Apple")) false; EvSleep 4000;
        EvOpenAI (Some (VStr "Apple")) false; EvSleep 2000;
        EvOpenAI (Some (VStr "Apple")) false]
  /\ now (snd res) = now Sample.one_old_meal + 6000.
Proof. vm_compute. repeat split; reflexivity. Qed.

(** * Properties of the image job *)

Section ImageItems.
Import Recraft.

Lemma plain_meal_id doc :
  has_plain_id doc = true ->
  meal_id doc = Some (VStr doc.1) /\ (doc.1 =? "")%string = false.
Proof.
  unfold has_plain_id, no_id_field, meal_id. intros H.
  apply andb_prop in H as [Hne Hid].
  destruct (doc.2 !! "id"); [discriminate|].
  split; [reflexivity|]. now destruct (doc.1 =? "")%string.
Qed.

(** [markMealImageFailed] never throws. *)
Lemma markMealImageFailed_total mealId error : total (markMealImageFailed mealId error).
Proof.
  intros env w. unfold markMealImageFailed, try_catch.
  match goal with |- context [match ?m env w with _ => _ end] =>
    destruct (m env w) as [[[]|e] w1] end; unfold ret; eauto.
Qed.

(** The marker write on an existing document with a plain id. *)
Lemma markMealImageFailed_written id error d env w :
  (id =? "")%string = false ->
  store_fault env (steps w) = None ->
  meals w !! id = Some d ->
  markMealImageFailed (Some (VStr id)) error env w
  = (Ok tt, record (EvStore (MealImageFailed id) true)
              (set_meals (<[id := failure_patch error (now w) d]> (meals w)) w)).
Proof.
  intros Hne Hio Hd.
  unfold markMealImageFailed, try_catch, bind, doc_path, ret, clock, update_doc.
  rewrite Hne. unfold store_call. now rewrite Hio, Hd.
Qed.

(** The marker, whatever the store does: one interaction, a write issued
    against [id]. *)
Lemma markMealImageFailed_shape id error env w :
  (id =? "")%string = false ->
  exists ok w',
    markMealImageFailed (Some (VStr id)) error env w = (Ok tt, w')
    /\ trace w' = EvStore (MealImageFailed id) ok :: trace w
    /\ now w' = now w.
Proof.
  intros Hne.
  unfold markMealImageFailed, try_catch, bind, doc_path, ret, clock, update_doc.
  rewrite Hne. unfold store_call.
  destruct (store_fault env (steps w)); [exists false; eauto|].
  destruct (meals w !! id); [exists true|exists false]; eauto.
Qed.

Lemma requested_app tr2 tr1 : requested (tr2 ++ tr1) = requested tr1 ++ requested tr2.
Proof. unfold requested. now rewrite rev_app_distr, omap_app. Qed.

Lemma item_failures_app tr2 tr1 :
  item_failures (tr2 ++ tr1) = item_failures tr2 + item_failures tr1.
Proof.
  unfold item_failures. rewrite List.filter_app, length_app. lia.
Qed.

(** One turn of the loop on a document with a plain id and a title: exactly
    one image is requested, and the item is counted either as generated or as
    failed; the loop goes on with the rest in both cases. *)
Lemma process_item doc rest c env w :
  has_plain_id doc = true ->
  truthy (englishTitle doc.2) = true ->
  exists (failed : bool) w1 tr1,
    process_docs (doc :: rest) c env w
    = process_docs rest
        (mkCounts (processedCount c + 1)
                  (if failed then generatedCount c else generatedCount c + 1)
                  (if failed then failedCount c + 1 else failedCount c))
        env w1
    /\ trace w1 = tr1 ++ trace w
    /\ requested tr1 = [englishTitle doc.2]
    /\ item_failures tr1 = (if failed then 1 else 0).
Proof.
  intros Hplain Htitle.
  destruct (plain_meal_id doc Hplain) as [Hid Hne].
  cbn [process_docs]. rewrite Hid. cbn [truthy]. rewrite Hne. cbn [negb].
  unfold bind at 1. unfold try_catch. rewrite Htitle. cbn [negb].
  unfold bind at 1. unfold generateRecraftFoodImage.
  destruct (recraft env (steps w) doc.2) as [msg|result].
  { (* the request failed *)
    destruct (markMealImageFailed_shape doc.1 msg env
                (record (EvRecraft (englishTitle doc.2) false) w) Hne)
      as (ok & w1 & E & T & _).
    unfold bind at 1. rewrite E. unfold ret at 1.
    exists true, w1, [EvStore (MealImageFailed doc.1) ok; EvRecraft (englishTitle doc.2) false].
    repeat split; auto. }
  unfold bind at 1, doc_path, ret at 1, bind at 1, clock, bind at 1, update_doc.
  rewrite Hne. unfold store_call. cbn [steps record meals].
  destruct (store_fault env (S (steps w))) as [msg|].
  { (* the write of the image was refused *)
    destruct (markMealImageFailed_shape doc.1 msg env
                (record (EvStore (MealImage doc.1) false)
                   (record (EvRecraft (englishTitle doc.2) true) w)) Hne)
      as (ok & w1 & E & T & _).
    unfold bind at 1. rewrite E. unfold ret at 1.
    exists true, w1,
      [EvStore (MealImageFailed doc.1) ok; EvStore (MealImage doc.1) false;
       EvRecraft (englishTitle doc.2) true].
    repeat split; auto. }
  destruct (meals w !! doc.1) as [d|].
  - (* generated and written *)
    unfold bind at 1, sleep, ret at 1.
    eexists false, _, [EvSleep 500; EvStore (MealImage doc.1) true;
                       EvRecraft (englishTitle doc.2) true].
    repeat split; auto.
  - (* the document is gone *)
    destruct (markMealImageFailed_shape doc.1 NOT_FOUND env
                (record (EvStore (MealImage doc.1) false)
                   (record (EvRecraft (englishTitle doc.2) true) w)) Hne)
      as (ok & w1 & E & T & _).
    unfold bind at 1. rewrite E. unfold ret at 1.
    exists true, w1,
      [EvStore (MealImageFailed doc.1) ok; EvStore (MealImage doc.1) false;
       EvRecraft (englishTitle doc.2) true].
    repeat split; auto.
Qed.

(** The loop over the selected candidates: it never throws; every item is
    requested once, in order; every item is counted as processed, the failed
    ones as failed and the others as generated. *)
Lemma image_docs_counts docs c env w :
  Forall (fun doc => has_plain_id doc = true /\ truthy (englishTitle doc.2) = true) docs ->
  exists c' w' tr,
    process_docs docs c env w = (Ok c', w')
    /\ trace w' = tr ++ trace w
    /\ requested tr = map (fun doc => englishTitle doc.2) docs
    /\ processedCount c' = processedCount c + Z.of_nat (length docs)
    /\ failedCount c' = failedCount c + item_failures tr
    /\ generatedCount c' = generatedCount c + Z.of_nat (length docs) - item_failures tr.
Proof.
  intros H. revert c w. induction H as [|doc rest [Hplain Htitle] _ IH]; intros c w.
  - exists c, w, []. cbn. unfold ret.
    repeat split; auto; unfold item_failures; cbn; lia.
  - destruct (process_item doc rest c env w Hplain Htitle)
      as (failed & w1 & tr1 & E & T1 & R1 & F1).
    rewrite E.
    match goal with |- context [process_docs rest ?c1 env w1] =>
      destruct (IH c1 w1) as (c' & w' & tr & E' & T & R & Hp & Hf & Hg) end.
    exists c', w', (tr ++ tr1). rewrite E'.
    split; [reflexivity|]. split; [rewrite T, T1; apply app_assoc|].
    split; [rewrite requested_app, R1, R; reflexivity|].
    rewrite item_failures_app, F1. cbn [processedCount generatedCount failedCount length] in *.
    destruct failed; repeat split; lia.
Qed.

End ImageItems.

Section ImagePage.
Import Recraft.

Lemma setScanState_done patch env w :
  store_fault env (steps w) = None ->
  setScanState patch env w
  = (Ok tt, record (EvStore ScanStateSet true)
              (set_scan_state (Some (merge_state patch (now w) (scan_state w))) w)).
Proof.
  intros H. unfold setScanState, bind, clock, store_call. now rewrite H.
Qed.

(** The candidates selected from a page of plain documents have a plain id
    and a title. *)
Lemma selected_well_formed snapshot n :
  Forall (fun doc => has_plain_id doc = true) snapshot ->
  Forall (fun doc => has_plain_id doc = true /\ truthy (englishTitle doc.2) = true)
         (take n (List.filter is_candidate snapshot)).
Proof.
  intros H. apply Forall_take. apply List.Forall_forall. intros doc Hin.
  apply List.filter_In in Hin as [Hin Hc].
  rewrite List.Forall_forall in H. split; [now apply H|].
  unfold is_candidate in Hc. now apply andb_prop in Hc as [_ Hc].
Qed.

End ImagePage.

(** C7. Partial-failure containment.  Image job: on a page of documents with
    plain ids, the loop over the selected candidates never throws; it
    requests an image for every one of them, in order; [processed] is their
    number, [failed] the number of failed items and [generated] the rest;
    the cursor write succeeding, the invocation returns that summary.
    Meal job: the loop over a page never throws, [processed] is the number
    of documents, the model is called for every pending one, and [updated]
    leaves out exactly the failed ones. *)
Theorem partial_failure_containment env w :
  (forall snapshot,
     Forall (fun doc => has_plain_id doc = true) snapshot ->
     let toProcess := take Recraft.BATCH_SIZE (List.filter Recraft.is_candidate snapshot) in
     toProcess <> [] ->
     exists c w1 tr,
       Recraft.process_docs toProcess (Recraft.mkCounts 0 0 0) env w = (Ok c, w1)
       /\ trace w1 = tr ++ trace w
       /\ requested tr = map (fun doc => Recraft.englishTitle doc.2) toProcess
       /\ Recraft.processedCount c = Z.of_nat (length toProcess)
       /\ Recraft.failedCount c = item_failures tr
       /\ Recraft.generatedCount c = Z.of_nat (length toProcess) - item_failures tr
       /\ (store_fault env (steps w1) = None ->
           exists w',
             Recraft.process_page snapshot env w
             = (Ok (Recraft.mkSummary (Recraft.processedCount c)
                      (Recraft.generatedCount c) (Recraft.failedCount c)
                      (length snapshot =? Recraft.SCAN_PAGE_SIZE)%nat), w')))
  /\ (forall docs,
        exists r w' tr,
          MealUpdate.process_page docs env w = (Ok r, w')
          /\ trace w' = tr ++ trace w
          /\ MealUpdate.processed r = Z.of_nat (length docs)
          /\ MealUpdate.updated r = Z.of_nat (skipped docs) + Z.of_nat (enriched tr)
          /\ (pending docs <= model_calls tr)%nat).
Proof.
  split.
  - intros snapshot Hplain toProcess Hne.
    destruct (image_docs_counts toProcess (Recraft.mkCounts 0 0 0) env w
                (selected_well_formed snapshot Recraft.BATCH_SIZE Hplain))
      as (c & w1 & tr & E & T & R & Hp & Hf & Hg).
    exists c, w1, tr. cbn in Hp, Hf, Hg.
    repeat (split; [first [assumption | lia]|]).
    intros Hio. unfold Recraft.process_page.
    destruct snapshot as [|d0 snapshot']; [contradiction Hne; reflexivity|].
    destruct (last (d0 :: snapshot')) as [lastDocOnPage|] eqn:Hlast;
      [|now apply last_None in Hlast].
    fold toProcess.
    destruct (List.filter Recraft.is_candidate (d0 :: snapshot')) as [|c0 cs] eqn:Hc;
      [contradiction Hne; reflexivity|].
    unfold bind at 1. subst toProcess. rewrite E.
    unfold bind. rewrite setScanState_done by assumption.
    unfold ret. eauto.
  - intros docs. unfold MealUpdate.process_page.
    destruct docs as [|d0 docs'].
    + exists (MealUpdate.mkBatch 0 0 false None), w, []. unfold ret. cbn.
      repeat split; auto.
    + destruct (meal_docs_log (d0 :: docs') 0 0 "" env w)
        as (u' & last' & w' & tr & E & T & Hu & Hc).
      exists (MealUpdate.mkBatch (0 + Z.of_nat (length (d0 :: docs'))) u'
                ((0 + Z.of_nat (length (d0 :: docs'))) =? Z.of_nat MealUpdate.BATCH_SIZE)
                (Some last')), w', tr.
      unfold bind. rewrite E. unfold ret. cbn [fst snd].
      repeat split; auto.
Qed.

(** The scenario of the specification: five candidates, the third request
    fails; the invocation returns [processed = 5], [failed = 1]. *)
Example five_candidates_third_fails :
  fst (Recraft.generateImagesBatch Sample.env_third_image_fails Sample.five_old_meals)
  = Ok (Recraft.mkSummary 5 4 1 false).
Proof. vm_compute. reflexivity. Qed.

Lemma partial_failure_containment_witness :
  let env := Sample.env_third_image_fails in
  let w := mkWorld (meals Sample.five_old_meals) None None None 1000 2 [] in
  exists c w1 tr,
    Recraft.process_docs Sample.five_docs (Recraft.mkCounts 0 0 0) env w = (Ok c, w1)
    /\ trace w1 = tr ++ trace w
    /\ requested tr = map (fun doc => Recraft.englishTitle doc.2) Sample.five_docs
    /\ Recraft.processedCount c = 5
    /\ Recraft.failedCount c = item_failures tr
    /\ Recraft.generatedCount c = 5 - item_failures tr
    /\ (store_fault env (steps w1) = None ->
        exists w',
          Recraft.process_page Sample.five_docs env w
          = (Ok (Recraft.mkSummary (Recraft.processedCount c)
                   (Recraft.generatedCount c) (Recraft.failedCount c) false), w')).
Proof.
  intros env w.
  apply (proj1 (partial_failure_containment env w) Sample.five_docs).
  - repeat constructor.
  - discriminate.
Defined.

(** C10. In the meal job [updated] counts the skipped meals.  A meal that
    already has the new fields makes [updateSingleMeal] answer [true] with no
    interaction at all; the [updated] of a page is the number of skipped
    documents plus the number of accepted writes; and there is an invocation
    that reports [updated = 1] although no write was issued. *)
Theorem skipped_meals_counted_as_updated :
  (forall mealId meal env w,
     MealUpdate.already_updated meal = true ->
     MealUpdate.updateSingleMeal mealId meal env w = (Ok true, w))
  /\ (forall docs env w,
        exists r w' tr,
          MealUpdate.process_page docs env w = (Ok r, w')
          /\ trace w' = tr ++ trace w
          /\ MealUpdate.updated r = Z.of_nat (skipped docs) + Z.of_nat (enriched tr))
  /\ (exists env w r w',
        MealUpdate.updateSingleBatchOnly env w = (Ok r, w')
        /\ MealUpdate.updated r = 1
        /\ writes (trace w') = []
        /\ meals w' = meals w).
Proof.
  split; [exact updateSingleMeal_skip|]. split.
  - intros docs env w. unfold MealUpdate.process_page.
    destruct docs as [|d0 docs'].
    + exists (MealUpdate.mkBatch 0 0 false None), w, []. unfold ret. cbn.
      repeat split; auto.
    + destruct (meal_docs_log (d0 :: docs') 0 0 "" env w)
        as (u' & last' & w' & tr & E & T & Hu & _).
      eexists _, w', tr. unfold bind. rewrite E. unfold ret. cbn [fst snd].
      repeat split; auto.
  - exists Sample.env_fine, Sample.one_new_meal.
    eexists _, _. split; [vm_compute; reflexivity|].
    repeat split; reflexivity.
Qed.

Lemma skipped_meals_counted_as_updated_witness :
  MealUpdate.updateSingleMeal "m1" (Sample.new_meal "Apple" 10)
    Sample.env_fine Sample.one_new_meal
  = (Ok true, Sample.one_new_meal).
Proof.
  apply (proj1 skipped_meals_counted_as_updated). vm_compute. reflexivity.
Defined.

(** C5, as stated, fails in the meal job: after three failed attempts the
    batch reports the meal as processed and not updated, and the record is
    exactly what it was: no failure field has been written. *)
Lemma terminal_failure_not_recorded_counterexample :
  let r := MealUpdate.updateSingleBatchOnly Sample.env_offline Sample.one_old_meal in
  fst r = Ok (MealUpdate.mkBatch 1 0 false None)
  /\ model_calls (trace (snd r)) = 3%nat
  /\ writes (trace (snd r)) = []
  /\ meals (snd r) !! "m1" = Some (Sample.old_meal "Apple" 10).
Proof. vm_compute. repeat split; reflexivity. Qed.

(** C5, amended.  Image job: when the image request for a selected document
    fails and the store accepts the marker, the record gets
    [image_generation_failed = true], the error message and the failure time,
    the item is counted as failed, and the loop goes on with the remaining
    candidates.  Meal job: when [updateSingleMeal] gives up nothing is
    written on the record; the loop counts the meal as processed, not as
    updated, and goes on with the remaining documents. *)
Theorem failure_recording env w :
  (forall doc rest c msg d,
     has_plain_id doc = true ->
     truthy (Recraft.englishTitle doc.2) = true ->
     recraft env (steps w) doc.2 = inl msg ->
     store_fault env (S (steps w)) = None ->
     meals w !! doc.1 = Some d ->
     exists w1,
       Recraft.process_docs (doc :: rest) c env w
       = Recraft.process_docs rest
           (Recraft.mkCounts (Recraft.processedCount c + 1) (Recraft.generatedCount c)
                             (Recraft.failedCount c + 1)) env w1
       /\ meals w1 = <[doc.1 := Recraft.failure_patch msg (now w) d]> (meals w)
       /\ exists d',
            meals w1 !! doc.1 = Some d'
            /\ d' !! "image_generation_failed" = Some (VBool true)
            /\ d' !! "image_generation_error" = Some (VStr msg)
            /\ d' !! "image_generation_failed_at" = Some (VTime (now w)))
  /\ (forall mealId meal rest p u last w',
        MealUpdate.updateSingleMeal mealId meal env w = (Ok false, w') ->
        meals w' = meals w
        /\ MealUpdate.process_docs ((mealId, meal) :: rest) p u last env w
           = MealUpdate.process_docs rest (p + 1) u mealId env w').
Proof.
  split.
  - intros doc rest c msg d Hplain Htitle Hfail Hio Hd.
    destruct (plain_meal_id doc Hplain) as [Hid Hne].
    cbn [Recraft.process_docs]. rewrite Hid. cbn [truthy]. rewrite Hne. cbn [negb].
    unfold bind at 1. unfold try_catch. rewrite Htitle. cbn [negb].
    unfold bind at 1. unfold Recraft.generateRecraftFoodImage. rewrite Hfail.
    unfold bind at 1.
    rewrite (markMealImageFailed_written doc.1 msg d env
               (record (EvRecraft (Recraft.englishTitle doc.2) false) w) Hne Hio Hd).
    unfold ret at 1. eexists. split; [reflexivity|]. split; [reflexivity|].
    exists (Recraft.failure_patch msg (now w) d). cbn [meals record set_meals now].
    split; [apply lookup_insert_eq|]. unfold Recraft.failure_patch.
    repeat split; now simplify_map_eq.
  - intros mealId meal rest p u last w' E. split.
    + unfold MealUpdate.updateSingleMeal in E. now apply attempts_false_meals in E.
    + cbn [MealUpdate.process_docs]. unfold bind at 1. unfold try_catch, bind at 1.
      rewrite E. reflexivity.
Qed.

Lemma failure_recording_witness :
  let env := Sample.env_offline in
  let w := Sample.one_old_meal in
  let doc := ("m1", Sample.old_meal "Apple" 10) in
  (exists w1,
     Recraft.process_docs [doc] (Recraft.mkCounts 0 0 0) env w
     = Recraft.process_docs [] (Recraft.mkCounts (0 + 1) 0 (0 + 1)) env w1
     /\ meals w1 = <[doc.1 := Recraft.failure_patch "offline" (now w) doc.2]> (meals w)
     /\ exists d',
          meals w1 !! doc.1 = Some d'
          /\ d' !! "image_generation_failed" = Some (VBool true)
          /\ d' !! "image_generation_error" = Some (VStr "offline")
          /\ d' !! "image_generation_failed_at" = Some (VTime (now w)))
  /\ (let w' := snd (MealUpdate.updateSingleMeal "m1" doc.2 env w) in
      meals w' = meals w
      /\ MealUpdate.process_docs [doc] 0 0 "" env w
         = MealUpdate.process_docs [] (0 + 1) 0 "m1" env w').
Proof.
  intros env w doc. split.
  - apply (proj1 (failure_recording env w) doc [] (Recraft.mkCounts 0 0 0)
             "offline" doc.2); reflexivity.
  - apply (proj2 (failure_recording env w) "m1" doc.2 [] 0 0 "").
    vm_compute. reflexivity.
Defined.

(** * What a query returns *)

Lemma In_take {A} (x : A) n l : In x (take n l) -> In x l.
Proof.
  intros H. rewrite <- (take_drop n l). apply in_or_app. now left.
Qed.

(** Every row of the page read by the image job is a document of the
    collection. *)
Lemma query_by_document_id_lookup cursor n m id d :
  In (id, d) (query_by_document_id cursor n m) -> m !! id = Some d.
Proof.
  unfold query_by_document_id, by_document_id. intros H.
  apply In_take, List.filter_In in H as [H _].
  apply list_elem_of_In in H. rewrite merge_sort_Permutation in H.
  now apply elem_of_map_to_list in H.
Qed.

Lemma rows_lookup m t id d : In (t, id, d) (rows m) -> m !! id = Some d.
Proof.
  unfold rows. intros H. apply list_elem_of_In, list_elem_of_omap in H.
  destruct H as ([id' d'] & Hin & Hrow).
  apply elem_of_map_to_list in Hin.
  destruct (created_time d'); cbn in Hrow; [|discriminate].
  now injection Hrow as <- <- <-.
Qed.

(** Every row of the page read by the meal job is a document of the
    collection. *)
Lemma query_by_created_time_lookup cursor n m id d :
  In (id, d) (query_by_created_time cursor n m) -> m !! id = Some d.
Proof.
  unfold query_by_created_time, by_created_time. intros H.
  apply List.in_map_iff in H as ([[t id'] d'] & Heq & H).
  cbn in Heq. injection Heq as -> ->.
  apply In_take, List.filter_In in H as [H _].
  apply list_elem_of_In in H. rewrite merge_sort_Permutation in H.
  apply list_elem_of_In in H. now apply rows_lookup in H.
Qed.

(** * Frames of whole invocations *)

Section Invocations.
Context (P : string -> Prop).

Lemma quiet_frame w w' : quiet w w' -> frame P w w'.
Proof.
  intros [Hm (tr & T & W)]. exists tr. rewrite W, Hm. repeat split; auto.
Qed.

Lemma quiet_refl w : quiet w w.
Proof. split; [reflexivity|]. now exists []. Qed.

(** A store call that only reads. *)
Lemma store_read_quiet {A} op (f : World -> A) env w :
  written_id op = None ->
  quiet w (snd (store_call op (fun w => inr (f w, w)) env w)).
Proof.
  intros Hop. unfold store_call.
  destruct (store_fault env (steps w)); cbn; (split; [reflexivity|]).
  - exists [EvStore op false]. cbn. now rewrite Hop.
  - exists [EvStore op true]. cbn. now rewrite Hop.
Qed.

Lemma store_read_value {A} op (f : World -> A) env w a w1 :
  store_call op (fun w => inr (f w, w)) env w = (Ok a, w1) ->
  a = f w /\ w1 = record (EvStore op true) w.
Proof.
  unfold store_call. destruct (store_fault env (steps w)); [discriminate|].
  now intros [= <- <-].
Qed.

Lemma frame_bind {A B} (m : M A) (k : A -> M B) env w :
  frame P w (snd (m env w)) ->
  (forall a w1, m env w = (Ok a, w1) -> frame P w1 (snd (k a env w1))) ->
  frame P w (snd (bind m k env w)).
Proof.
  intros Hm Hk. unfold bind.
  destruct (m env w) as [[a|e] w1] eqn:E; cbn in Hm; [|exact Hm].
  eapply frame_trans; [exact Hm | now apply Hk].
Qed.

Lemma frame_rethrow {A} (m : M A) env w :
  frame P w (snd (m env w)) ->
  frame P w (snd (try_catch m (fun error => throw error) env w)).
Proof.
  intros Hm. unfold try_catch, throw.
  now destruct (m env w) as [[a|e] w1].
Qed.

Lemma frames_bind_ret {A B} (a : A) (k : A -> M B) :
  frames P (k a) -> frames P (bind (ret a) k).
Proof. intros H env w. exact (H env w). Qed.

Lemma frames_bind_throw {A B} e (k : A -> M B) : frames P (bind (throw e) k).
Proof. intros env w. apply frame_refl. Qed.

(** ** Meal job *)

Lemma start_cursor_quiet startAfter env w :
  quiet w (snd (MealUpdate.start_cursor startAfter env w)).
Proof.
  unfold MealUpdate.start_cursor.
  destruct startAfter as [sid|]; [|apply quiet_refl].
  destruct (truthy_str (Some sid)); [|apply quiet_refl].
  unfold bind.
  pose proof (store_read_quiet (MealGet sid) (fun w => meals w !! sid) env w eq_refl) as Q.
  cbv beta in Q. revert Q.
  destruct (store_call (MealGet sid) (fun w0 => inr (meals w0 !! sid, w0)) env w)
    as [[startDoc|e] w1]; cbn; intros Q; [|exact Q].
  destruct startDoc as [d|]; [|exact Q].
  destruct (created_time d); exact Q.
Qed.

Lemma frames_meal_page docs :
  Forall (fun doc : string * Doc => MealUpdate.already_updated doc.2 = false -> P doc.1) docs ->
  frames P (MealUpdate.process_page docs).
Proof.
  intros H. unfold MealUpdate.process_page.
  destruct docs; [apply frames_ret|].
  apply frames_bind; [now apply frames_process_docs|].
  intros r. apply frames_ret.
Qed.



(** ** Image job *)

Lemma frames_generateRecraftFoodImage meal :
  frames P (Recraft.generateRecraftFoodImage meal).
Proof.
  intros env w. unfold Recraft.generateRecraftFoodImage.
  destruct (recraft env (steps w) meal).
  - exists [EvRecraft (Recraft.englishTitle meal) false]. repeat split; auto.
  - exists [EvRecraft (Recraft.englishTitle meal) true]. repeat split; auto.
Qed.

Lemma frames_markMealImageFailed v error :
  (forall s, v = Some (VStr s) -> P s) ->
  frames P (Recraft.markMealImageFailed v error).
Proof.
  intros HP. unfold Recraft.markMealImageFailed.
  apply frames_try_catch; [|intros; apply frames_ret].
  destruct v as [[| | |s| | |]|]; cbn [Recraft.doc_path];
    try apply frames_bind_throw.
  apply frames_bind_ret. apply frames_bind; [apply frames_clock|]. intros t.
  apply frames_update_doc; [reflexivity|]. now apply HP.
Qed.

Lemma frames_setScanState patch : frames P (Recraft.setScanState patch).
Proof.
  unfold Recraft.setScanState.
  apply frames_bind; [apply frames_clock|]. intros t.
  apply frames_store_call; [reflexivity|]. now intros ? ? ? [= <- <-].
Qed.

Lemma frames_image_docs docs c :
  Forall (fun doc => forall s, Recraft.meal_id doc = Some (VStr s) -> P s) docs ->
  frames P (Recraft.process_docs docs c).
Proof.
  intros H. revert c. induction H as [|doc rest HP _ IH]; intros c.
  - apply frames_ret.
  - cbn [Recraft.process_docs].
    destruct (negb (truthy (Recraft.meal_id doc))); [apply IH|].
    apply frames_bind; [|intros; apply IH].
    apply frames_try_catch.
    + destruct (negb (truthy (Recraft.englishTitle doc.2))); [apply frames_ret|].
      apply frames_bind; [apply frames_generateRecraftFoodImage|]. intros result.
      destruct (Recraft.meal_id doc) as [[| | |s| | |]|]; cbn [Recraft.doc_path];
        try apply frames_bind_throw.
      apply frames_bind_ret. apply frames_bind; [apply frames_clock|]. intros t.
      apply frames_bind; [apply frames_update_doc; [reflexivity|now apply HP]|].
      intros _. apply frames_bind; [apply frames_sleep|]. intros _. apply frames_ret.
    + intros e. apply frames_bind; [now apply frames_markMealImageFailed|].
      intros _. apply frames_ret.
Qed.



End Invocations.

Lemma no_id_fields_lookup m id d :
  no_id_fields m = true -> m !! id = Some d ->
  Recraft.meal_id (id, d) = Some (VStr id).
Proof.
  unfold no_id_fields. rewrite List.forallb_forall. intros H Hd.
  assert (Hin : In (id, d) (map_to_list m))
    by now apply list_elem_of_In, elem_of_map_to_list.
  apply H in Hin. unfold no_id_field in Hin. unfold Recraft.meal_id.
  cbn in *. now destruct (d !! "id").
Qed.



(** * Rewind *)

Lemma try_catch_rethrow {A} (m : M A) env w :
  try_catch m (fun error => throw error) env w = m env w.
Proof.
  unfold try_catch, throw. now destruct (m env w) as [[a|e] w1].
Qed.

(** An invocation of the image job whose two reads succeed handles the page
    that starts after the stored cursor. *)
Lemma generateImagesBatch_reads env w :
  store_fault env (steps w) = None ->
  store_fault env (S (steps w)) = None ->
  let cursor := Recraft.cursor_of (default (mkScan None None None None) (scan_state w)) in
  Recraft.generateImagesBatch env w
  = Recraft.process_page
      (query_by_document_id cursor Recraft.SCAN_PAGE_SIZE (meals w)) env
      (record (EvStore (MealsQuery cursor) true) (record (EvStore ScanStateGet true) w)).
Proof.
  intros H0 H1 cursor. unfold Recraft.generateImagesBatch.
  rewrite try_catch_rethrow.
  unfold bind at 1. unfold Recraft.getScanState, bind at 1, store_call at 1.
  rewrite H0. unfold ret at 1. unfold bind at 1, store_call at 1.
  cbn [steps record]. rewrite H1. cbn [meals record].
  subst cursor. now destruct (scan_state w).
Qed.

(** A whole collection that fits in one page is read entirely by a query
    without cursor. *)
Lemma query_by_document_id_all n m :
  (size m <= n)%nat -> query_by_document_id None n m ≡ₚ map_to_list m.
Proof.
  intros H. unfold query_by_document_id, by_document_id.
  assert (Hf : forall l : list (string * Doc), List.filter (after_id None) l = l).
  { induction l as [|x l IH]; [reflexivity|]. cbn. now rewrite IH. }
  rewrite Hf, take_ge.
  - apply merge_sort_Permutation.
  - rewrite merge_sort_Permutation. now rewrite length_map_to_list.
Qed.

(** An invocation of the meal job that finds no progress document asks for
    the first page of the collection. *)
Lemma updateMealsInBatches_from_start env w :
  store_fault env (steps w) = None ->
  MealUpdate.updateMealsInBatches None env w
  = MealUpdate.process_page
      (query_by_created_time None MealUpdate.BATCH_SIZE (meals w)) env
      (record (EvStore (MealsQuery None) true) w).
Proof.
  intros H. unfold MealUpdate.updateMealsInBatches, MealUpdate.start_cursor.
  unfold bind at 1, ret at 1, bind at 1, store_call. now rewrite H.
Qed.

(** An invocation of the meal job that finds no progress document: its
    first two interactions are the read of the progress document and the
    query from the beginning of the collection. *)
Lemma updateSingleBatchOnly_fresh env w :
  progress w = None ->
  store_fault env (steps w) = None ->
  store_fault env (S (steps w)) = None ->
  exists tr,
    trace (snd (MealUpdate.updateSingleBatchOnly env w))
    = tr ++ EvStore (MealsQuery None) true :: EvStore ProgressGet true :: trace w.
Proof.
  intros Hp H0 H1.
  unfold MealUpdate.updateSingleBatchOnly. rewrite try_catch_rethrow.
  unfold bind at 1, store_call at 1. rewrite H0, Hp.
  cbn [mbind option_bind].
  match goal with |- context [bind (MealUpdate.updateMealsInBatches None) ?k0] =>
    set (k := k0) end.
  assert (Hk : forall result, frames (fun _ => True) (k result)).
  { intros result. subst k. cbv beta.
    apply frames_bind; [|intros; apply frames_ret].
    destruct (MealUpdate.hasMore result
              && truthy_str (MealUpdate.lastProcessedId result)).
    - apply frames_bind; [apply frames_clock|]. intros t.
      apply frames_store_call; [reflexivity|]. now intros ? ? ? [= <- <-].
    - apply frames_store_call; [reflexivity|]. now intros ? ? ? [= <- <-]. }
  unfold bind at 1.
  rewrite updateMealsInBatches_from_start by exact H1.
  match goal with |- context [MealUpdate.process_page ?docs env ?w2] =>
    pose proof (frames_meal_page (fun _ => True) docs) as Hpage;
    specialize (Hpage ltac:(apply List.Forall_forall; auto) env w2);
    destruct (MealUpdate.process_page docs env w2) as [[result|e] w3]
  end; cbn [snd] in Hpage.
  - destruct (Hk result env w3) as (tr2 & T2 & _).
    destruct Hpage as (tr1 & T1 & _).
    exists (tr2 ++ tr1). rewrite T2, T1. cbn [trace record]. now rewrite app_assoc.
  - destruct Hpage as (tr1 & T1 & _). exists tr1. exact T1.
Qed.

(** C6. Rewind on completion.  Image job: when the page read by an
    invocation is empty (its three store calls succeeding), the invocation
    returns the empty summary, leaves the collection alone and stores a
    cursor with [lastDocId = null] and [finished = true]; the following
    invocation then handles the page that starts at the beginning of the
    collection, which is the whole collection when it fits in one page.
    Meal job (it has no [finished] field: the progress document is its
    cursor): an empty page gives [hasMore = false]; an invocation that
    returns [hasMore = false] has deleted the progress document, and the
    following invocation queries the collection from its beginning. *)
Theorem rewind_on_completion env w :
  (let cursor := Recraft.cursor_of (default (mkScan None None None None) (scan_state w)) in
   store_fault env (steps w) = None ->
   store_fault env (S (steps w)) = None ->
   store_fault env (S (S (steps w))) = None ->
   query_by_document_id cursor Recraft.SCAN_PAGE_SIZE (meals w) = [] ->
   exists w',
     Recraft.generateImagesBatch env w = (Ok (Recraft.mkSummary 0 0 0 false), w')
     /\ meals w' = meals w
     /\ (exists s, scan_state w' = Some s /\ lastDocId s = None /\ finished s = Some true)
     /\ (store_fault env (steps w') = None ->
         store_fault env (S (steps w')) = None ->
         Recraft.generateImagesBatch env w'
         = Recraft.process_page
             (query_by_document_id None Recraft.SCAN_PAGE_SIZE (meals w)) env
             (record (EvStore (MealsQuery None) true)
                     (record (EvStore ScanStateGet true) w')))
     /\ ((size (meals w) <= Recraft.SCAN_PAGE_SIZE)%nat ->
         query_by_document_id None Recraft.SCAN_PAGE_SIZE (meals w)
         ≡ₚ map_to_list (meals w)))
  /\ MealUpdate.process_page [] env w = (Ok (MealUpdate.mkBatch 0 0 false None), w)
  /\ (forall r w',
        MealUpdate.updateSingleBatchOnly env w = (Ok r, w') ->
        MealUpdate.hasMore r = false ->
        progress w' = None
        /\ (store_fault env (steps w') = None ->
            store_fault env (S (steps w')) = None ->
            exists tr,
              trace (snd (MealUpdate.updateSingleBatchOnly env w'))
              = tr ++ EvStore (MealsQuery None) true
                   :: EvStore ProgressGet true :: trace w')).
Proof.
  split; [|split; [reflexivity|]].
  - intros cursor H0 H1 H2 Hempty.
    rewrite (generateImagesBatch_reads env w H0 H1). fold cursor. rewrite Hempty.
    unfold Recraft.process_page, bind.
    rewrite setScanState_done by exact H2. unfold ret.
    eexists. split; [reflexivity|]. split; [reflexivity|].
    split; [eexists; repeat split; reflexivity|].
    split; [|apply query_by_document_id_all].
    intros H3 H4.
    match goal with |- Recraft.generateImagesBatch env ?w1 = _ =>
      rewrite (generateImagesBatch_reads env w1 H3 H4) end.
    reflexivity.
  - intros r w' E Hmore.
    unfold MealUpdate.updateSingleBatchOnly in E. rewrite try_catch_rethrow in E.
    unfold bind at 1, store_call at 1 in E.
    destruct (store_fault env (steps w)); [discriminate|].
    unfold bind at 1 in E.
    match type of E with context [MealUpdate.updateMealsInBatches ?s env ?w0] =>
      destruct (MealUpdate.updateMealsInBatches s env w0) as [[result|e] w1] end;
      [|discriminate].
    unfold bind at 1 in E.
    destruct (MealUpdate.hasMore result) eqn:Hres.
    { (* the page was full: the summary says so *)
      destruct (truthy_str (MealUpdate.lastProcessedId result)); cbn [andb] in E.
      - unfold bind at 1, clock, store_call in E.
        destruct (store_fault env (steps w1)); [discriminate|].
        unfold ret in E. injection E as <- _. cbn in Hmore. congruence.
      - unfold store_call in E.
        destruct (store_fault env (steps w1)); [discriminate|].
        unfold ret in E. injection E as <- _. cbn in Hmore. congruence. }
    cbn [andb] in E. unfold store_call in E.
    destruct (store_fault env (steps w1)); [discriminate|].
    unfold ret in E. injection E as _ <-.
    split; [reflexivity|]. intros H3 H4.
    now apply updateSingleBatchOnly_fresh.
Qed.

Lemma rewind_on_completion_witness :
  (exists w',
     Recraft.generateImagesBatch Sample.env_fine Sample.scanned_to_end
     = (Ok (Recraft.mkSummary 0 0 0 false), w')
     /\ meals w' = meals Sample.scanned_to_end
     /\ (exists s, scan_state w' = Some s /\ lastDocId s = None /\ finished s = Some true)
     /\ (store_fault Sample.env_fine (steps w') = None ->
         store_fault Sample.env_fine (S (steps w')) = None ->
         Recraft.generateImagesBatch Sample.env_fine w'
         = Recraft.process_page
             (query_by_document_id None Recraft.SCAN_PAGE_SIZE
                (meals Sample.scanned_to_end)) Sample.env_fine
             (record (EvStore (MealsQuery None) true)
                     (record (EvStore ScanStateGet true) w')))
     /\ ((size (meals Sample.scanned_to_end) <= Recraft.SCAN_PAGE_SIZE)%nat ->
         query_by_document_id None Recraft.SCAN_PAGE_SIZE (meals Sample.scanned_to_end)
         ≡ₚ map_to_list (meals Sample.scanned_to_end)))
  /\ (let w' := snd (MealUpdate.updateSingleBatchOnly Sample.env_fine Sample.one_new_meal) in
      progress w' = None
      /\ (store_fault Sample.env_fine (steps w') = None ->
          store_fault Sample.env_fine (S (steps w')) = None ->
          exists tr,
            trace (snd (MealUpdate.updateSingleBatchOnly Sample.env_fine w'))
            = tr ++ EvStore (MealsQuery None) true
                 :: EvStore ProgressGet true :: trace w')).
Proof.
  split.
  - apply (proj1 (rewind_on_completion Sample.env_fine Sample.scanned_to_end));
      vm_compute; reflexivity.
  - apply (proj2 (proj2 (rewind_on_completion Sample.env_fine Sample.one_new_meal))
             (MealUpdate.mkBatch 1 1 false None)).
    + vm_compute. reflexivity.
    + reflexivity.
Defined.

(** * Termination of the drain *)

Lemma string_compare_lt_trans a b c :
  String.compare a b = Lt -> String.compare b c = Lt -> String.compare a c = Lt.
Proof.
  revert b c. induction a as [|x a IH]; intros [|y b] [|z c]; cbn; try easy.
  unfold Ascii.compare.
  destruct (N.compare_spec (Ascii.N_of_ascii x) (Ascii.N_of_ascii y)) as [Hxy|Hxy|Hxy];
    try discriminate;
    destruct (N.compare_spec (Ascii.N_of_ascii y) (Ascii.N_of_ascii z)) as [Hyz|Hyz|Hyz];
    try discriminate; intros H1 H2.
  - rewrite Hxy, Hyz, N.compare_refl. now apply IH with b.
  - rewrite Hxy. now apply N.compare_lt_iff in Hyz as ->.
  - rewrite <- Hyz. now apply N.compare_lt_iff in Hxy as ->.
  - assert (H : (Ascii.N_of_ascii x < Ascii.N_of_ascii z)%N) by lia.
    now apply N.compare_lt_iff in H as ->.
Qed.

Lemma string_ltb_trans a b c :
  String.ltb a b = true -> String.ltb b c = true -> String.ltb a c = true.
Proof.
  unfold String.ltb. intros H1 H2.
  destruct (String.compare a b) eqn:E1; try discriminate.
  destruct (String.compare b c) eqn:E2; try discriminate.
  now rewrite (string_compare_lt_trans a b c E1 E2).
Qed.

Lemma string_ltb_irrefl a : String.ltb a a = false.
Proof.
  unfold String.ltb.
  destruct (String.compare a a) eqn:E; try reflexivity.
  pose proof (String.compare_antisym a a) as H. rewrite E in H. discriminate.
Qed.

(** ** The order of values *)

Lemma Value_nested_ind (P : Value -> Prop) :
  P VNull -> (forall b, P (VBool b)) -> (forall z, P (VNum z)) ->
  (forall s, P (VStr s)) -> (forall t, P (VTime t)) ->
  (forall l, Forall P l -> P (VArr l)) ->
  (forall fs, Forall (fun kv : string * Value => P kv.2) fs -> P (VObj fs)) ->
  forall v, P v.
Proof.
  intros H1 H2 H3 H4 H5 HA HO. fix IH 1.
  intros [ | b | z | s | t | l | fs];
    [exact H1 | apply H2 | apply H3 | apply H4 | apply H5 | | ].
  - apply HA. induction l as [|x l IHl]; constructor; [apply IH | exact IHl].
  - apply HO. induction fs as [|[k v] fs IHf]; constructor; [apply IH | exact IHf].
Qed.

Lemma string_compare_refl s : String.compare s s = Eq.
Proof.
  pose proof (String.compare_antisym s s) as H.
  now destruct (String.compare s s).
Qed.

Section LexOrder.
Context {A : Type} (cmp : A -> A -> comparison).

Lemma lex_compare_refl l :
  Forall (fun x => cmp x x = Eq) l -> lex_compare cmp l l = Eq.
Proof. induction 1 as [|x l Hx _ IH]; cbn; [reflexivity|]. now rewrite Hx. Qed.

Lemma lex_compare_eq l :
  Forall (fun x => forall y, cmp x y = Eq -> x = y) l ->
  forall l', lex_compare cmp l l' = Eq -> l = l'.
Proof.
  induction 1 as [|x l Hx _ IH]; intros [|y l']; cbn; try easy.
  destruct (cmp x y) eqn:E; try discriminate.
  intros H. f_equal; [now apply Hx | now apply IH].
Qed.

Lemma lex_compare_antisym l :
  Forall (fun x => forall y, cmp y x = CompOpp (cmp x y)) l ->
  forall l', lex_compare cmp l' l = CompOpp (lex_compare cmp l l').
Proof.
  induction 1 as [|x l Hx _ IH]; intros [|y l']; cbn; try easy.
  rewrite Hx. destruct (cmp x y); cbn; auto.
Qed.

Lemma lex_compare_trans l :
  (forall x y, cmp x y = Eq -> x = y) ->
  Forall (fun x => forall y z, cmp x y = Lt -> cmp y z = Lt -> cmp x z = Lt) l ->
  forall l' l'',
    lex_compare cmp l l' = Lt -> lex_compare cmp l' l'' = Lt ->
    lex_compare cmp l l'' = Lt.
Proof.
  intros Heq. induction 1 as [|x l Hx _ IH]; intros [|y l'] [|z l'']; cbn; try easy.
  destruct (cmp x y) eqn:Exy; try discriminate.
  - apply Heq in Exy as ->. destruct (cmp y z); try easy. apply IH.
  - destruct (cmp y z) eqn:Eyz; try discriminate.
    + apply Heq in Eyz as <-. now rewrite Exy.
    + now rewrite (Hx y z Exy Eyz).
Qed.

End LexOrder.

Lemma bool_compare_eq x y : Bool.compare x y = Eq -> x = y.
Proof. now destruct x, y. Qed.

Lemma compare_values_refl a : compare_values a a = Eq.
Proof.
  induction a as [ | b | z | s | t | l IH | fs IH] using Value_nested_ind; cbn.
  - reflexivity.
  - now destruct b.
  - apply Z.compare_refl.
  - apply string_compare_refl.
  - apply Z.compare_refl.
  - now apply lex_compare_refl.
  - apply lex_compare_refl. eapply Forall_impl; [exact IH|].
    intros [k v] H. unfold field_compare. cbn in *. now rewrite string_compare_refl.
Qed.

Lemma compare_values_eq a : forall b, compare_values a b = Eq -> a = b.
Proof.
  induction a as [ | x | x | x | x | l IH | fs IH] using Value_nested_ind;
    intros [ | y | y | y | y | l' | fs']; cbn; try discriminate; intros H.
  - reflexivity.
  - f_equal. now apply bool_compare_eq.
  - f_equal. now apply Z.compare_eq.
  - f_equal. now apply String.compare_eq_iff.
  - f_equal. now apply Z.compare_eq.
  - f_equal. now apply (lex_compare_eq compare_values).
  - f_equal. apply (lex_compare_eq (field_compare compare_values)); [|exact H].
    eapply Forall_impl; [exact IH|].
    intros [k v] Hv [k' v']. unfold field_compare. cbn in *.
    destruct (String.compare k k') eqn:E; try discriminate.
    apply String.compare_eq_iff in E as ->. intros E. f_equal. now apply Hv.
Qed.

Lemma compare_values_antisym a :
  forall b, compare_values b a = CompOpp (compare_values a b).
Proof.
  induction a as [ | x | x | x | x | l IH | fs IH] using Value_nested_ind;
    intros [ | y | y | y | y | l' | fs']; cbn; try reflexivity.
  - now destruct x, y.
  - apply Z.compare_antisym.
  - apply String.compare_antisym.
  - apply Z.compare_antisym.
  - now apply lex_compare_antisym.
  - apply lex_compare_antisym. eapply Forall_impl; [exact IH|].
    intros [k v] Hv [k' v']. unfold field_compare. cbn in *.
    rewrite String.compare_antisym. destruct (String.compare k k'); cbn; auto.
Qed.

Lemma compare_values_trans a :
  forall b c, compare_values a b = Lt -> compare_values b c = Lt ->
              compare_values a c = Lt.
Proof.
  induction a as [ | x | x | x | x | l IH | fs IH] using Value_nested_ind;
    intros [ | y | y | y | y | l' | fs'] [ | z | z | z | z | l'' | fs''];
    cbn; try easy.
  - now destruct x, y, z.
  - rewrite !Z.compare_lt_iff. lia.
  - apply string_compare_lt_trans.
  - rewrite !Z.compare_lt_iff. lia.
  - apply lex_compare_trans; [|exact IH]. intros x y. apply compare_values_eq.
  - apply lex_compare_trans.
    + intros [k v] [k' v']. unfold field_compare. cbn.
      destruct (String.compare k k') eqn:E; try discriminate.
      apply String.compare_eq_iff in E as ->. intros E. f_equal.
      now apply compare_values_eq.
    + eapply Forall_impl; [exact IH|].
      intros [k v] Hv [k' v'] [k'' v'']. unfold field_compare. cbn in *.
      destruct (String.compare k k') eqn:E1; try discriminate.
      * apply String.compare_eq_iff in E1 as ->.
        destruct (String.compare k' k''); try easy. apply Hv.
      * destruct (String.compare k' k'') eqn:E2; try discriminate.
        -- apply String.compare_eq_iff in E2 as <-. now rewrite E1.
        -- now rewrite (string_compare_lt_trans _ _ _ E1 E2).
Qed.

Lemma value_compare_refl a : value_compare a a = Eq.
Proof. apply compare_values_refl. Qed.

Lemma value_compare_antisym a b : value_compare b a = CompOpp (value_compare a b).
Proof. apply compare_values_antisym. Qed.

Lemma value_compare_eq a b : value_compare a b = Eq -> canonical a = canonical b.
Proof. apply compare_values_eq. Qed.

Lemma value_compare_trans a b c :
  value_compare a b = Lt -> value_compare b c = Lt -> value_compare a c = Lt.
Proof. apply compare_values_trans. Qed.

(** The three ways two keys can be in order. *)
Lemma key_ltb_cases (lt : string -> string -> bool) (a b : Value * string) :
  value_ltb a.1 b.1 || (value_eqb a.1 b.1 && lt a.2 b.2) = true <->
  value_compare a.1 b.1 = Lt
  \/ (value_compare a.1 b.1 = Eq /\ lt a.2 b.2 = true).
Proof.
  unfold value_ltb, value_eqb. destruct (value_compare a.1 b.1); cbn; split;
    try tauto; try (intros [H|[H _]]; discriminate); intros H; try discriminate; auto.
  now destruct H as [H|[_ H]].
Qed.

Section KeyOrder.
Context (lt lt' lt'' : string -> string -> bool).
Hypothesis Hlt : forall x y z, lt x y = true -> lt' y z = true -> lt'' x z = true.

Lemma key_order_trans (a b c : Value * string) :
  value_ltb a.1 b.1 || (value_eqb a.1 b.1 && lt a.2 b.2) = true ->
  value_ltb b.1 c.1 || (value_eqb b.1 c.1 && lt' b.2 c.2) = true ->
  value_ltb a.1 c.1 || (value_eqb a.1 c.1 && lt'' a.2 c.2) = true.
Proof.
  rewrite !key_ltb_cases. unfold value_compare.
  intros [H1|[H1 L1]] [H2|[H2 L2]].
  - left. now apply compare_values_trans with (canonical b.1).
  - left. apply compare_values_eq in H2. now rewrite <- H2.
  - left. apply compare_values_eq in H1. now rewrite H1.
  - right. apply compare_values_eq in H1. rewrite H1. split; [exact H2|].
    now apply Hlt with b.2.
Qed.

End KeyOrder.

Lemma key_ltb_trans a b c : key_ltb a b = true -> key_ltb b c = true -> key_ltb a c = true.
Proof. apply key_order_trans, string_ltb_trans. Qed.

Lemma key_ltb_irrefl a : key_ltb a a = false.
Proof.
  unfold key_ltb, value_ltb, value_eqb. rewrite value_compare_refl, string_ltb_irrefl.
  reflexivity.
Qed.

Lemma rows_elem m t id d :
  (t, id, d) ∈ rows m <-> m !! id = Some d /\ created_time d = Some t.
Proof.
  unfold rows. rewrite list_elem_of_omap. split.
  - intros ([id' d'] & Hin & Hrow). apply elem_of_map_to_list in Hin.
    destruct (created_time d') eqn:E; cbn in Hrow; [|discriminate].
    now injection Hrow as <- <- <-.
  - intros [Hd Ht]. exists (id, d). split; [now apply elem_of_map_to_list|].
    now rewrite Ht.
Qed.

Lemma sort_keys_elem m t id :
  (t, id) ∈ sort_keys m <-> exists d, m !! id = Some d /\ created_time d = Some t.
Proof.
  unfold sort_keys. rewrite list_elem_of_fmap. split.
  - intros ([[t' id'] d] & Heq & Hin). cbn in Heq. injection Heq as -> ->.
    exists d. now apply rows_elem.
  - intros (d & Hd & Ht). exists (t, id, d). split; [reflexivity|]. now apply rows_elem.
Qed.

Lemma sort_keys_ids_sublist (l : list (string * Doc)) :
  ((fun r : Value * string * Doc => r.1.2) <$>
     omap (fun '(id, d) => (fun t => (t, id, d)) <$> created_time d) l)
  `sublist_of` l.*1.
Proof.
  induction l as [|[id d] l IH]; [constructor|].
  cbn. destruct (created_time d); cbn.
  - now constructor.
  - now apply sublist_cons.
Qed.

Lemma sort_keys_NoDup m : NoDup (sort_keys m).
Proof.
  unfold sort_keys. apply (NoDup_fmap_1 snd).
  rewrite <- list_fmap_compose.
  apply (sublist_NoDup _ ((map_to_list m).*1)); [apply NoDup_fst_map_to_list|].
  apply sort_keys_ids_sublist.
Qed.

Lemma same_keys_perm m m' : same_keys m m' -> sort_keys m' ≡ₚ sort_keys m.
Proof.
  intros H. apply NoDup_Permutation; try apply sort_keys_NoDup.
  intros [t id]. rewrite !sort_keys_elem. specialize (H id).
  split; intros (d & Hd & Ht).
  - rewrite Hd in H. cbn in H. destruct (m !! id) as [d0|]; [|discriminate].
    exists d0. split; [reflexivity|]. cbn in H. congruence.
  - rewrite Hd in H. cbn in H. destruct (m' !! id) as [d0|]; [|discriminate].
    exists d0. split; [reflexivity|]. cbn in H. congruence.
Qed.

Lemma filter_length_lt {A} (p p' : A -> bool) a l :
  (forall x, p' x = true -> p x = true) ->
  In a l -> p a = true -> p' a = false ->
  (length (List.filter p' l) < length (List.filter p l))%nat.
Proof.
  intros Himp. induction l as [|x l IH]; [easy|].
  assert (Hle : forall l0, (length (List.filter p' l0) <= length (List.filter p l0))%nat).
  { induction l0 as [|y l0 IH0]; [reflexivity|]. cbn.
    destruct (p' y) eqn:E'; [rewrite (Himp y E'); cbn; lia|].
    destruct (p y); cbn; lia. }
  intros [->|Hin] Hp Hp'; cbn.
  - rewrite Hp, Hp'. cbn. specialize (Hle l). lia.
  - specialize (IH Hin Hp Hp').
    destruct (p' x) eqn:E'; [rewrite (Himp x E'); cbn; lia|].
    destruct (p x); cbn; lia.
Qed.

Lemma filter_length_perm {A} (p : A -> bool) l l' :
  l ≡ₚ l' -> length (List.filter p l) = length (List.filter p l').
Proof.
  induction 1 as [|x l l' _ IH|x y l|l l' l'' _ IH1 _ IH2]; cbn.
  - reflexivity.
  - destruct (p x); cbn; congruence.
  - destruct (p x), (p y); reflexivity.
  - congruence.
Qed.

Lemma left_after_perm c m m' : same_keys m m' -> left_after c m' = left_after c m.
Proof.
  intros H. unfold left_after. now apply filter_length_perm, same_keys_perm.
Qed.

(** Moving the cursor to a key that lies after it leaves strictly fewer keys. *)
Lemma left_after_lt c k m :
  k ∈ sort_keys m -> after c k = true ->
  (left_after (Some k) m < left_after c m)%nat.
Proof.
  intros Hin Hk. unfold left_after.
  apply filter_length_lt with k.
  - intros x Hx. cbn in Hx. destruct c as [c|]; [|reflexivity]. cbn in *.
    now apply key_ltb_trans with k.
  - now apply list_elem_of_In.
  - exact Hk.
  - cbn. apply key_ltb_irrefl.
Qed.

(** ** Updates by field path *)

Lemma split_dots_nonempty s : split_dots s <> [].
Proof.
  induction s as [|c s IH]; cbn; [discriminate|].
  destruct (Ascii.eqb c "."); [discriminate|]. now destruct (split_dots s).
Qed.

(** A key without a dot is its own path. *)
Lemma split_dots_single k seg : split_dots k = [seg] -> k = seg.
Proof.
  revert seg. induction k as [|c k IH]; intros seg; cbn.
  - now intros [= <-].
  - destruct (Ascii.eqb c ".").
    + intros [= _ H]. now apply split_dots_nonempty in H.
    + destruct (split_dots k) as [|seg' segs] eqn:E;
        [now apply split_dots_nonempty in E|].
      intros [= <- ->]. f_equal. now apply IH.
Qed.

Lemma split_dots_top k : exists rest, split_dots k = top_field k :: rest.
Proof.
  unfold top_field. pose proof (split_dots_nonempty k) as H.
  destruct (split_dots k) as [|seg rest]; [contradiction|]. now exists rest.
Qed.

Lemma set_path_other segs v d f : hd "" segs <> f -> set_path segs v d !! f = d !! f.
Proof.
  destruct segs as [|k [|k' rest]]; cbn; intros H; [reflexivity| |];
    now rewrite lookup_insert_ne.
Qed.

(** Writing every key of the list [l], the way [apply_update] does: a field
    no key leads to stays as it is. *)
Lemma write_all_other (l : list (string * Value)) d f :
  Forall (fun kv => top_field kv.1 <> f) l ->
  foldr (fun kv : string * Value => set_path (split_dots kv.1) kv.2) d l !! f = d !! f.
Proof.
  induction 1 as [|kv l Hkv _ IH]; cbn; [reflexivity|].
  now rewrite set_path_other.
Qed.

(** A field written by its own key alone gets the value of the key. *)
Lemma write_all_top (l : list (string * Value)) d f v :
  split_dots f = [f] ->
  Forall (fun kv => top_field kv.1 = f -> kv = (f, v)) l ->
  In (f, v) l ->
  foldr (fun kv : string * Value => set_path (split_dots kv.1) kv.2) d l !! f = Some v.
Proof.
  intros Hf. induction 1 as [|kv l Hkv _ IH]; cbn; [easy|].
  destruct (decide (top_field kv.1 = f)) as [Htop|Htop].
  - intros _. rewrite (Hkv Htop). cbn. rewrite Hf. cbn. apply lookup_insert_eq.
  - intros [->|Hin].
    + exfalso. apply Htop. unfold top_field. cbn. now rewrite Hf.
    + rewrite set_path_other by exact Htop. now apply IH.
Qed.

(** A field reached by dotted keys only holds a map afterwards. *)
Lemma write_all_inside (l : list (string * Value)) d f :
  Forall (fun kv => top_field kv.1 = f -> kv.1 <> f) l ->
  Exists (fun kv => top_field kv.1 = f) l ->
  exists fs,
    foldr (fun kv : string * Value => set_path (split_dots kv.1) kv.2) d l !! f
    = Some (VObj fs).
Proof.
  induction 1 as [|kv l Hkv _ IH]; cbn; intros Hex; [inversion Hex|].
  destruct (decide (top_field kv.1 = f)) as [Htop|Htop].
  - destruct (split_dots_top kv.1) as [rest Hs]. rewrite Hs, Htop.
    destruct rest as [|k' rest].
    + exfalso. apply (Hkv Htop). rewrite Htop in Hs. now apply split_dots_single.
    + cbn. eexists. apply lookup_insert_eq.
  - rewrite set_path_other by exact Htop. apply IH.
    inversion Hex; subst; [contradiction|assumption].
Qed.

Lemma touches_true f data :
  touches f data = true <-> exists k v, data !! k = Some v /\ top_field k = f.
Proof.
  unfold touches. rewrite List.existsb_exists. split.
  - intros ([k v] & Hin & Hk). exists k, v. split.
    + now apply elem_of_map_to_list, list_elem_of_In.
    + now apply String.eqb_eq.
  - intros (k & v & Hd & Hk). exists (k, v). split.
    + now apply list_elem_of_In, elem_of_map_to_list.
    + now apply String.eqb_eq.
Qed.

Lemma touches_false f data :
  touches f data = false <-> forall k v, data !! k = Some v -> top_field k <> f.
Proof.
  split.
  - intros H k v Hd Hk.
    assert (Ht : touches f data = true) by (apply touches_true; eauto).
    congruence.
  - intros H. destruct (touches f data) eqn:E; [|reflexivity].
    apply touches_true in E as (k & v & Hd & Hk). now destruct (H k v Hd).
Qed.

(** A key that leads elsewhere does not change which fields are touched. *)
Lemma touches_insert f k v data :
  top_field k <> f -> touches f (<[k := v]> data) = touches f data.
Proof.
  intros Hk. apply eq_true_iff_eq. rewrite !touches_true. split.
  - intros (k' & v' & Hd & Hk'). destruct (decide (k = k')) as [<-|Hne]; [contradiction|].
    rewrite lookup_insert_ne in Hd by exact Hne. eauto.
  - intros (k' & v' & Hd & Hk'). exists k', v'. split; [|exact Hk'].
    rewrite lookup_insert_ne; [exact Hd|]. now intros ->.
Qed.

Lemma apply_update_other data d f :
  touches f data = false -> apply_update data d !! f = d !! f.
Proof.
  intros H. unfold apply_update. apply write_all_other, List.Forall_forall.
  intros [k v] Hin. apply list_elem_of_In, elem_of_map_to_list in Hin.
  cbn. now apply (proj1 (touches_false f data) H k v).
Qed.

Lemma conflicting_false data p q v v' :
  conflicting data = false -> data !! p = Some v -> data !! q = Some v' ->
  is_prefix (split_dots p) (split_dots q) = true -> p = q.
Proof.
  unfold conflicting. intros H Hp Hq Hpre.
  destruct (String.eqb_spec p q) as [E|E]; [exact E|]. exfalso.
  assert (Ht : existsb
                 (fun p : string * Value =>
                    existsb
                      (fun q : string * Value =>
                         negb (p.1 =? q.1)%string
                         && is_prefix (split_dots p.1) (split_dots q.1))
                      (map_to_list data))
                 (map_to_list data) = true).
  { apply List.existsb_exists. exists (p, v). split.
    - now apply list_elem_of_In, elem_of_map_to_list.
    - apply List.existsb_exists. exists (q, v'). split.
      + now apply list_elem_of_In, elem_of_map_to_list.
      + cbn. rewrite Hpre. now destruct (String.eqb_spec p q). }
  congruence.
Qed.

(** In an update the client accepts, a field named by a key without dots
    gets the value of that key. *)
Lemma apply_update_top data d f v :
  split_dots f = [f] -> conflicting data = false -> data !! f = Some v ->
  apply_update data d !! f = Some v.
Proof.
  intros Hf Hc Hd. unfold apply_update. apply write_all_top; [exact Hf| |].
  - apply List.Forall_forall. intros [k v'] Hin Htop. cbn in Htop.
    apply list_elem_of_In, elem_of_map_to_list in Hin.
    assert (f = k) as <-.
    { apply (conflicting_false data f k v v' Hc Hd Hin).
      destruct (split_dots_top k) as [rest ->]. rewrite Hf, Htop. cbn.
      now rewrite String.eqb_refl. }
    congruence.
  - now apply list_elem_of_In, elem_of_map_to_list.
Qed.

(** A field that only dotted keys lead to holds a map after the update. *)
Lemma apply_update_inside data d f :
  data !! f = None -> touches f data = true ->
  exists fs, apply_update data d !! f = Some (VObj fs).
Proof.
  intros Hd Ht. unfold apply_update. apply write_all_inside.
  - apply List.Forall_forall. intros [k v] Hin _. cbn. intros ->.
    apply list_elem_of_In, elem_of_map_to_list in Hin. congruence.
  - apply touches_true in Ht as (k & v & Hk & Htop).
    apply List.Exists_exists. exists (k, v). split; [|exact Htop].
    now apply list_elem_of_In, elem_of_map_to_list.
Qed.

Lemma update_error_conflicting data : update_error data = None -> conflicting data = false.
Proof.
  unfold update_error.
  destruct (forallb _ _); [|discriminate]. now destruct (conflicting data).
Qed.

Lemma same_keys_refl m : same_keys m m.
Proof. now intros id. Qed.

Lemma same_keys_trans m1 m2 m3 : same_keys m1 m2 -> same_keys m2 m3 -> same_keys m1 m3.
Proof. intros H1 H2 id. now rewrite H2, H1. Qed.

Section KeepsKeys.
Context (env : Env).

Lemma keeps_ret {A} (a : A) : keeps_keys env (ret a).
Proof. intros w. apply same_keys_refl. Qed.

Lemma keeps_sleep ms : keeps_keys env (sleep ms).
Proof. intros w. apply same_keys_refl. Qed.

Lemma keeps_bind {A B} (m : M A) (k : A -> M B) (Q : A -> Prop) :
  keeps_keys env m ->
  (forall w a w', m env w = (Ok a, w') -> Q a) ->
  (forall a, Q a -> keeps_keys env (k a)) ->
  keeps_keys env (bind m k).
Proof.
  intros Hm HQ Hk w. unfold bind. specialize (Hm w).
  destruct (m env w) as [[a|e] w1] eqn:E; cbn in Hm; [|exact Hm].
  eapply same_keys_trans; [exact Hm|]. apply Hk. now apply (HQ w a w1).
Qed.

Lemma keeps_try_catch {A} (m : M A) (h : string -> M A) :
  keeps_keys env m -> (forall e, keeps_keys env (h e)) -> keeps_keys env (try_catch m h).
Proof.
  intros Hm Hh w. unfold try_catch. specialize (Hm w).
  destruct (m env w) as [[a|e] w1]; cbn in Hm; [exact Hm|].
  eapply same_keys_trans; [exact Hm | apply Hh].
Qed.

Lemma keeps_update_doc op id patch :
  (forall d, created_time (patch d) = created_time d) ->
  keeps_keys env (update_doc op id patch).
Proof.
  intros Hp w. unfold update_doc.
  destruct (id =? "")%string; [apply same_keys_refl|].
  unfold store_call. destruct (store_fault env (steps w)); [apply same_keys_refl|].
  destruct (meals w !! id) as [d|] eqn:E; [|apply same_keys_refl].
  intros id'. cbn. destruct (decide (id = id')) as [<-|Hne].
  - rewrite lookup_insert_eq, E. cbn. now rewrite Hp.
  - now rewrite lookup_insert_ne.
Qed.

Lemma keeps_update_fields op id data :
  touches "created_time" data = false ->
  keeps_keys env (update_fields op id data).
Proof.
  intros H. unfold update_fields.
  destruct (id =? "")%string; [intros w; apply same_keys_refl|].
  destruct (update_error data); [intros w; apply same_keys_refl|].
  apply keeps_update_doc. intros d. unfold created_time. now apply apply_update_other.
Qed.

Lemma enrich_created_time updateData t d :
  touches "created_time" updateData = false ->
  created_time (MealUpdate.enrich updateData t d) = created_time d.
Proof.
  intros H. unfold created_time, MealUpdate.enrich, MealUpdate.update_data.
  apply apply_update_other. now rewrite touches_insert.
Qed.

Hypothesis Henv : answers_keep_sort_key env.

Lemma keeps_attempt mealId meal : keeps_keys env (MealUpdate.attempt mealId meal).
Proof.
  unfold MealUpdate.attempt.
  destruct (MealUpdate.already_updated meal); [apply keeps_ret|].
  apply keeps_bind
    with (Q := fun updateData => touches "created_time" updateData = false).
  - intros w. unfold MealUpdate.generateEnhancedMealDescription.
    destruct (openai env (steps w) meal); [apply same_keys_refl|].
    match goal with |- context [if ?c then _ else _] => destruct c end;
      apply same_keys_refl.
  - intros w a w'. unfold MealUpdate.generateEnhancedMealDescription.
    destruct (openai env (steps w) meal) as [msg|updateData] eqn:E; [discriminate|].
    match goal with |- context [if ?c then _ else _] => destruct c end;
      [discriminate|]. intros [= <- _]. now apply Henv in E.
  - intros updateData Hu.
    apply keeps_bind with (Q := fun _ => True); [intros w; apply same_keys_refl|auto|].
    intros t _.
    apply keeps_bind with (Q := fun _ => True); [|auto|intros; apply keeps_ret].
    apply keeps_update_fields. unfold MealUpdate.update_data.
    now rewrite touches_insert.
Qed.

Lemma keeps_attempts remaining n mealId meal :
  keeps_keys env (MealUpdate.attempts remaining n mealId meal).
Proof.
  revert n. induction remaining as [|r IH]; intros n; [apply keeps_ret|].
  cbn [MealUpdate.attempts]. apply keeps_try_catch; [apply keeps_attempt|].
  intros _. destruct (n =? MealUpdate.maxRetries); [apply keeps_ret|].
  apply keeps_bind with (Q := fun _ => True); [apply keeps_sleep|auto|].
  intros _ _. apply IH.
Qed.

Lemma keeps_process_docs docs p u last :
  keeps_keys env (MealUpdate.process_docs docs p u last).
Proof.
  revert p u last. induction docs as [|[id meal] rest IH]; intros p u last.
  - apply keeps_ret.
  - cbn [MealUpdate.process_docs].
    apply keeps_bind with (Q := fun _ => True); [|auto|intros; apply IH].
    apply keeps_try_catch; [|intros; apply keeps_ret].
    apply keeps_bind with (Q := fun _ => True); [apply keeps_attempts|auto|].
    intros; apply keeps_ret.
Qed.

End KeepsKeys.

Lemma start_cursor_value startAfter env w c w1 :
  MealUpdate.start_cursor startAfter env w = (Ok c, w1) ->
  c = cursor_at startAfter (meals w) /\ meals w1 = meals w.
Proof.
  unfold MealUpdate.start_cursor, cursor_at.
  destruct startAfter as [sid|]; [|now intros [= <- <-]].
  destruct (truthy_str (Some sid)); [|now intros [= <- <-]].
  unfold bind, store_call.
  destruct (store_fault env (steps w)); [discriminate|].
  destruct (meals w !! sid) as [d|]; [|now intros [= <- <-]].
  destruct (created_time d); [|discriminate]. now intros [= <- <-].
Qed.

Lemma page_row cursor n m id d :
  In (id, d) (query_by_created_time cursor n m) ->
  exists t, created_time d = Some t /\ m !! id = Some d /\ after cursor (t, id) = true.
Proof.
  unfold query_by_created_time, by_created_time. intros H.
  apply List.in_map_iff in H as ([[t id'] d'] & Heq & H).
  cbn in Heq. injection Heq as -> ->.
  apply In_take, List.filter_In in H as [H Hafter].
  apply list_elem_of_In in H. rewrite merge_sort_Permutation in H.
  apply rows_elem in H as [Hd Ht].
  exists t. repeat split; auto.
Qed.

Lemma last_In {A} (a : A) l d : In (List.last (a :: l) d) (a :: l).
Proof.
  revert a. induction l as [|x l IH]; intros a; [now left|].
  right. change (List.last (a :: x :: l) d) with (List.last (x :: l) d). apply IH.
Qed.

Lemma ids_nonempty_lookup m id d :
  ids_nonempty m = true -> m !! id = Some d -> id <> "".
Proof.
  unfold ids_nonempty. rewrite List.forallb_forall. intros H Hd.
  specialize (H (id, d)). cbn in H.
  destruct (String.eqb_spec id ""); [|assumption].
  assert (Hin : In (id, d) (map_to_list m))
    by now apply list_elem_of_In, elem_of_map_to_list.
  apply H in Hin. discriminate.
Qed.

(** A batch that reports [hasMore] has moved the cursor strictly forward,
    leaving every sort key as it was. *)
Lemma batch_advances startAfter env w result w1 :
  answers_keep_sort_key env ->
  ids_nonempty (meals w) = true ->
  MealUpdate.updateMealsInBatches startAfter env w = (Ok result, w1) ->
  MealUpdate.hasMore result = true ->
  same_keys (meals w) (meals w1)
  /\ (left_from (MealUpdate.lastProcessedId result) w1 < left_from startAfter w)%nat.
Proof.
  intros Henv Hids E Hmore.
  unfold MealUpdate.updateMealsInBatches in E. unfold bind at 1 in E.
  destruct (MealUpdate.start_cursor startAfter env w) as [[c|e] w0] eqn:Ec;
    [|discriminate].
  apply start_cursor_value in Ec as [-> Hm0].
  unfold bind at 1, store_call in E.
  destruct (store_fault env (steps w0)); [discriminate|].
  rewrite Hm0 in E.
  set (docs := query_by_created_time (cursor_at startAfter (meals w))
                 MealUpdate.BATCH_SIZE (meals w)) in *.
  unfold MealUpdate.process_page in E.
  pose proof (fun id d => page_row (cursor_at startAfter (meals w))
                            MealUpdate.BATCH_SIZE (meals w) id d) as Hrow.
  fold docs in Hrow.
  destruct docs as [|d0 rest]; [injection E as <- _; discriminate|].
  pose proof (keeps_process_docs env Henv (d0 :: rest) 0 0 ""
                (record (EvStore (MealsQuery startAfter) true) w0)) as Hkeep.
  destruct (meal_docs_counts (d0 :: rest) 0 0 "" env
              (record (EvStore (MealsQuery startAfter) true) w0))
    as (u' & last' & w' & E' & _ & Hlast).
  unfold bind in E. rewrite E' in E, Hkeep. unfold ret in E.
  injection E as <- <-. cbn [snd fst meals record] in Hkeep. rewrite Hm0 in Hkeep.
  split; [exact Hkeep|].
  cbn [MealUpdate.lastProcessedId snd].
  (* the last document of the page *)
  assert (Hin : In last' (map fst (d0 :: rest))).
  { rewrite Hlast. cbn [map]. apply last_In. }
  apply List.in_map_iff in Hin as ([id_l d_l] & Hid & Hin). cbn in Hid. subst id_l.
  destruct (Hrow last' d_l Hin) as (t & Ht & Hd & Hafter).
  assert (Hne : last' <> "") by (now apply (ids_nonempty_lookup _ _ d_l Hids)).
  assert (Hcur : cursor_at (Some last') (meals w') = Some (t, last')).
  { unfold cursor_at, truthy_str.
    destruct (String.eqb_spec last' ""); [contradiction|]. cbn [negb].
    specialize (Hkeep last'). rewrite Hd in Hkeep. cbn in Hkeep.
    destruct (meals w' !! last') as [d'|]; [|discriminate].
    cbn in Hkeep. injection Hkeep as Hk. now rewrite Hk, Ht. }
  unfold left_from. rewrite Hcur, (left_after_perm _ _ _ Hkeep).
  apply left_after_lt; [|exact Hafter].
  apply sort_keys_elem. now exists d_l.
Qed.

Lemma same_keys_ids m m' :
  same_keys m m' -> ids_nonempty m = true -> ids_nonempty m' = true.
Proof.
  intros H Hids. unfold ids_nonempty. apply List.forallb_forall.
  intros [id d] Hin. apply list_elem_of_In, elem_of_map_to_list in Hin.
  specialize (H id). rewrite Hin in H. cbn in H.
  destruct (m !! id) as [d0|] eqn:E; [|discriminate].
  cbn. destruct (String.eqb_spec id ""); [|reflexivity].
  now destruct (ids_nonempty_lookup m id d0 Hids E).
Qed.

(** The drain leaves its loop within as many batches as there are keys after
    its cursor, plus one. *)
Lemma drain_terminates env :
  answers_keep_sort_key env ->
  forall fuel tp tu startAfter w,
    ids_nonempty (meals w) = true ->
    (left_from startAfter w < fuel)%nat ->
    is_Some (MealUpdate.drain fuel tp tu startAfter env w).
Proof.
  intros Henv. induction fuel as [|fuel IH]; intros tp tu startAfter w Hids Hlt; [lia|].
  cbn [MealUpdate.drain].
  destruct (MealUpdate.updateMealsInBatches startAfter env w) as [[result|e] w1] eqn:E;
    [|eauto].
  destruct (MealUpdate.hasMore result) eqn:Hmore; cbn [negb]; [|eauto].
  destruct (batch_advances startAfter env w result w1 Henv Hids E Hmore) as [Hkeep Hadv].
  apply IH.
  - cbn. now apply (same_keys_ids (meals w)).
  - unfold left_from in *. cbn [meals snd sleep]. lia.
Qed.

(** * The drain *)

Lemma isUpdateProcessRunning_meals env w b w1 :
  Lock.isUpdateProcessRunning env w = (Ok b, w1) -> meals w1 = meals w.
Proof.
  unfold Lock.isUpdateProcessRunning, try_catch, bind, store_call, clock, ret.
  destruct (store_fault env (steps w)); [now intros [= _ <-]|].
  destruct (lock w) as [l|]; [|now intros [= _ <-]].
  match goal with |- context [if ?c then _ else _] => destruct c end;
    [|now intros [= _ <-]].
  destruct (releaseLock_returns env (record (EvStore LockGet true) w)) as [ok Hr].
  rewrite Hr. intros [= _ <-]. now destruct ok.
Qed.

Lemma acquireLock_meals env w b w1 :
  Lock.acquireLock env w = (Ok b, w1) -> meals w1 = meals w.
Proof.
  unfold Lock.acquireLock, try_catch, bind, store_call, clock, ret.
  destruct (store_fault env (steps w)); now intros [= _ <-].
Qed.

Lemma filter_length_le {A} (p : A -> bool) l :
  (length (List.filter p l) <= length l)%nat.
Proof.
  induction l as [|x l IH]; [reflexivity|]. cbn. destruct (p x); cbn; lia.
Qed.

Lemma omap_length_le {A B} (f : A -> option B) l :
  (length (omap f l) <= length l)%nat.
Proof.
  induction l as [|x l IH]; [reflexivity|]. cbn. destruct (f x); cbn; lia.
Qed.

Lemma left_from_start_le_size w : (left_from None w <= size (meals w))%nat.
Proof.
  unfold left_from, left_after, sort_keys, rows. cbn [cursor_at].
  rewrite <- length_map_to_list.
  etransitivity; [apply filter_length_le|].
  rewrite length_fmap. apply omap_length_le.
Qed.

(** * Rules for [leaves] *)

Section Leaves.
Context {X : Type} (f : World -> X) (Hf : persistent f).

Lemma persistent_record e w : f (record e w) = f w.
Proof. unfold record. apply Hf. Qed.

Lemma leaves_ret {A} (a : A) : leaves f (ret a).
Proof. now intros env w. Qed.

Lemma leaves_throw {A} e : leaves f (@throw A e).
Proof. now intros env w. Qed.

Lemma leaves_clock : leaves f clock.
Proof. now intros env w. Qed.

Lemma leaves_sleep ms : leaves f (sleep ms).
Proof. intros env w. unfold sleep. cbn [snd]. apply Hf. Qed.

Lemma leaves_bind {A B} (m : M A) (k : A -> M B) :
  leaves f m -> (forall a, leaves f (k a)) -> leaves f (bind m k).
Proof.
  intros Hm Hk env w. unfold bind. specialize (Hm env w).
  destruct (m env w) as [[a|e] w1]; cbn [snd] in *; [|exact Hm].
  now rewrite Hk.
Qed.

Lemma leaves_try_catch {A} (m : M A) (h : string -> M A) :
  leaves f m -> (forall e, leaves f (h e)) -> leaves f (try_catch m h).
Proof.
  intros Hm Hh env w. unfold try_catch. specialize (Hm env w).
  destruct (m env w) as [[a|e] w1]; cbn [snd] in *; [exact Hm|].
  now rewrite Hh.
Qed.

Lemma leaves_store_call {A} op (effect : World -> string + (A * World)) :
  (forall w a w', effect w = inr (a, w') -> f w' = f w) ->
  leaves f (store_call op effect).
Proof.
  intros Heff env w. unfold store_call.
  destruct (store_fault env (steps w)); [apply persistent_record|].
  destruct (effect w) as [msg|[a w']] eqn:E; cbn [snd]; rewrite persistent_record;
    [reflexivity|]. now apply (Heff w a).
Qed.

End Leaves.

Section LeavesMeals.
Context {X : Type} (f : World -> X) (Hf : persistent f) (Hm : ignores_meals f).

Lemma leaves_read {A} op (g : World -> A) :
  leaves f (store_call op (fun w => inr (g w, w))).
Proof. apply leaves_store_call; [exact Hf|]. now intros w a w' [= _ <-]. Qed.

Lemma leaves_update_doc op id patch : leaves f (update_doc op id patch).
Proof.
  unfold update_doc. destruct (id =? "")%string; [apply leaves_throw|].
  apply leaves_store_call; [exact Hf|]. intros w a w'.
  destruct (meals w !! id); [|discriminate]. intros [= _ <-]. apply Hm.
Qed.

Lemma leaves_update_fields op id data : leaves f (update_fields op id data).
Proof.
  unfold update_fields. destruct (id =? "")%string; [apply leaves_throw|].
  destruct (update_error data); [apply leaves_throw|apply leaves_update_doc].
Qed.

Lemma leaves_generateEnhancedMealDescription meal :
  leaves f (MealUpdate.generateEnhancedMealDescription meal).
Proof.
  intros env w. unfold MealUpdate.generateEnhancedMealDescription.
  destruct (openai env (steps w) meal); [apply persistent_record, Hf|].
  match goal with |- context [if ?c then _ else _] => destruct c end;
    apply persistent_record, Hf.
Qed.

Lemma leaves_attempts remaining n mealId meal :
  leaves f (MealUpdate.attempts remaining n mealId meal).
Proof.
  revert n. induction remaining as [|r IH]; intros n; [apply leaves_ret|].
  cbn [MealUpdate.attempts]. apply leaves_try_catch.
  - unfold MealUpdate.attempt.
    destruct (MealUpdate.already_updated meal); [apply leaves_ret|].
    apply leaves_bind; [apply leaves_generateEnhancedMealDescription|]. intros u.
    apply leaves_bind; [apply leaves_clock|]. intros t.
    apply leaves_bind; [apply leaves_update_fields|]. intros; apply leaves_ret.
  - intros _. destruct (n =? MealUpdate.maxRetries); [apply leaves_ret|].
    apply leaves_bind; [now apply leaves_sleep|]. intros _. apply IH.
Qed.

Lemma leaves_updateSingleMeal mealId meal :
  leaves f (MealUpdate.updateSingleMeal mealId meal).
Proof. apply leaves_attempts. Qed.

Lemma leaves_meal_docs docs p u last : leaves f (MealUpdate.process_docs docs p u last).
Proof.
  revert p u last. induction docs as [|[id meal] rest IH]; intros p u last.
  - apply leaves_ret.
  - cbn [MealUpdate.process_docs]. apply leaves_bind; [|intros; apply IH].
    apply leaves_try_catch; [|intros; apply leaves_ret].
    apply leaves_bind; [apply leaves_updateSingleMeal|]. intros; apply leaves_ret.
Qed.

Lemma leaves_updateMealsInBatches startAfter :
  leaves f (MealUpdate.updateMealsInBatches startAfter).
Proof.
  unfold MealUpdate.updateMealsInBatches. apply leaves_bind.
  - unfold MealUpdate.start_cursor. destruct startAfter as [sid|]; [|apply leaves_ret].
    destruct (truthy_str (Some sid)); [|apply leaves_ret].
    apply leaves_bind; [apply leaves_read|]. intros [d|]; [|apply leaves_ret].
    destruct (created_time d); [apply leaves_ret | apply leaves_throw].
  - intros cursor. apply leaves_bind; [apply leaves_read|]. intros docs.
    unfold MealUpdate.process_page. destruct docs; [apply leaves_ret|].
    apply leaves_bind; [apply leaves_meal_docs|]. intros; apply leaves_ret.
Qed.

Lemma leaves_updateSingleBatchOnly :
  (forall p w, f (set_progress p w) = f w) ->
  leaves f MealUpdate.updateSingleBatchOnly.
Proof.
  intros Hp. unfold MealUpdate.updateSingleBatchOnly.
  apply leaves_try_catch; [|intros; apply leaves_throw].
  apply leaves_bind; [apply leaves_read|]. intros progressDoc.
  apply leaves_bind; [apply leaves_updateMealsInBatches|]. intros result.
  apply leaves_bind; [|intros; apply leaves_ret].
  destruct (MealUpdate.hasMore result && truthy_str (MealUpdate.lastProcessedId result)).
  - apply leaves_bind; [apply leaves_clock|]. intros t.
    apply leaves_store_call; [exact Hf|]. intros w a w' [= _ <-]. apply Hp.
  - apply leaves_store_call; [exact Hf|]. intros w a w' [= _ <-]. apply Hp.
Qed.

Lemma leaves_updateLimitedMeals limit : leaves f (MealAdmin.updateLimitedMeals limit).
Proof.
  unfold MealAdmin.updateLimitedMeals.
  apply leaves_try_catch; [|intros; apply leaves_throw].
  apply leaves_bind; [apply leaves_read|]. intros mealsSnap.
  destruct mealsSnap as [|d0 rest]; [apply leaves_ret|].
  apply leaves_bind; [|intros; apply leaves_ret].
  generalize (d0 :: rest) 0. intros docs. induction docs as [|[id meal] docs IH]; intros u.
  - apply leaves_ret.
  - cbn [MealAdmin.limited_docs]. apply leaves_bind; [|intros; apply IH].
    apply leaves_try_catch; [|intros; apply leaves_ret].
    apply leaves_bind; [apply leaves_updateSingleMeal|]. intros; apply leaves_ret.
Qed.

(** Image job *)

Lemma leaves_generateRecraftFoodImage meal :
  leaves f (Recraft.generateRecraftFoodImage meal).
Proof.
  intros env w. unfold Recraft.generateRecraftFoodImage.
  destruct (recraft env (steps w) meal); apply persistent_record, Hf.
Qed.

Lemma leaves_doc_path {B} v (k : string -> M B) :
  (forall path, leaves f (k path)) -> leaves f (bind (Recraft.doc_path v) k).
Proof.
  intros Hk. apply leaves_bind; [|exact Hk].
  unfold Recraft.doc_path. destruct v as [[| | |s| | |]|];
    first [apply leaves_ret | apply leaves_throw].
Qed.

Lemma leaves_markMealImageFailed v error :
  leaves f (Recraft.markMealImageFailed v error).
Proof.
  unfold Recraft.markMealImageFailed.
  apply leaves_try_catch; [|intros; apply leaves_ret].
  apply leaves_doc_path. intros path.
  apply leaves_bind; [apply leaves_clock|]. intros t. apply leaves_update_doc.
Qed.

Lemma leaves_image_docs docs c : leaves f (Recraft.process_docs docs c).
Proof.
  revert c. induction docs as [|doc rest IH]; intros c; [apply leaves_ret|].
  cbn [Recraft.process_docs].
  destruct (negb (truthy (Recraft.meal_id doc))); [apply IH|].
  apply leaves_bind; [|intros; apply IH].
  apply leaves_try_catch.
  - destruct (negb (truthy (Recraft.englishTitle doc.2))); [apply leaves_ret|].
    apply leaves_bind; [apply leaves_generateRecraftFoodImage|]. intros result.
    apply leaves_doc_path. intros path.
    apply leaves_bind; [apply leaves_clock|]. intros t.
    apply leaves_bind; [apply leaves_update_doc|]. intros _.
    apply leaves_bind; [now apply leaves_sleep|]. intros; apply leaves_ret.
  - intros e. apply leaves_bind; [apply leaves_markMealImageFailed|].
    intros; apply leaves_ret.
Qed.

Lemma leaves_generateImagesBatch :
  (forall s w, f (set_scan_state s w) = f w) ->
  leaves f Recraft.generateImagesBatch.
Proof.
  intros Hs.
  assert (Hset : forall patch, leaves f (Recraft.setScanState patch)).
  { intros patch. unfold Recraft.setScanState.
    apply leaves_bind; [apply leaves_clock|]. intros t.
    apply leaves_store_call; [exact Hf|]. intros w a w' [= _ <-]. apply Hs. }
  assert (Hdone : forall patch (r : Recraft.Summary),
             leaves f (bind (Recraft.setScanState patch) (fun _ => ret r))).
  { intros. apply leaves_bind; [apply Hset|]. intros; apply leaves_ret. }
  unfold Recraft.generateImagesBatch.
  apply leaves_try_catch; [|intros; apply leaves_throw].
  apply leaves_bind.
  { unfold Recraft.getScanState. apply leaves_bind; [apply leaves_read|].
    intros; apply leaves_ret. }
  intros state. apply leaves_bind; [apply leaves_read|]. intros snapshot.
  unfold Recraft.process_page.
  destruct snapshot as [|d0 rest]; [apply Hdone|].
  destruct (last (d0 :: rest)); [|apply Hdone].
  destruct (List.filter Recraft.is_candidate (d0 :: rest)); [apply Hdone|].
  apply leaves_bind; [apply leaves_image_docs|]. intros; apply Hdone.
Qed.

Lemma leaves_debugMealPhotos : leaves f RecraftTest.debugMealPhotos.
Proof.
  unfold RecraftTest.debugMealPhotos.
  apply leaves_try_catch; [|intros; apply leaves_ret].
  apply leaves_bind; [apply leaves_read|]. intros; apply leaves_ret.
Qed.

Lemma leaves_generateSingleTestImage : leaves f RecraftTest.generateSingleTestImage.
Proof.
  unfold RecraftTest.generateSingleTestImage.
  apply leaves_try_catch; [|intros; apply leaves_throw].
  apply leaves_bind; [apply leaves_read|]. intros snapshot.
  destruct snapshot as [|d0 rest]; [apply leaves_ret|].
  destruct (List.filter RecraftTest.needs_test_image (d0 :: rest)) as [|doc _];
    [apply leaves_debugMealPhotos|].
  destruct (negb (truthy (Recraft.englishTitle doc.2))); [apply leaves_ret|].
  destruct (negb (truthy (Recraft.meal_id doc))); [apply leaves_ret|].
  apply leaves_bind; [apply leaves_generateRecraftFoodImage|]. intros result.
  apply leaves_doc_path. intros path.
  apply leaves_bind; [apply leaves_clock|]. intros t. apply leaves_update_doc.
Qed.

End LeavesMeals.

(** * Release of the lock by the drain *)

(** The batches of the drain leave the lock alone. *)
Lemma drain_leaves_lock fuel tp tu startAfter env w out w' :
  MealUpdate.drain fuel tp tu startAfter env w = Some (out, w') -> lock w' = lock w.
Proof.
  revert tp tu startAfter w.
  induction fuel as [|fuel IH]; intros tp tu startAfter w; [discriminate|].
  cbn [MealUpdate.drain].
  assert (Hl : lock (snd (MealUpdate.updateMealsInBatches startAfter env w)) = lock w).
  { apply (leaves_updateMealsInBatches lock); easy. }
  destruct (MealUpdate.updateMealsInBatches startAfter env w) as [[result|e] w1];
    cbn [snd] in Hl; [|now intros [= _ <-]].
  destruct (negb (MealUpdate.hasMore result)); [now intros [= _ <-]|].
  intros E. apply IH in E. now rewrite E.
Qed.

(** C3, as stated, fails: the store accepts the check and the write of the
    lock and is unreachable from then on.  The first query of the drain
    fails, the error reaches the caller, and the delete issued by
    [releaseLock] fails too: its error is swallowed and the lock record
    stays in the store. *)
Lemma drain_lock_not_released_counterexample :
  let env := Sample.env_store_lost in
  let w := Sample.five_old_meals in
  let res := MealUpdate.updateAllExistingMeals 6 env w in
  fst (Lock.acquireLock env (snd (Lock.isUpdateProcessRunning env w))) = Ok true
  /\ fst <$> res = Some (Throw "UNAVAILABLE")
  /\ (lock ∘ snd <$> res)
     = Some (Some (mkLock (Some true) (Some 1000) (Some "update_1000")))
  /\ (hd_error ∘ trace ∘ snd <$> res) = Some (Some (EvStore LockDelete false)).
Proof. vm_compute. repeat split; reflexivity. Qed.

(** C3, amended.  When the drain has acquired the lock and leaves, whether
    its loop completed or an error came out of a batch, the lock record of
    the acquisition is still stored when the loop ends, and the last
    interaction is the delete of the lock issued by [releaseLock].  The
    release is an attempt: when the store accepts the delete the lock record
    is gone, and when the store rejects it the error is swallowed and the
    record of the acquisition stays.  Either way the
    caller gets the outcome of the loop: a normal return after a completed
    loop, the same error after a failed batch.  And the drain does leave:
    when no answer of the model writes to [created_time] and no document has
    the empty id, one more batch than there are documents is enough. *)
Theorem drain_release_attempted fuel env w w1 w2 :
  Lock.isUpdateProcessRunning env w = (Ok false, w1) ->
  Lock.acquireLock env w1 = (Ok true, w2) ->
  (forall r w',
     MealUpdate.updateAllExistingMeals fuel env w = Some (r, w') ->
     exists out w3,
       MealUpdate.drain fuel 0 0 None env w2 = Some (out, w3)
       /\ is_Some (lock w2)
       /\ lock w3 = lock w2
       /\ match store_fault env (steps w3) with
          | None => trace w' = EvStore LockDelete true :: trace w3 /\ lock w' = None
          | Some _ =>
              trace w' = EvStore LockDelete false :: trace w3 /\ lock w' = lock w2
          end
       /\ (forall totals, out = Ok totals -> r = Ok tt)
       /\ (forall e, out = Throw e -> r = Throw e))
  /\ (answers_keep_sort_key env ->
      ids_nonempty (meals w) = true ->
      (size (meals w) < fuel)%nat ->
      exists r w', MealUpdate.updateAllExistingMeals fuel env w = Some (r, w')).
Proof.
  intros Hcheck Hacq. split.
  - intros r w' Hrun.
    unfold MealUpdate.updateAllExistingMeals in Hrun. rewrite Hcheck, Hacq in Hrun.
    destruct (MealUpdate.drain fuel 0 0 None env w2) as [[out w3]|] eqn:Hd;
      [|discriminate].
    injection Hrun as Hrun.
    exists out, w3. split; [reflexivity|].
    assert (Hheld : is_Some (lock w2)).
    { revert Hacq. unfold Lock.acquireLock, try_catch, bind, store_call, clock, ret.
      destruct (store_fault env (steps w1)); [discriminate|].
      intros [= <-]. cbn. eauto. }
    split; [exact Hheld|].
    pose proof (drain_leaves_lock _ _ _ _ _ _ _ _ Hd) as Hl.
    split; [exact Hl|].
    unfold try_finally, try_catch, bind, MealUpdate.resumed, throw, ret in Hrun.
    destruct (store_fault env (steps w3)) as [msg|] eqn:Hio.
    + destruct out as [totals|e];
        rewrite (releaseLock_fault env w3 msg Hio) in Hrun;
        injection Hrun as <- <-;
        (split; [split; [reflexivity|exact Hl]|]);
        split; intros ? [= ?]; subst; reflexivity.
    + destruct out as [totals|e];
        rewrite (releaseLock_done env w3 Hio) in Hrun;
        injection Hrun as <- <-;
        (split; [split; reflexivity|]);
        split; intros ? [= ?]; subst; reflexivity.
  - intros Henv Hids Hfuel.
    assert (Hm : meals w2 = meals w).
    { rewrite (acquireLock_meals env w1 true w2 Hacq).
      exact (isUpdateProcessRunning_meals env w false w1 Hcheck). }
    unfold MealUpdate.updateAllExistingMeals. rewrite Hcheck, Hacq.
    destruct (drain_terminates env Henv fuel 0 0 None w2) as [[out w3] Hd].
    + now rewrite Hm.
    + pose proof (left_from_start_le_size w2) as Hle. rewrite Hm in Hle. lia.
    + rewrite Hd. eexists _, _. f_equal. apply surjective_pairing.
Qed.

(** A drain whose first query fails while the store accepts the calls after
    it: the drain leaves, the error reaches the caller and the lock has been
    deleted. *)
Lemma drain_release_attempted_witness :
  let env := Sample.env_query_fails in
  let w := Sample.five_old_meals in
  (exists r w', MealUpdate.updateAllExistingMeals 6 env w = Some (r, w'))
  /\ forall r w',
       MealUpdate.updateAllExistingMeals 6 env w = Some (r, w') ->
       r = Throw "UNAVAILABLE" /\ lock w' = None
       /\ hd_error (trace w') = Some (EvStore LockDelete true).
Proof.
  intros env w.
  pose proof (drain_release_attempted 6 env w
                (snd (Lock.isUpdateProcessRunning env w))
                (snd (Lock.acquireLock env (snd (Lock.isUpdateProcessRunning env w))))
                ltac:(vm_compute; reflexivity) ltac:(vm_compute; reflexivity))
    as [Hrel Hterm].
  split.
  - apply Hterm.
    + intros n meal updateData [= <-]. reflexivity.
    + vm_compute. reflexivity.
    + vm_compute. lia.
  - intros r w' Hrun.
    destruct (Hrel r w' Hrun) as (out & w3 & Hd & _ & _ & Hlast & _ & Hthrow).
    vm_compute in Hd. injection Hd as <- <-.
    split; [exact (Hthrow _ eq_refl)|].
    destruct w' as [m l p sc t n tr]. vm_compute in Hlast. destruct Hlast as [-> ->].
    split; reflexivity.
Defined.

(** A drain that completes: normal return, lock deleted. *)
Example drain_completes :
  let res := MealUpdate.updateAllExistingMeals 2 Sample.env_fine Sample.five_old_meals in
  fst <$> res = Some (Ok tt)
  /\ (lock ∘ snd <$> res) = Some None
  /\ (hd_error ∘ trace ∘ snd <$> res) = Some (Some (EvStore LockDelete true)).
Proof. vm_compute. repeat split; reflexivity. Qed.


(** X1. Each job writes only its own control document: one scheduled meal
    step leaves the lock and the image scan cursor as they were, one image
    step leaves the lock and the meal progress document as they were, and the
    limited meal update and the single test image leave all three alone,
    whatever the store and the model services answer. *)
Theorem jobs_keep_to_their_documents :
  leaves (fun w => (lock w, scan_state w)) MealUpdate.updateSingleBatchOnly
  /\ leaves (fun w => (lock w, progress w)) Recraft.generateImagesBatch
  /\ (forall limit, leaves control (MealAdmin.updateLimitedMeals limit))
  /\ leaves control RecraftTest.generateSingleTestImage.
Proof.
  split; [|split; [|split]].
  - now apply leaves_updateSingleBatchOnly.
  - now apply leaves_generateImagesBatch.
  - intros limit. now apply leaves_updateLimitedMeals.
  - now apply leaves_generateSingleTestImage.
Qed.


(** * The triggers *)

Import Lock.

Lemma try_catch_default {A} (m : M A) (a : A) env w :
  exists a' w', try_catch m (fun _ => ret a) env w = (Ok a', w').
Proof. unfold try_catch, ret. destruct (m env w) as [[x|e] w1]; eauto. Qed.

(** X2. While a lock that says [locked] is younger than thirty minutes and
    the store answers the read, a scheduled meal run does that one read and
    nothing else: no document is read or written and no model is called. *)
Theorem scheduled_update_locked_out env w l :
  store_fault env (steps w) = None ->
  lock w = Some l ->
  locked l = Some true ->
  (forall t, timestamp l = Some t -> now w - t <= STALE_AFTER_MS) ->
  Triggers.scheduledMealsUpdate env w = (Ok tt, record (EvStore LockGet true) w).
Proof.
  intros Hio Hl Hlocked Hage. unfold Triggers.scheduledMealsUpdate, try_catch.
  unfold bind at 1. rewrite (isUpdateProcessRunning_fresh env w l Hio Hl Hage).
  now rewrite Hlocked.
Qed.

Lemma scheduled_update_locked_out_witness :
  Triggers.scheduledMealsUpdate Sample.env_fine (Sample.locked_meals (Sample.minutes 30))
  = (Ok tt, record (EvStore LockGet true) (Sample.locked_meals (Sample.minutes 30))).
Proof.
  apply (scheduled_update_locked_out _ _ Sample.lock_at_0); try reflexivity.
  intros t [= <-]. vm_compute. discriminate.
Defined.

(** X3. When the read of the lock fails, a scheduled meal run goes on as if
    there were no lock: it runs the batch step, whatever the lock document
    holds. *)
Theorem scheduled_update_fails_open env w msg :
  store_fault env (steps w) = Some msg ->
  snd (Triggers.scheduledMealsUpdate env w)
  = snd (MealUpdate.updateSingleBatchOnly env (record (EvStore LockGet false) w)).
Proof.
  intros Hio. unfold Triggers.scheduledMealsUpdate, try_catch.
  unfold bind at 1. rewrite (isUpdateProcessRunning_fault env w msg Hio).
  unfold bind, ret.
  now destruct (MealUpdate.updateSingleBatchOnly env (record (EvStore LockGet false) w))
    as [[r|e] w1].
Qed.

Lemma scheduled_update_fails_open_witness :
  snd (Triggers.scheduledMealsUpdate Sample.env_first_call_fails (Sample.locked_meals 0))
  = snd (MealUpdate.updateSingleBatchOnly Sample.env_first_call_fails
           (record (EvStore LockGet false) (Sample.locked_meals 0))).
Proof.
  apply (scheduled_update_fails_open _ _ "UNAVAILABLE"). reflexivity.
Defined.

(** X4. The two scheduled handlers never fail: whatever the store and the
    services do, each returns normally. *)
Theorem scheduled_handlers_never_throw env w :
  (exists w', Triggers.scheduledMealsUpdate env w = (Ok tt, w'))
  /\ (exists w', Triggers.scheduledRecraftImageGeneration env w = (Ok tt, w')).
Proof.
  split.
  - destruct (try_catch_default
                (bind isUpdateProcessRunning
                   (fun running : bool =>
                      if running then ret tt
                      else bind MealUpdate.updateSingleBatchOnly (fun _ => ret tt)))
                tt env w) as ([] & w' & E).
    exists w'. exact E.
  - destruct (try_catch_default
                (bind Recraft.generateImagesBatch (fun _ => ret tt)) tt env w)
      as ([] & w' & E).
    exists w'. exact E.
Qed.


(** * Results of a batch *)

(** What [updateMealsInBatches] returns, in terms of the page it read. *)
Lemma batch_result startAfter env w result w1 :
  MealUpdate.updateMealsInBatches startAfter env w = (Ok result, w1) ->
  let docs := query_by_created_time (cursor_at startAfter (meals w))
                MealUpdate.BATCH_SIZE (meals w) in
  MealUpdate.processed result = Z.of_nat (length docs)
  /\ 0 <= MealUpdate.updated result <= MealUpdate.processed result
  /\ MealUpdate.hasMore result = (Z.of_nat (length docs) =? Z.of_nat MealUpdate.BATCH_SIZE)
  /\ MealUpdate.lastProcessedId result
     = match docs with [] => None | _ :: _ => Some (List.last (map fst docs) "") end.
Proof.
  intros E docs.
  unfold MealUpdate.updateMealsInBatches in E. unfold bind at 1 in E.
  destruct (MealUpdate.start_cursor startAfter env w) as [[c|e] w0] eqn:Ec;
    [|discriminate].
  apply start_cursor_value in Ec as [-> Hm0].
  unfold bind at 1, store_call in E.
  destruct (store_fault env (steps w0)); [discriminate|].
  rewrite Hm0 in E. fold docs in E.
  unfold MealUpdate.process_page in E.
  destruct docs as [|d0 rest] eqn:Hdocs.
  - injection E as <- _. cbn. repeat split; try lia; reflexivity.
  - destruct (meal_docs_counts (d0 :: rest) 0 0 "" env
                (record (EvStore (MealsQuery startAfter) true) w0))
      as (u' & last' & w' & E' & Hu & Hlast).
    unfold bind in E. rewrite E' in E. unfold ret in E.
    injection E as <- _. cbn [MealUpdate.processed MealUpdate.updated
      MealUpdate.hasMore MealUpdate.lastProcessedId fst snd].
    rewrite Hlast, !Z.add_0_l. cbn [length] in Hu |- *. repeat split; try lia; reflexivity.
Qed.

(** X5. What a batch reports agrees with the page it read: every document of
    the page is counted as processed, at most five of them; the updated
    count lies between zero and the processed count; [hasMore] holds exactly
    when the page was full; and the last processed id, when there is one,
    is the id of a stored document. *)
Theorem batch_report_consistent startAfter env w result w1 :
  MealUpdate.updateMealsInBatches startAfter env w = (Ok result, w1) ->
  0 <= MealUpdate.updated result <= MealUpdate.processed result
  /\ MealUpdate.processed result <= Z.of_nat MealUpdate.BATCH_SIZE
  /\ (MealUpdate.hasMore result = true
      <-> MealUpdate.processed result = Z.of_nat MealUpdate.BATCH_SIZE)
  /\ (MealUpdate.processed result = 0 <-> MealUpdate.lastProcessedId result = None)
  /\ (forall id, MealUpdate.lastProcessedId result = Some id -> is_Some (meals w !! id)).
Proof.
  intros E. destruct (batch_result _ _ _ _ _ E) as (Hp & Hu & Hm & Hl).
  set (docs := query_by_created_time (cursor_at startAfter (meals w))
                 MealUpdate.BATCH_SIZE (meals w)) in *.
  assert (Hlen : (length docs <= MealUpdate.BATCH_SIZE)%nat).
  { unfold docs, query_by_created_time. rewrite List.length_map, List.length_firstn. lia. }
  split; [exact Hu|]. split; [lia|]. split; [|split].
  - rewrite Hm, Hp. apply Z.eqb_eq.
  - rewrite Hp, Hl. destruct docs; cbn [length]; split; try discriminate; try lia; auto.
  - intros id. rewrite Hl. destruct docs as [|d0 rest] eqn:Hd; [discriminate|].
    intros [= <-].
    assert (Hin : In (List.last (map fst (d0 :: rest)) "") (map fst (d0 :: rest)))
      by (cbn [map]; apply last_In).
    apply List.in_map_iff in Hin as ([i d] & Hi & Hin). cbn in Hi. rewrite <- Hi.
    exists d. apply (query_by_created_time_lookup (cursor_at startAfter (meals w))
                       MealUpdate.BATCH_SIZE). fold docs. rewrite Hd. exact Hin.
Qed.

Lemma batch_report_consistent_witness :
  exists result w1,
    MealUpdate.updateMealsInBatches None Sample.env_fine Sample.five_old_meals
    = (Ok result, w1)
    /\ MealUpdate.processed result = 5 /\ MealUpdate.hasMore result = true
    /\ 0 <= MealUpdate.updated result <= MealUpdate.processed result.
Proof.
  destruct (MealUpdate.updateMealsInBatches None Sample.env_fine Sample.five_old_meals)
    as [[result|e] w1] eqn:E; [|vm_compute in E; discriminate].
  exists result, w1. split; [reflexivity|].
  pose proof (batch_report_consistent None Sample.env_fine Sample.five_old_meals
                result w1 E) as H.
  vm_compute in E. injection E as <- _. cbn. repeat split; try reflexivity; apply H.
Defined.

(** * The progress document *)

(** The progress document left by a step that returned. *)
Lemma updateSingleBatchOnly_result env w r w1 :
  MealUpdate.updateSingleBatchOnly env w = (Ok r, w1) ->
  exists result w2,
    MealUpdate.updateMealsInBatches (progress w ≫= ProgressDoc.lastProcessedId) env
      (record (EvStore ProgressGet true) w) = (Ok result, w2)
    /\ r = MealUpdate.mkBatch (MealUpdate.processed result) (MealUpdate.updated result)
             (MealUpdate.hasMore result) None
    /\ progress w1
       = if MealUpdate.hasMore result && truthy_str (MealUpdate.lastProcessedId result)
         then Some (ProgressDoc.mk
                      (MealUpdate.lastProcessedId result)
                      (Some (default 0 (progress w ≫= ProgressDoc.totalProcessed)
                             + MealUpdate.processed result))
                      (Some (default 0 (progress w ≫= ProgressDoc.totalUpdated)
                             + MealUpdate.updated result))
                      (Some (now w2)))
         else None.
Proof.
  unfold MealUpdate.updateSingleBatchOnly. rewrite try_catch_rethrow.
  unfold bind at 1, store_call at 1.
  destruct (store_fault env (steps w)); [discriminate|].
  unfold bind at 1.
  destruct (MealUpdate.updateMealsInBatches (progress w ≫= ProgressDoc.lastProcessedId)
              env (record (EvStore ProgressGet true) w)) as [[result|e] w2];
    [|discriminate].
  intros E. exists result, w2. split; [reflexivity|].
  unfold bind at 1 in E.
  destruct (MealUpdate.hasMore result && truthy_str (MealUpdate.lastProcessedId result)).
  - unfold bind, clock, store_call, ret in E.
    destruct (store_fault env (steps w2)); [discriminate|].
    injection E as <- <-. split; reflexivity.
  - unfold store_call, ret in E.
    destruct (store_fault env (steps w2)); [discriminate|].
    injection E as <- <-. split; reflexivity.
Qed.

(** X6. The progress document after a scheduled step that returned: when the
    step reports more work, the document holds the id of a stored meal as
    cursor and the previous totals plus the counts of this batch; when it
    reports no more work, the document is gone.  The ids of the collection
    are taken to be non-empty, as the store guarantees. *)
Theorem progress_after_step env w r w1 :
  ids_nonempty (meals w) = true ->
  MealUpdate.updateSingleBatchOnly env w = (Ok r, w1) ->
  (MealUpdate.hasMore r = true ->
      exists id t,
        is_Some (meals w !! id)
        /\ MealUpdate.processed r = Z.of_nat MealUpdate.BATCH_SIZE
        /\ progress w1
           = Some (ProgressDoc.mk (Some id)
                     (Some (default 0 (progress w ≫= ProgressDoc.totalProcessed)
                            + MealUpdate.processed r))
                     (Some (default 0 (progress w ≫= ProgressDoc.totalUpdated)
                            + MealUpdate.updated r))
                     (Some t)))
  /\ (MealUpdate.hasMore r = false -> progress w1 = None).
Proof.
  intros Hids E.
  apply updateSingleBatchOnly_result in E as (result & w2 & E & -> & Hp).
  cbn [MealUpdate.hasMore MealUpdate.processed MealUpdate.updated].
  destruct (batch_result _ _ _ _ _ E) as (Hproc & _ & Hmore & Hlast).
  cbn [meals record] in Hproc, Hmore, Hlast.
  set (docs := query_by_created_time
                 (cursor_at (progress w ≫= ProgressDoc.lastProcessedId) (meals w))
                 MealUpdate.BATCH_SIZE (meals w)) in *.
  split; intros Hm; rewrite Hm in Hp; [|exact Hp].
  destruct docs as [|d0 rest] eqn:Hd; [rewrite Hm in Hmore; discriminate|].
  assert (Hin : In (List.last (map fst (d0 :: rest)) "") (map fst (d0 :: rest)))
    by (cbn [map]; apply last_In).
  apply List.in_map_iff in Hin as ([i d] & Hi & Hin). cbn [fst] in Hi.
  assert (Hlook : meals w !! i = Some d).
  { apply (query_by_created_time_lookup
             (cursor_at (progress w ≫= ProgressDoc.lastProcessedId) (meals w))
             MealUpdate.BATCH_SIZE). fold docs. rewrite Hd. exact Hin. }
  rewrite <- Hi in Hlast. rewrite Hlast in Hp. cbn [andb truthy_str] in Hp.
  destruct (String.eqb_spec i "") as [Hempty|_];
    [now apply (ids_nonempty_lookup _ _ _ Hids) in Hlook|].
  cbn [negb] in Hp. exists i, (now w2). split; [now exists d|]. split; [|exact Hp].
  rewrite Hm in Hmore. symmetry in Hmore. apply Z.eqb_eq in Hmore. lia.
Qed.

Lemma progress_after_step_witness :
  exists r w1,
    MealUpdate.updateSingleBatchOnly Sample.env_fine Sample.five_old_meals = (Ok r, w1)
    /\ MealUpdate.hasMore r = true
    /\ ProgressDoc.totalProcessed <$> progress w1 = Some (Some 5).
Proof.
  destruct (MealUpdate.updateSingleBatchOnly Sample.env_fine Sample.five_old_meals)
    as [[r|e] w1] eqn:E; [|vm_compute in E; discriminate].
  exists r, w1. split; [reflexivity|].
  destruct (progress_after_step Sample.env_fine Sample.five_old_meals r w1
              eq_refl E) as (Hmore & _).
  assert (Hm : MealUpdate.hasMore r = true)
    by (vm_compute in E; now injection E as <- _).
  split; [exact Hm|].
  destruct (Hmore Hm) as (id & t & _ & Hfive & ->). cbn. now rewrite Hfive.
Defined.

(** X7. The statistics follow the progress document: after a step that
    reports more work they show the accumulated totals; after a step that
    reports no more work they show zero for both totals and no date -- the
    totals of a finished cycle are not kept. *)
Theorem stats_after_step env w r w1 env2 w2 :
  ids_nonempty (meals w) = true ->
  MealUpdate.updateSingleBatchOnly env w = (Ok r, w1) ->
  progress w2 = progress w1 ->
  store_fault env2 (steps w2) = None ->
  exists stats,
    MealAdmin.getUpdateStats env2 w2 = (Ok stats, record (EvStore ProgressGet true) w2)
    /\ UpdateStats.hasMore stats = MealUpdate.hasMore r
    /\ UpdateStats.totalProcessed stats
       = (if MealUpdate.hasMore r
          then default 0 (progress w ≫= ProgressDoc.totalProcessed) + MealUpdate.processed r
          else 0)
    /\ UpdateStats.totalUpdated stats
       = (if MealUpdate.hasMore r
          then default 0 (progress w ≫= ProgressDoc.totalUpdated) + MealUpdate.updated r
          else 0)
    /\ (MealUpdate.hasMore r = false -> UpdateStats.lastUpdate stats = None).
Proof.
  intros Hids E Hsame Hio.
  apply updateSingleBatchOnly_result in E as (result & w0 & E & -> & Hp).
  cbn [MealUpdate.hasMore MealUpdate.processed MealUpdate.updated].
  assert (Hlast : MealUpdate.hasMore result = true ->
                  truthy_str (MealUpdate.lastProcessedId result) = true).
  { intros Hm. destruct (batch_result _ _ _ _ _ E) as (_ & _ & Hmore & Hlast).
    cbn [meals record] in Hmore, Hlast.
    set (docs := query_by_created_time
                   (cursor_at (progress w ≫= ProgressDoc.lastProcessedId) (meals w))
                   MealUpdate.BATCH_SIZE (meals w)) in *.
    destruct docs as [|d0 rest] eqn:Hd; [rewrite Hm in Hmore; discriminate|].
    assert (Hin : In (List.last (map fst (d0 :: rest)) "") (map fst (d0 :: rest)))
      by (cbn [map]; apply last_In).
    apply List.in_map_iff in Hin as ([i d] & Hi & Hin). cbn [fst] in Hi.
    assert (Hlook : meals w !! i = Some d).
    { apply (query_by_created_time_lookup
               (cursor_at (progress w ≫= ProgressDoc.lastProcessedId) (meals w))
               MealUpdate.BATCH_SIZE). fold docs. rewrite Hd. exact Hin. }
    rewrite Hlast, <- Hi. cbn [truthy_str].
    destruct (String.eqb_spec i "") as [Hempty|_]; [|reflexivity].
    now apply (ids_nonempty_lookup _ _ _ Hids) in Hlook. }
  unfold MealAdmin.getUpdateStats. rewrite try_catch_rethrow.
  unfold bind, store_call. rewrite Hio, Hsame, Hp.
  destruct (MealUpdate.hasMore result) eqn:Hm.
  - rewrite (Hlast eq_refl). cbn. eexists. split; [reflexivity|].
    cbn. repeat split; try reflexivity. discriminate.
  - cbn. eexists. split; [reflexivity|]. cbn. repeat split; reflexivity.
Qed.

Lemma stats_after_step_witness :
  exists stats w',
    MealAdmin.getUpdateStats Sample.env_fine
      (snd (MealUpdate.updateSingleBatchOnly Sample.env_fine Sample.one_old_meal))
    = (Ok stats, w')
    /\ UpdateStats.totalProcessed stats = 0 /\ UpdateStats.hasMore stats = false.
Proof.
  destruct (MealUpdate.updateSingleBatchOnly Sample.env_fine Sample.one_old_meal)
    as [[r|e] w1] eqn:E; [|vm_compute in E; discriminate].
  destruct (stats_after_step Sample.env_fine Sample.one_old_meal r w1
              Sample.env_fine w1 eq_refl E eq_refl eq_refl)
    as (stats & Hs & Hmore & Htotal & _).
  assert (Hm : MealUpdate.hasMore r = false)
    by (vm_compute in E; now injection E as <- _).
  rewrite Hm in Hmore, Htotal.
  exists stats, (record (EvStore ProgressGet true) w1). cbn [snd]. auto.
Defined.


(** * The switch of the scheduled updates *)

Lemma toggle_stop env w :
  Triggers.toggleScheduledUpdates (Some "stop") env w
  = (Ok Triggers.Stopped, snd (acquireLock env w)).
Proof.
  unfold Triggers.toggleScheduledUpdates, try_catch. cbn [String.eqb Ascii.eqb Bool.eqb].
  cbv iota. unfold bind.
  destruct (store_fault env (steps w)) as [msg|] eqn:Hio.
  - now rewrite (acquireLock_fault env w msg Hio).
  - now rewrite (acquireLock_done env w Hio).
Qed.

Lemma toggle_start env w :
  Triggers.toggleScheduledUpdates (Some "start") env w
  = (Ok Triggers.Started, snd (releaseLock env w)).
Proof.
  unfold Triggers.toggleScheduledUpdates, try_catch. cbn [String.eqb Ascii.eqb Bool.eqb].
  cbv iota. unfold bind.
  destruct (releaseLock_returns env w) as [ok ->]. reflexivity.
Qed.

(** X8. What "stop" achieves: after a successful stop, a scheduled run that
    finds this lock does nothing while the lock is at most thirty minutes
    old; once it is older, the run deletes the lock and runs the batch
    step. *)
Theorem stop_holds_thirty_minutes env w env2 w2 :
  store_fault env (steps w) = None ->
  lock w2 = lock (snd (Triggers.toggleScheduledUpdates (Some "stop") env w)) ->
  store_fault env2 (steps w2) = None ->
  (now w2 - now w <= STALE_AFTER_MS ->
   Triggers.scheduledMealsUpdate env2 w2 = (Ok tt, record (EvStore LockGet true) w2))
  /\ (now w2 - now w > STALE_AFTER_MS ->
      store_fault env2 (S (steps w2)) = None ->
      snd (Triggers.scheduledMealsUpdate env2 w2)
      = snd (MealUpdate.updateSingleBatchOnly env2
               (record (EvStore LockDelete true)
                  (set_lock None (record (EvStore LockGet true) w2))))).
Proof.
  intros Hio Hlock Hio2.
  rewrite toggle_stop, (acquireLock_done env w Hio) in Hlock. cbn in Hlock.
  unfold Triggers.scheduledMealsUpdate, try_catch. split.
  - intros Hage. unfold bind at 1.
    rewrite (isUpdateProcessRunning_fresh env2 w2 _ Hio2 Hlock); [reflexivity|].
    now intros t [= <-].
  - intros Hage Hio3. unfold bind at 1.
    rewrite (isUpdateProcessRunning_stale env2 w2 _ (now w) Hio2 Hlock eq_refl Hage).
    rewrite (releaseLock_done env2 (record (EvStore LockGet true) w2) Hio3).
    cbn [snd]. unfold bind, ret.
    now destruct (MealUpdate.updateSingleBatchOnly env2 _) as [[r|e] w3].
Qed.

Lemma stop_holds_thirty_minutes_witness :
  let stopped := snd (Triggers.toggleScheduledUpdates (Some "stop") Sample.env_fine
                        Sample.five_old_meals) in
  let later := snd (sleep (Sample.minutes 31) Sample.env_fine stopped) in
  let soon := snd (sleep (Sample.minutes 30) Sample.env_fine stopped) in
  Triggers.scheduledMealsUpdate Sample.env_fine soon
  = (Ok tt, record (EvStore LockGet true) soon)
  /\ snd (Triggers.scheduledMealsUpdate Sample.env_fine later)
     = snd (MealUpdate.updateSingleBatchOnly Sample.env_fine
              (record (EvStore LockDelete true)
                 (set_lock None (record (EvStore LockGet true) later)))).
Proof.
  intros stopped later soon. split.
  - apply (stop_holds_thirty_minutes Sample.env_fine Sample.five_old_meals
             Sample.env_fine soon); reflexivity.
  - apply (stop_holds_thirty_minutes Sample.env_fine Sample.five_old_meals
             Sample.env_fine later); reflexivity.
Defined.

(** X9. "stop" and "start" answer success whether or not the store accepted
    the write: the answer is the same when the lock document could not be
    written or deleted, and the lock is then what it was. *)
Theorem toggle_reports_success_regardless env w :
  (exists ok,
     Triggers.toggleScheduledUpdates (Some "stop") env w
     = (Ok Triggers.Stopped,
        record (EvStore LockSet ok)
          (if ok : bool
           then set_lock (Some (mkLock (Some true) (Some (now w))
                                       (Some ("update_" +:+ pretty (now w))))) w
           else w))
     /\ (ok = false <-> store_fault env (steps w) <> None))
  /\ (exists ok,
        Triggers.toggleScheduledUpdates (Some "start") env w
        = (Ok Triggers.Started,
           record (EvStore LockDelete ok) (if ok : bool then set_lock None w else w))
        /\ (ok = false <-> store_fault env (steps w) <> None)).
Proof.
  split.
  - rewrite toggle_stop. destruct (store_fault env (steps w)) as [msg|] eqn:Hio.
    + exists false. rewrite (acquireLock_fault env w msg Hio). now repeat split.
    + exists true. rewrite (acquireLock_done env w Hio).
      split; [reflexivity|]. split; [discriminate|congruence].
  - rewrite toggle_start. destruct (store_fault env (steps w)) as [msg|] eqn:Hio.
    + exists false. rewrite (releaseLock_fault env w msg Hio). now repeat split.
    + exists true. rewrite (releaseLock_done env w Hio).
      split; [reflexivity|]. split; [discriminate|congruence].
Qed.

(** X10. An action other than "status", "stop" and "start" (or none at all)
    is answered with status 400 and touches nothing; the three known
    actions are never answered with 400. *)
Theorem toggle_rejects_unknown_action action env w :
  (action <> Some "status" /\ action <> Some "stop" /\ action <> Some "start")
  <-> Triggers.toggleScheduledUpdates action env w = (Ok Triggers.BadAction, w).
Proof.
  split.
  - intros (H1 & H2 & H3). unfold Triggers.toggleScheduledUpdates, try_catch.
    destruct action as [a|]; [|reflexivity].
    destruct (String.eqb_spec a "status"); [congruence|].
    destruct (String.eqb_spec a "stop"); [congruence|].
    destruct (String.eqb_spec a "start"); [congruence|]. reflexivity.
  - intros E. repeat split; intros ->.
    + revert E. unfold Triggers.toggleScheduledUpdates, try_catch.
      cbn [String.eqb Ascii.eqb Bool.eqb]. cbv iota. unfold bind at 1.
      destruct (isUpdateProcessRunning_returns env w) as (b & w1 & ->).
      unfold bind, ret.
      destruct (MealAdmin.getUpdateStats env w1) as [[s|e] w2]; discriminate.
    + rewrite toggle_stop in E. discriminate.
    + rewrite toggle_start in E. discriminate.
Qed.

(** X11. A status query is not read-only: when it finds a lock older than
    thirty minutes, it deletes it. *)
Theorem status_query_removes_stale_lock env w l t :
  store_fault env (steps w) = None ->
  store_fault env (S (steps w)) = None ->
  lock w = Some l ->
  timestamp l = Some t ->
  now w - t > STALE_AFTER_MS ->
  lock (snd (Triggers.toggleScheduledUpdates (Some "status") env w)) = None
  /\ exists r, fst (Triggers.toggleScheduledUpdates (Some "status") env w) = Ok r
               /\ Triggers.http_status r <> 400.
Proof.
  intros Hio Hio1 Hl Ht Hage.
  set (w1 := record (EvStore LockDelete true)
               (set_lock None (record (EvStore LockGet true) w))).
  assert (E : Triggers.toggleScheduledUpdates (Some "status") env w
              = match MealAdmin.getUpdateStats env w1 with
                | (Ok s, w2) => (Ok (Triggers.Status false s), w2)
                | (Throw e, w2) => (Ok (Triggers.ServerError e), w2)
                end).
  { unfold Triggers.toggleScheduledUpdates, try_catch.
    cbn [String.eqb Ascii.eqb Bool.eqb]. cbv iota. unfold bind at 1.
    rewrite (isUpdateProcessRunning_stale env w l t Hio Hl Ht Hage).
    rewrite (releaseLock_done env (record (EvStore LockGet true) w) Hio1). cbn [snd].
    fold w1. unfold bind, ret.
    now destruct (MealAdmin.getUpdateStats env w1) as [[s|e] w2]. }
  assert (Hstats : lock (snd (MealAdmin.getUpdateStats env w1)) = lock w1).
  { unfold MealAdmin.getUpdateStats. rewrite try_catch_rethrow.
    unfold bind, store_call. destruct (store_fault env (steps w1)); [reflexivity|].
    now destruct (progress w1). }
  rewrite E.
  destruct (MealAdmin.getUpdateStats env w1) as [[s|e] w2]; cbn [fst snd] in *;
    (split; [exact Hstats|]); eexists; (split; [reflexivity|discriminate]).
Qed.

Lemma status_query_removes_stale_lock_witness :
  lock (snd (Triggers.toggleScheduledUpdates (Some "status") Sample.env_fine
               (Sample.locked_meals (Sample.minutes 31)))) = None.
Proof.
  apply (status_query_removes_stale_lock Sample.env_fine
           (Sample.locked_meals (Sample.minutes 31)) Sample.lock_at_0 0);
    reflexivity.
Defined.


(** * Rules for [uses] *)

Lemma slept_app tr2 tr1 : slept (tr2 ++ tr1) = slept tr2 + slept tr1.
Proof.
  unfold slept, sleeps. rewrite rev_app_distr, omap_app, foldr_app.
  generalize (omap sleep_of (rev tr2)) as l2.
  generalize (omap sleep_of (rev tr1)) as l1. intros l1.
  induction l1 as [|x l1 IH]; intros l2; cbn; [lia|].
  rewrite IH. specialize (IH ([] : list Z)). cbn in IH. lia.
Qed.

Lemma image_requests_app tr2 tr1 :
  image_requests (tr2 ++ tr1) = (image_requests tr2 + image_requests tr1)%nat.
Proof. unfold image_requests. rewrite requested_app, length_app. lia. Qed.

Lemma uses_weaken {A} o r s o' r' s' (m : M A) :
  uses o r s m -> (o <= o')%nat -> (r <= r')%nat -> (s <= s')%N -> uses o' r' s' m.
Proof.
  intros H Ho Hr Hs env w. destruct (H env w) as (tr & T & Co & Cr & Cs & N).
  exists tr. repeat split; try assumption; lia.
Qed.

Lemma uses_ret {A} (a : A) : uses 0 0 0 (ret a).
Proof. intros env w. exists []. cbn. repeat split; try lia. Qed.

Lemma uses_throw {A} e : uses 0 0 0 (@throw A e).
Proof. intros env w. exists []. cbn. repeat split; try lia. Qed.

Lemma uses_clock : uses 0 0 0 clock.
Proof. intros env w. exists []. cbn. repeat split; try lia. Qed.

Lemma uses_sleep ms : 0 <= ms -> uses 0 0 (Z.to_N ms) (sleep ms).
Proof.
  intros Hms env w. exists [EvSleep ms]. cbn. unfold slept. cbn.
  repeat split; try lia.
Qed.

Lemma uses_sleep_for ms s : 0 <= ms -> Z.to_N ms = s -> uses 0 0 s (sleep ms).
Proof. intros Hms <-. now apply uses_sleep. Qed.

Lemma uses_bind {A B} o1 r1 s1 o2 r2 s2 (m : M A) (k : A -> M B) :
  uses o1 r1 s1 m -> (forall a, uses o2 r2 s2 (k a)) ->
  uses (o1 + o2) (r1 + r2) (s1 + s2) (bind m k).
Proof.
  intros Hm Hk env w. unfold bind.
  destruct (Hm env w) as (tr1 & T1 & Co1 & Cr1 & Cs1 & N1).
  destruct (m env w) as [[a|e] w1]; cbn [snd] in *.
  - destruct (Hk a env w1) as (tr2 & T2 & Co2 & Cr2 & Cs2 & N2).
    exists (tr2 ++ tr1).
    rewrite T2, T1, app_assoc, model_calls_app, image_requests_app, slept_app.
    repeat split; try reflexivity; try lia.
  - exists tr1. repeat split; try assumption; try lia.
Qed.

Lemma uses_try_catch {A} o1 r1 s1 o2 r2 s2 (m : M A) (h : string -> M A) :
  uses o1 r1 s1 m -> (forall e, uses o2 r2 s2 (h e)) ->
  uses (o1 + o2) (r1 + r2) (s1 + s2) (try_catch m h).
Proof.
  intros Hm Hh env w. unfold try_catch.
  destruct (Hm env w) as (tr1 & T1 & Co1 & Cr1 & Cs1 & N1).
  destruct (m env w) as [[a|e] w1]; cbn [snd] in *.
  - exists tr1. repeat split; try assumption; try lia.
  - destruct (Hh e env w1) as (tr2 & T2 & Co2 & Cr2 & Cs2 & N2).
    exists (tr2 ++ tr1).
    rewrite T2, T1, app_assoc, model_calls_app, image_requests_app, slept_app.
    repeat split; try reflexivity; try lia.
Qed.

Lemma uses_store_call {A} op (effect : World -> string + (A * World)) :
  (forall w a w', effect w = inr (a, w') -> trace w' = trace w /\ now w' = now w) ->
  uses 0 0 0 (store_call op effect).
Proof.
  intros H env w. unfold store_call.
  destruct (store_fault env (steps w)).
  { exists [EvStore op false]. cbn. repeat split; try lia. }
  destruct (effect w) as [msg|[a w']] eqn:E.
  { exists [EvStore op false]. cbn. repeat split; try lia. }
  destruct (H w a w' E) as [T N].
  exists [EvStore op true]. cbn. rewrite T, N. repeat split; try lia.
Qed.

Lemma uses_read {A} op (g : World -> A) : uses 0 0 0 (store_call op (fun w => inr (g w, w))).
Proof. apply uses_store_call. now intros w a w' [= _ <-]. Qed.

Lemma uses_update_doc op id patch : uses 0 0 0 (update_doc op id patch).
Proof.
  unfold update_doc. destruct (id =? "")%string; [apply uses_throw|].
  apply uses_store_call. intros w a w'.
  destruct (meals w !! id); [|discriminate]. now intros [= _ <-].
Qed.

Lemma uses_update_fields op id data : uses 0 0 0 (update_fields op id data).
Proof.
  unfold update_fields. destruct (id =? "")%string; [apply uses_throw|].
  destruct (update_error data); [apply uses_throw|apply uses_update_doc].
Qed.

(** Sequencing with something that spends nothing. *)
Lemma uses_bind_free {A B} o r s (m : M A) (k : A -> M B) :
  uses 0 0 0 m -> (forall a, uses o r s (k a)) -> uses o r s (bind m k).
Proof.
  intros Hm Hk. apply (uses_weaken (0 + o) (0 + r) (0 + s)); try lia.
  now apply uses_bind.
Qed.

Lemma uses_then_free {A B} o r s (m : M A) (k : A -> M B) :
  uses o r s m -> (forall a, uses 0 0 0 (k a)) -> uses o r s (bind m k).
Proof.
  intros Hm Hk. apply (uses_weaken (o + 0) (r + 0) (s + 0)); try lia.
  now apply uses_bind.
Qed.

Lemma uses_free {A} o r s (m : M A) : uses 0 0 0 m -> uses o r s m.
Proof. intros H. apply (uses_weaken 0 0 0); try lia. exact H. Qed.

(** Sequencing after a free step whose value is known to satisfy [Q]. *)
Lemma uses_bind_post {A B} (Q : A -> Prop) o r s (m : M A) (k : A -> M B) :
  (forall env w a w', m env w = (Ok a, w') -> Q a) ->
  uses 0 0 0 m -> (forall a, Q a -> uses o r s (k a)) -> uses o r s (bind m k).
Proof.
  intros HQ Hm Hk env w. unfold bind.
  destruct (Hm env w) as (tr1 & T1 & Co1 & Cr1 & Cs1 & N1).
  destruct (m env w) as [[a|e] w1] eqn:E; cbn [snd] in *.
  - destruct (Hk a (HQ _ _ _ _ E) env w1) as (tr2 & T2 & Co2 & Cr2 & Cs2 & N2).
    exists (tr2 ++ tr1).
    rewrite T2, T1, app_assoc, model_calls_app, image_requests_app, slept_app.
    repeat split; try lia.
  - exists tr1. repeat split; try assumption; try lia.
Qed.

(** ** The lock manager spends nothing *)

Lemma uses_releaseLock : uses 0 0 0 releaseLock.
Proof.
  unfold releaseLock. apply (uses_try_catch 0 0 0 0 0 0).
  - apply uses_store_call. now intros w a w' [= _ <-].
  - intros; apply uses_ret.
Qed.

Lemma uses_isUpdateProcessRunning : uses 0 0 0 isUpdateProcessRunning.
Proof.
  unfold isUpdateProcessRunning. apply (uses_try_catch 0 0 0 0 0 0);
    [|intros; apply uses_ret].
  apply uses_bind_free; [apply uses_read|]. intros [l|]; [|apply uses_ret].
  apply uses_bind_free; [apply uses_clock|]. intros t.
  match goal with |- context [if ?c then _ else _] => destruct c end;
    [|apply uses_ret].
  apply uses_bind_free; [apply uses_releaseLock|]. intros; apply uses_ret.
Qed.

(** ** The meal job *)

Lemma uses_generateEnhancedMealDescription meal :
  uses 1 0 0 (MealUpdate.generateEnhancedMealDescription meal).
Proof.
  intros env w. unfold MealUpdate.generateEnhancedMealDescription.
  destruct (openai env (steps w) meal).
  - eexists [_]. split; [reflexivity|]. cbn. repeat split; lia.
  - match goal with |- context [if ?c then _ else _] => destruct c end;
      eexists [_]; (split; [reflexivity|]); cbn; repeat split; lia.
Qed.

Lemma uses_attempt mealId meal : uses 1 0 0 (MealUpdate.attempt mealId meal).
Proof.
  unfold MealUpdate.attempt.
  destruct (MealUpdate.already_updated meal); [apply uses_free, uses_ret|].
  apply uses_then_free; [apply uses_generateEnhancedMealDescription|]. intros u.
  apply uses_bind_free; [apply uses_clock|]. intros t.
  apply uses_bind_free; [apply uses_update_fields|]. intros; apply uses_ret.
Qed.

(** [updateSingleMeal]: at most three calls, and the two pauses of 2 s and
    4 s. *)
Lemma uses_updateSingleMeal mealId meal :
  uses 3 0 6000 (MealUpdate.updateSingleMeal mealId meal).
Proof.
  unfold MealUpdate.updateSingleMeal. change (Z.to_nat MealUpdate.maxRetries) with 3%nat.
  cbn [MealUpdate.attempts].
  apply (uses_try_catch 1 0 0 2 0 6000); [apply uses_attempt|]. intros _.
  change (1 =? MealUpdate.maxRetries) with false. cbv iota.
  apply (uses_bind 0 0 2000 2 0 4000); [apply uses_sleep_for; [vm_compute; discriminate|reflexivity]|]. intros _.
  apply (uses_try_catch 1 0 0 1 0 4000); [apply uses_attempt|]. intros _.
  change (1 + 1 =? MealUpdate.maxRetries) with false. cbv iota.
  apply (uses_bind 0 0 4000 1 0 0); [apply uses_sleep_for; [vm_compute; discriminate|reflexivity]|]. intros _.
  apply (uses_try_catch 1 0 0 0 0 0); [apply uses_attempt|]. intros _.
  change (1 + 1 + 1 =? MealUpdate.maxRetries) with true. cbv iota. apply uses_ret.
Qed.

Lemma uses_meal_docs docs p u last :
  uses (3 * length docs) 0 (6000 * N.of_nat (length docs))
       (MealUpdate.process_docs docs p u last).
Proof.
  revert p u last. induction docs as [|[id meal] rest IH]; intros p u last.
  - apply uses_ret.
  - cbn [MealUpdate.process_docs].
    apply (uses_weaken (3 + 3 * length rest) (0 + 0) (6000 + 6000 * N.of_nat (length rest)));
      [|cbn [length]; lia..].
    apply uses_bind; [|intros; apply IH].
    apply (uses_weaken (3 + 0) (0 + 0) (6000 + 0)); try lia.
    apply uses_try_catch; [|intros; apply uses_ret].
    apply uses_then_free; [apply uses_updateSingleMeal|]. intros; apply uses_ret.
Qed.

Lemma query_by_created_time_length cursor n m :
  (length (query_by_created_time cursor n m) <= n)%nat.
Proof. unfold query_by_created_time. rewrite List.length_map, List.length_firstn. lia. Qed.

Lemma uses_updateMealsInBatches startAfter :
  uses 15 0 30000 (MealUpdate.updateMealsInBatches startAfter).
Proof.
  unfold MealUpdate.updateMealsInBatches. apply uses_bind_free.
  - unfold MealUpdate.start_cursor. destruct startAfter as [sid|]; [|apply uses_ret].
    destruct (truthy_str (Some sid)); [|apply uses_ret].
    apply uses_bind_free; [apply uses_read|]. intros [d|]; [|apply uses_ret].
    destruct (created_time d); [apply uses_ret | apply uses_throw].
  - intros cursor.
    apply (uses_bind_post (fun docs => (length docs <= MealUpdate.BATCH_SIZE)%nat));
      [|apply uses_read|].
    { intros env w docs w' E. apply store_read_value in E as [-> _].
      apply query_by_created_time_length. }
    intros docs Hlen. change MealUpdate.BATCH_SIZE with 5%nat in Hlen.
    unfold MealUpdate.process_page.
    destruct docs as [|d0 rest] eqn:Hd; [apply uses_free, uses_ret|].
    apply uses_then_free; [|intros; apply uses_ret].
    eapply uses_weaken; [apply uses_meal_docs|lia..].
Qed.

Lemma uses_updateSingleBatchOnly : uses 15 0 30000 MealUpdate.updateSingleBatchOnly.
Proof.
  unfold MealUpdate.updateSingleBatchOnly.
  apply (uses_weaken (15 + 0) (0 + 0) (30000 + 0)); try lia.
  apply uses_try_catch; [|intros; apply uses_throw].
  apply uses_bind_free; [apply uses_read|]. intros progressDoc.
  apply uses_then_free; [apply uses_updateMealsInBatches|]. intros result.
  apply uses_bind_free; [|intros; apply uses_ret].
  destruct (MealUpdate.hasMore result && truthy_str (MealUpdate.lastProcessedId result)).
  - apply uses_bind_free; [apply uses_clock|]. intros t.
    apply uses_store_call. now intros w a w' [= _ <-].
  - apply uses_store_call. now intros w a w' [= _ <-].
Qed.

(** ** The image job *)

Lemma uses_generateRecraftFoodImage meal :
  uses 0 1 0 (Recraft.generateRecraftFoodImage meal).
Proof.
  intros env w. unfold Recraft.generateRecraftFoodImage.
  destruct (recraft env (steps w) meal); eexists [_];
    (split; [reflexivity|]); cbn; repeat split; lia.
Qed.

Lemma uses_doc_path v : uses 0 0 0 (Recraft.doc_path v).
Proof.
  unfold Recraft.doc_path. destruct v as [[| | |s| | |]|];
    first [apply uses_ret | apply uses_throw].
Qed.

Lemma uses_markMealImageFailed v error :
  uses 0 0 0 (Recraft.markMealImageFailed v error).
Proof.
  unfold Recraft.markMealImageFailed.
  apply (uses_try_catch 0 0 0 0 0 0); [|intros; apply uses_ret].
  apply uses_bind_free; [apply uses_doc_path|]. intros path.
  apply uses_bind_free; [apply uses_clock|]. intros t. apply uses_update_doc.
Qed.

Lemma uses_image_docs docs c :
  uses 0 (length docs) (500 * N.of_nat (length docs)) (Recraft.process_docs docs c).
Proof.
  revert c. induction docs as [|doc rest IH]; intros c; [apply uses_ret|].
  cbn [Recraft.process_docs].
  destruct (negb (truthy (Recraft.meal_id doc))).
  { eapply uses_weaken; [apply IH|cbn [length]; lia..]. }
  apply (uses_weaken (0 + 0) (1 + length rest) (500 + 500 * N.of_nat (length rest)));
    [|cbn [length]; lia..].
  apply uses_bind; [|intros; apply IH].
  apply (uses_weaken (0 + 0) (1 + 0) (500 + 0)); try lia.
  apply uses_try_catch.
  - destruct (negb (truthy (Recraft.englishTitle doc.2)));
      [apply uses_free, uses_ret|].
    apply (uses_weaken (0 + 0) (1 + 0) (0 + 500)); try lia.
    apply uses_bind; [apply uses_generateRecraftFoodImage|]. intros result.
    apply uses_bind_free; [apply uses_doc_path|]. intros path.
    apply uses_bind_free; [apply uses_clock|]. intros t.
    apply uses_bind_free; [apply uses_update_doc|]. intros _.
    apply uses_then_free; [apply uses_sleep_for; [vm_compute; discriminate|reflexivity]|]. intros; apply uses_ret.
  - intros e. apply uses_bind_free; [apply uses_markMealImageFailed|].
    intros; apply uses_ret.
Qed.

Lemma uses_generateImagesBatch : uses 0 10 5000 Recraft.generateImagesBatch.
Proof.
  assert (Hdone : forall patch (r : Recraft.Summary),
             uses 0 0 0 (bind (Recraft.setScanState patch) (fun _ => ret r))).
  { intros. apply uses_bind_free; [|intros; apply uses_ret].
    unfold Recraft.setScanState. apply uses_bind_free; [apply uses_clock|]. intros t.
    apply uses_store_call. now intros w a w' [= _ <-]. }
  unfold Recraft.generateImagesBatch.
  apply (uses_weaken (0 + 0) (10 + 0) (5000 + 0)); try lia.
  apply uses_try_catch; [|intros; apply uses_throw].
  apply uses_bind_free.
  { unfold Recraft.getScanState. apply uses_bind_free; [apply uses_read|].
    intros; apply uses_ret. }
  intros state. apply uses_bind_free; [apply uses_read|]. intros snapshot.
  unfold Recraft.process_page.
  destruct snapshot as [|d0 rest]; [apply uses_free, Hdone|].
  destruct (last (d0 :: rest)); [|apply uses_free, Hdone].
  destruct (List.filter Recraft.is_candidate (d0 :: rest)) as [|c0 cs];
    [apply uses_free, Hdone|].
  apply uses_then_free; [|intros; apply Hdone].
  eapply uses_weaken; [apply uses_image_docs|..].
  - lia.
  - rewrite length_take. change Recraft.BATCH_SIZE with 10%nat. lia.
  - rewrite length_take. change Recraft.BATCH_SIZE with 10%nat. lia.
Qed.

(** X12. What one scheduled run can spend.  A run of the meal handler calls
    the language model at most 15 times (three per meal of a page of five),
    requests no image and pauses for at most 30 seconds; a run of the image
    handler requests at most 10 images, never calls the language model and
    pauses for at most 5 seconds.  The clock moves by the pauses only. *)
Theorem scheduled_run_budget :
  uses 15 0 30000 Triggers.scheduledMealsUpdate
  /\ uses 0 10 5000 Triggers.scheduledRecraftImageGeneration.
Proof.
  split.
  - unfold Triggers.scheduledMealsUpdate.
    apply (uses_weaken (15 + 0) (0 + 0) (30000 + 0)); try lia.
    apply uses_try_catch; [|intros; apply uses_ret].
    apply uses_bind_free; [apply uses_isUpdateProcessRunning|]. intros [|].
    + apply uses_free, uses_ret.
    + apply uses_then_free; [apply uses_updateSingleBatchOnly|]. intros; apply uses_ret.
  - unfold Triggers.scheduledRecraftImageGeneration.
    apply (uses_weaken (0 + 0) (10 + 0) (5000 + 0)); try lia.
    apply uses_try_catch; [|intros; apply uses_ret].
    apply uses_then_free; [apply uses_generateImagesBatch|]. intros; apply uses_ret.
Qed.

(** ** The manual runs *)

Lemma uses_limited_docs docs u :
  uses (3 * length docs) 0 (6000 * N.of_nat (length docs)) (MealAdmin.limited_docs docs u).
Proof.
  revert u. induction docs as [|[id meal] rest IH]; intros u.
  - apply uses_ret.
  - cbn [MealAdmin.limited_docs].
    apply (uses_weaken (3 + 3 * length rest) (0 + 0) (6000 + 6000 * N.of_nat (length rest)));
      [|cbn [length]; lia..].
    apply uses_bind; [|intros; apply IH].
    apply (uses_weaken (3 + 0) (0 + 0) (6000 + 0)); try lia.
    apply uses_try_catch; [|intros; apply uses_ret].
    apply uses_then_free; [apply uses_updateSingleMeal|]. intros; apply uses_ret.
Qed.

(** X13. What a manual run can spend: [updateLimitedMeals(limit)] calls the
    language model at most [3 * limit] times and pauses for at most
    [6 * limit] seconds; [generateSingleTestImage] requests at most one
    image and never pauses.  Neither uses the other service. *)
Theorem manual_run_budget :
  (forall limit,
     uses (3 * Pos.to_nat limit) 0 (6000 * N.pos limit) (MealAdmin.updateLimitedMeals limit))
  /\ uses 0 1 0 RecraftTest.generateSingleTestImage.
Proof.
  split.
  - intros limit. unfold MealAdmin.updateLimitedMeals.
    apply (uses_weaken (3 * Pos.to_nat limit + 0) (0 + 0) (6000 * N.pos limit + 0));
      try lia.
    apply uses_try_catch; [|intros; apply uses_throw].
    apply (uses_bind_post (fun docs => (length docs <= Pos.to_nat limit)%nat));
      [|apply uses_read|].
    { intros env w docs w' E. apply store_read_value in E as [-> _].
      unfold query_by_document_id. rewrite length_take. lia. }
    intros docs Hlen.
    destruct docs as [|d0 rest] eqn:Hd; [apply uses_free, uses_ret|].
    apply uses_then_free; [|intros; apply uses_ret].
    eapply uses_weaken; [apply uses_limited_docs|lia..].
  - unfold RecraftTest.generateSingleTestImage.
    apply (uses_weaken (0 + 0) (1 + 0) (0 + 0)); try lia.
    apply uses_try_catch; [|intros; apply uses_throw].
    apply uses_bind_free; [apply uses_read|]. intros snapshot.
    destruct snapshot as [|d0 rest]; [apply uses_free, uses_ret|].
    destruct (List.filter RecraftTest.needs_test_image (d0 :: rest)) as [|doc _].
    { apply uses_free. unfold RecraftTest.debugMealPhotos.
      apply (uses_try_catch 0 0 0 0 0 0); [|intros; apply uses_ret].
      apply uses_bind_free; [apply uses_read|]. intros; apply uses_ret. }
    destruct (negb (truthy (Recraft.englishTitle doc.2))); [apply uses_free, uses_ret|].
    destruct (negb (truthy (Recraft.meal_id doc))); [apply uses_free, uses_ret|].
    apply uses_then_free; [apply uses_generateRecraftFoodImage|]. intros result.
    apply uses_bind_free; [apply uses_doc_path|]. intros path.
    apply uses_bind_free; [apply uses_clock|]. intros t. apply uses_update_doc.
Qed.


(** * What the writes do to eligibility *)

(** X14. A written image settles the meal, a recorded failure does not: the
    fields written after a generation take the document out of the
    selection of the image job and of the test function; the fields written
    by [markMealImageFailed] change neither selection, whatever the
    document, so a failed meal is selected again, and they leave the
    previous photo in place.  A written image also clears the failure
    fields. *)
Theorem image_write_settles_failure_does_not id photoUrl blurhash error t d :
  Recraft.is_candidate (id, Recraft.image_patch photoUrl blurhash t d) = false
  /\ Recraft.is_candidate (id, RecraftTest.test_image_patch photoUrl blurhash t d) = false
  /\ RecraftTest.needs_test_image (id, RecraftTest.test_image_patch photoUrl blurhash t d)
     = false
  /\ Recraft.is_candidate (id, Recraft.failure_patch error t d)
     = Recraft.is_candidate (id, d)
  /\ RecraftTest.needs_test_image (id, Recraft.failure_patch error t d)
     = RecraftTest.needs_test_image (id, d)
  /\ Recraft.failure_patch error t d !! "photo" = d !! "photo"
  /\ Recraft.image_patch photoUrl blurhash t d !! "image_generation_failed"
     = Some (VBool false)
  /\ Recraft.image_patch photoUrl blurhash t d !! "image_generation_error" = None
  /\ Recraft.image_patch photoUrl blurhash t d !! "image_generation_failed_at" = None.
Proof.
  unfold Recraft.is_candidate, RecraftTest.needs_test_image, Recraft.needsRegeneration,
    Recraft.englishTitle, Recraft.image_patch, RecraftTest.test_image_patch,
    Recraft.failure_patch.
  cbn [fst snd]. repeat split; now simplify_map_eq.
Qed.

(** X15. The check of the answer and the guard of the next pass look at
    different fields: an answer passes with [title_localized],
    [description_localized] and [benefits], while a meal counts as already
    updated with [description_localized], [benefits] and [ingredients].  The
    write reads every key of the answer as a path of fields.  So after the
    write of an answer the client accepts, the meal is settled exactly when
    the answer has a truthy [ingredients], or has no such key but a dotted
    key that leads inside the field (which then holds a map), or has neither
    and the document had a truthy [ingredients] before. *)
Theorem enriched_meal_settled_iff_ingredients updateData t d :
  update_error (MealUpdate.update_data updateData t) = None ->
  truthy (updateData !! "description_localized") = true ->
  truthy (updateData !! "benefits") = true ->
  MealUpdate.already_updated (MealUpdate.enrich updateData t d)
  = match updateData !! "ingredients" with
    | Some v => truthy (Some v)
    | None => touches "ingredients" updateData || truthy (d !! "ingredients")
    end.
Proof.
  intros He Hd Hb. apply update_error_conflicting in He.
  unfold MealUpdate.already_updated, MealUpdate.enrich.
  set (data := MealUpdate.update_data updateData t) in *.
  assert (Hdata : forall f, f <> "updated_time" -> data !! f = updateData !! f).
  { intros f Hf. unfold data, MealUpdate.update_data. now rewrite lookup_insert_ne. }
  assert (Htouch : touches "ingredients" data = touches "ingredients" updateData).
  { unfold data, MealUpdate.update_data. now rewrite touches_insert. }
  destruct (updateData !! "description_localized") as [v1|] eqn:E1; [|discriminate].
  destruct (updateData !! "benefits") as [v2|] eqn:E2; [|discriminate].
  rewrite (apply_update_top data d "description_localized" v1 eq_refl He)
    by (now rewrite Hdata).
  rewrite (apply_update_top data d "benefits" v2 eq_refl He) by (now rewrite Hdata).
  rewrite Hd, Hb. cbn [andb].
  destruct (updateData !! "ingredients") as [v3|] eqn:E3.
  - now rewrite (apply_update_top data d "ingredients" v3 eq_refl He)
      by (now rewrite Hdata).
  - destruct (touches "ingredients" updateData) eqn:Et; cbn [orb].
    + destruct (apply_update_inside data d "ingredients") as [fs ->]; auto.
      now rewrite Hdata.
    + now rewrite apply_update_other by (now rewrite Htouch).
Qed.

(** An answer without [ingredients] but with the dotted key
    [ingredients.en]: the write leaves a map in [ingredients], and the meal
    counts as updated. *)
Lemma enriched_meal_settled_iff_ingredients_witness :
  let answer := <["ingredients.en" := VArr [VStr "apple"]]>
                  (delete "ingredients" Sample.answer) in
  MealUpdate.already_updated (MealUpdate.enrich answer 7 (Sample.old_meal "Apple" 10))
  = true.
Proof.
  intros answer.
  rewrite (enriched_meal_settled_iff_ingredients answer 7 (Sample.old_meal "Apple" 10));
    reflexivity.
Defined.


(** * Order of the pages *)

Lemma string_leb_compare a b : String.leb a b = true <-> String.compare a b <> Gt.
Proof. unfold String.leb. destruct (String.compare a b); split; congruence. Qed.

Lemma string_ltb_compare a b : String.ltb a b = true <-> String.compare a b = Lt.
Proof. unfold String.ltb. destruct (String.compare a b); split; congruence. Qed.

Lemma string_leb_refl a : String.leb a a = true.
Proof. destruct (String.leb_total a a); assumption. Qed.

Lemma string_leb_ltb_trans a b c :
  String.leb a b = true -> String.ltb b c = true -> String.ltb a c = true.
Proof.
  rewrite string_leb_compare, !string_ltb_compare. intros Hab Hbc.
  destruct (String.compare a b) eqn:E; [| |congruence].
  - apply String.compare_eq_iff in E. now subst.
  - now apply string_compare_lt_trans with b.
Qed.

Lemma string_ltb_leb_trans a b c :
  String.ltb a b = true -> String.leb b c = true -> String.ltb a c = true.
Proof.
  rewrite string_leb_compare, !string_ltb_compare. intros Hab Hbc.
  destruct (String.compare b c) eqn:E; [| |congruence].
  - apply String.compare_eq_iff in E. now subst.
  - now apply string_compare_lt_trans with b.
Qed.

Lemma string_ltb_leb a b : String.ltb a b = true -> String.leb a b = true.
Proof. rewrite string_leb_compare, string_ltb_compare. congruence. Qed.

Lemma string_leb_trans a b c :
  String.leb a b = true -> String.leb b c = true -> String.leb a c = true.
Proof.
  intros Hab Hbc. apply string_leb_compare in Hbc.
  destruct (String.compare b c) eqn:E; [| |congruence].
  - apply String.compare_eq_iff in E. now subst.
  - apply string_ltb_leb, (string_leb_ltb_trans a b c Hab).
    now apply string_ltb_compare.
Qed.

Lemma id_le_total : Total id_le.
Proof. intros a b. apply String.leb_total. Qed.

Lemma id_le_trans : Transitive id_le.
Proof. intros a b c. apply string_leb_trans. Qed.

Lemma filter_sublist {A} (p : A -> bool) l : List.filter p l `sublist_of` l.
Proof.
  induction l as [|x l IH]; cbn; [constructor|].
  destruct (p x); now constructor.
Qed.

Lemma StronglySorted_sublist {A} (R : relation A) l1 l2 :
  l1 `sublist_of` l2 -> StronglySorted R l2 -> StronglySorted R l1.
Proof.
  induction 1 as [|x l1 l2 Hsub IH|x l1 l2 Hsub IH]; intros Hs.
  - constructor.
  - apply StronglySorted_inv in Hs as [Hs Hx]. constructor; [now apply IH|].
    rewrite Forall_forall in Hx |- *. intros y Hy. apply Hx.
    now apply (elem_of_sublist l1 l2).
  - apply StronglySorted_inv in Hs as [Hs _]. now apply IH.
Qed.

Lemma query_by_document_id_sublist cursor n m :
  query_by_document_id cursor n m `sublist_of` by_document_id m.
Proof.
  unfold query_by_document_id. etransitivity; [apply sublist_take|apply filter_sublist].
Qed.

(** A page of the image job comes by ascending id, without repetition. *)
Lemma query_by_document_id_sorted cursor n m :
  StronglySorted id_le (query_by_document_id cursor n m).
Proof.
  apply (StronglySorted_sublist _ _ _ (query_by_document_id_sublist cursor n m)).
  apply StronglySorted_merge_sort; [apply id_le_trans|apply id_le_total].
Qed.

Lemma query_by_document_id_NoDup cursor n m :
  NoDup (query_by_document_id cursor n m).*1.
Proof.
  apply (sublist_NoDup _ ((by_document_id m).*1)).
  - unfold by_document_id. rewrite merge_sort_Permutation. apply NoDup_fst_map_to_list.
  - apply fmap_sublist, query_by_document_id_sublist.
Qed.

Lemma query_by_document_id_after c n m doc :
  doc ∈ query_by_document_id (Some c) n m -> String.ltb c doc.1 = true.
Proof.
  unfold query_by_document_id. intros H.
  apply list_elem_of_In, In_take, List.filter_In in H as [_ H]. exact H.
Qed.

(** Every document of a page is at or before its last one. *)
Lemma page_before_last cursor n m doc lastDoc :
  last (query_by_document_id cursor n m) = Some lastDoc ->
  doc ∈ query_by_document_id cursor n m ->
  String.leb doc.1 lastDoc.1 = true.
Proof.
  intros Hlast Hin. pose proof (query_by_document_id_sorted cursor n m) as Hs.
  apply last_Some in Hlast as [l' Hl]. rewrite Hl in Hs, Hin.
  apply elem_of_app in Hin as [Hin|Hin].
  - apply (StronglySorted_app_1_elem_of _ _ _ doc lastDoc Hs Hin). now left.
  - apply list_elem_of_singleton in Hin as ->. apply string_leb_refl.
Qed.

(** * The cursor of the image scan *)

Lemma setScanState_value patch env w u w' :
  Recraft.setScanState patch env w = (Ok u, w') ->
  scan_state w' = Some (Recraft.merge_state patch (now w) (scan_state w))
  /\ meals w' = meals w.
Proof.
  unfold Recraft.setScanState, bind, clock, store_call.
  destruct (store_fault env (steps w)); [discriminate|]. now intros [= _ <-].
Qed.

Lemma generateImagesBatch_page env w r w' :
  Recraft.generateImagesBatch env w = (Ok r, w') ->
  let cursor := Recraft.cursor_of (default (mkScan None None None None) (scan_state w)) in
  Recraft.process_page
    (query_by_document_id cursor Recraft.SCAN_PAGE_SIZE (meals w)) env
    (record (EvStore (MealsQuery cursor) true) (record (EvStore ScanStateGet true) w))
  = (Ok r, w').
Proof.
  intros E cursor.
  destruct (store_fault env (steps w)) as [msg|] eqn:H0.
  { unfold Recraft.generateImagesBatch in E. rewrite try_catch_rethrow in E.
    unfold bind at 1, Recraft.getScanState, bind at 1, store_call at 1 in E.
    rewrite H0 in E. discriminate. }
  destruct (store_fault env (S (steps w))) as [msg|] eqn:H1.
  { unfold Recraft.generateImagesBatch in E. rewrite try_catch_rethrow in E.
    unfold bind at 1, Recraft.getScanState, bind at 1, store_call at 1 in E.
    rewrite H0 in E. unfold ret at 1, bind at 1, store_call at 1 in E.
    cbn [steps record] in E. rewrite H1 in E. discriminate. }
  unfold cursor. now rewrite <- (generateImagesBatch_reads env w H0 H1).
Qed.

(** The scan state written by a page that was handled. *)
Lemma process_page_state snapshot env w r w' :
  Recraft.process_page snapshot env w = (Ok r, w') ->
  Recraft.hasMore r = (length snapshot =? Recraft.SCAN_PAGE_SIZE)%nat
  /\ exists s,
       scan_state w' = Some s
       /\ lastDocId s = fst <$> last snapshot
       /\ finished s = Some (negb (length snapshot =? Recraft.SCAN_PAGE_SIZE)%nat)
       /\ started_at s = scan_state w ≫= started_at.
Proof.
  assert (Hdone : forall patch (r0 : Recraft.Summary) w0,
             scan_state w0 = scan_state w ->
             bind (Recraft.setScanState patch) (fun _ => ret r0) env w0 = (Ok r, w') ->
             r = r0
             /\ scan_state w'
                = Some (Recraft.merge_state patch (now w0) (scan_state w))).
  { intros patch r0 w0 Hs E. unfold bind in E.
    destruct (Recraft.setScanState patch env w0) as [[u|e] w1] eqn:E1; [|discriminate].
    apply setScanState_value in E1 as [E1 _]. injection E as <- <-.
    now rewrite E1, Hs. }
  assert (Hstart : forall p, Recraft.patch_started_at p = None ->
             forall t, started_at (Recraft.merge_state p t (scan_state w))
                       = scan_state w ≫= started_at).
  { intros p Hp t. unfold Recraft.merge_state. cbn. rewrite Hp.
    now destruct (scan_state w). }
  unfold Recraft.process_page.
  destruct snapshot as [|d0 rest] eqn:Hsnap.
  { intros E. apply Hdone in E as [-> E]; [|reflexivity].
    split; [reflexivity|]. eexists. split; [exact E|]. rewrite Hstart by reflexivity.
    now repeat split. }
  destruct (last (d0 :: rest)) as [lastDoc|] eqn:Hlast;
    [|now apply last_None in Hlast].
  destruct (List.filter Recraft.is_candidate (d0 :: rest)) as [|c0 cs].
  { intros E. apply Hdone in E as [-> E]; [|reflexivity].
    split; [reflexivity|]. eexists. split; [exact E|]. rewrite Hstart by reflexivity.
    now repeat split. }
  unfold bind at 1.
  pose proof (leaves_image_docs scan_state (fun _ _ _ _ => eq_refl) (fun _ _ => eq_refl)
                (take Recraft.BATCH_SIZE (c0 :: cs)) (Recraft.mkCounts 0 0 0) env w) as Hl.
  destruct (Recraft.process_docs (take Recraft.BATCH_SIZE (c0 :: cs))
              (Recraft.mkCounts 0 0 0) env w) as [[c|e] w1]; [|discriminate].
  cbn [snd] in Hl. intros E. apply Hdone in E as [-> E]; [|exact Hl].
  split; [reflexivity|]. eexists. split; [exact E|]. rewrite Hstart by reflexivity.
  now repeat split.
Qed.

(** X16. The scan state after an image step that returned depends on the
    page alone, not on the candidates or on their failures: the cursor is the
    id of the last document of the page (none for an empty page), [finished]
    is set exactly when the page was not full, [hasMore] is reported exactly
    when it was full, and [started_at] is what it was. *)
Theorem image_cursor_after_step env w r w' :
  Recraft.generateImagesBatch env w = (Ok r, w') ->
  let cursor := Recraft.cursor_of (default (mkScan None None None None) (scan_state w)) in
  let page := query_by_document_id cursor Recraft.SCAN_PAGE_SIZE (meals w) in
  Recraft.hasMore r = (length page =? Recraft.SCAN_PAGE_SIZE)%nat
  /\ exists s,
       scan_state w' = Some s
       /\ lastDocId s = fst <$> last page
       /\ finished s = Some (negb (Recraft.hasMore r))
       /\ started_at s = scan_state w ≫= started_at.
Proof.
  intros E cursor page. apply generateImagesBatch_page in E.
  apply process_page_state in E as (Hm & s & Hs & Hl & Hf & Hst).
  fold cursor page in Hm, Hl, Hf. split; [exact Hm|].
  exists s. rewrite Hm. now repeat split.
Qed.

Lemma image_cursor_after_step_witness :
  exists r w',
    Recraft.generateImagesBatch Sample.env_third_image_fails Sample.three_meals = (Ok r, w')
    /\ (lastDocId <$> scan_state w') = Some (Some "m3")
    /\ (finished <$> scan_state w') = Some (Some true).
Proof.
  destruct (Recraft.generateImagesBatch Sample.env_third_image_fails Sample.three_meals)
    as [[r|e] w'] eqn:E; [|vm_compute in E; discriminate].
  exists r, w'. split; [reflexivity|].
  destruct (image_cursor_after_step _ _ _ _ E) as (Hm & s & Hs & Hl & Hf & _).
  rewrite Hs. cbn [fmap option_fmap option_map]. rewrite Hl, Hf, Hm.
  split; reflexivity.
Defined.

(** The cursor the next step starts from, after a step that read a
    non-empty page. *)
Lemma image_step_new_cursor env w r w' :
  ids_nonempty (meals w) = true ->
  Recraft.generateImagesBatch env w = (Ok r, w') ->
  let cursor := Recraft.cursor_of (default (mkScan None None None None) (scan_state w)) in
  let page := query_by_document_id cursor Recraft.SCAN_PAGE_SIZE (meals w) in
  page <> [] ->
  exists lastDoc,
    last page = Some lastDoc
    /\ Recraft.cursor_of (default (mkScan None None None None) (scan_state w'))
       = Some lastDoc.1.
Proof.
  intros Hids E cursor page Hne. apply generateImagesBatch_page in E.
  apply process_page_state in E as (_ & s & Hs & Hl & _).
  fold cursor page in Hl.
  destruct (last page) as [lastDoc|] eqn:Hlast; [|now apply last_None in Hlast].
  exists lastDoc. split; [reflexivity|].
  assert (Hin : lastDoc ∈ page) by now apply last_Some_elem_of.
  rewrite Hs. change (default (mkScan None None None None) (Some s)) with s.
  unfold Recraft.cursor_of. rewrite Hl.
  cbn [fmap option_fmap option_map truthy_str].
  destruct (String.eqb_spec lastDoc.1 "") as [Hempty|_]; [|reflexivity].
  destruct lastDoc as [i d]. apply list_elem_of_In, query_by_document_id_lookup in Hin.
  now apply (ids_nonempty_lookup _ _ _ Hids) in Hin.
Qed.

(** X17. Pages of the image scan never overlap and the cursor only moves
    forward: after a step that read a non-empty page, every document the
    next step can read has an id strictly greater than every id of this
    page, and the new cursor is strictly greater than the old one.  The ids
    of the collection are taken to be non-empty. *)
Theorem image_pages_never_overlap env w r w' :
  ids_nonempty (meals w) = true ->
  Recraft.generateImagesBatch env w = (Ok r, w') ->
  let cursor := Recraft.cursor_of (default (mkScan None None None None) (scan_state w)) in
  let page := query_by_document_id cursor Recraft.SCAN_PAGE_SIZE (meals w) in
  let cursor' := Recraft.cursor_of (default (mkScan None None None None) (scan_state w')) in
  page <> [] ->
  (exists lastDoc, last page = Some lastDoc /\ cursor' = Some lastDoc.1)
  /\ (forall c c', cursor = Some c -> cursor' = Some c' -> String.ltb c c' = true)
  /\ (forall n m doc doc',
        doc ∈ page -> doc' ∈ query_by_document_id cursor' n m ->
        String.ltb doc.1 doc'.1 = true).
Proof.
  intros Hids E cursor page cursor' Hne.
  destruct (image_step_new_cursor env w r w' Hids E Hne) as (lastDoc & Hlast & Hc').
  fold cursor page in Hlast. fold cursor' in Hc'.
  assert (Hin : lastDoc ∈ page) by now apply last_Some_elem_of.
  split; [now exists lastDoc|]. split.
  - intros c c' Hc Hc2. rewrite Hc' in Hc2. injection Hc2 as <-.
    unfold page in Hin. rewrite Hc in Hin. now apply query_by_document_id_after in Hin.
  - intros n m doc doc' Hdoc Hdoc'. rewrite Hc' in Hdoc'.
    apply query_by_document_id_after in Hdoc'.
    apply (string_leb_ltb_trans _ lastDoc.1); [|exact Hdoc'].
    now apply (page_before_last cursor Recraft.SCAN_PAGE_SIZE (meals w)).
Qed.

Lemma image_pages_never_overlap_witness :
  exists r w',
    Recraft.generateImagesBatch Sample.env_fine Sample.three_meals = (Ok r, w')
    /\ Recraft.cursor_of (default (mkScan None None None None) (scan_state w')) = Some "m3".
Proof.
  destruct (Recraft.generateImagesBatch Sample.env_fine Sample.three_meals)
    as [[r|e] w'] eqn:E; [|vm_compute in E; discriminate].
  exists r, w'. split; [reflexivity|].
  destruct (image_pages_never_overlap Sample.env_fine Sample.three_meals r w' eq_refl E)
    as ((lastDoc & Hlast & ->) & _).
  - vm_compute. discriminate.
  - vm_compute in Hlast. now injection Hlast as <-.
Defined.

(** * Candidates beyond the tenth *)

Lemma frames_image_page_selected (P : string -> Prop) snapshot :
  Forall (fun doc => forall s, Recraft.meal_id doc = Some (VStr s) -> P s)
         (take Recraft.BATCH_SIZE (List.filter Recraft.is_candidate snapshot)) ->
  frames P (Recraft.process_page snapshot).
Proof.
  intros H. unfold Recraft.process_page.
  assert (Hdone : forall patch r,
             frames P (bind (Recraft.setScanState patch)
                            (fun _ => ret (r : Recraft.Summary)))).
  { intros. apply frames_bind; [apply frames_setScanState|]. intros; apply frames_ret. }
  destruct snapshot as [|d0 rest]; [apply Hdone|].
  destruct (last (d0 :: rest)); [|apply Hdone].
  destruct (List.filter Recraft.is_candidate (d0 :: rest)) as [|c0 cs]; [apply Hdone|].
  apply frames_bind; [|intros; apply Hdone]. now apply frames_image_docs.
Qed.

(** X18. A page holds up to 200 documents but a step handles ten
    candidates: a candidate beyond the tenth of its page is neither
    requested nor written by the step, it stays a candidate, and the cursor
    moves past it, so that no later page contains it until the scan starts
    over.  The documents are taken to have non-empty ids and no field
    [id]. *)
Theorem candidates_beyond_tenth_wait env w r w' doc :
  ids_nonempty (meals w) = true ->
  no_id_fields (meals w) = true ->
  Recraft.generateImagesBatch env w = (Ok r, w') ->
  let cursor := Recraft.cursor_of (default (mkScan None None None None) (scan_state w)) in
  let page := query_by_document_id cursor Recraft.SCAN_PAGE_SIZE (meals w) in
  let cursor' := Recraft.cursor_of (default (mkScan None None None None) (scan_state w')) in
  doc ∈ drop Recraft.BATCH_SIZE (List.filter Recraft.is_candidate page) ->
  Recraft.is_candidate doc = true
  /\ meals w' !! doc.1 = Some doc.2
  /\ (exists tr, trace w' = tr ++ trace w /\ doc.1 ∉ writes tr)
  /\ (forall n, doc.1 ∉ (query_by_document_id cursor' n (meals w')).*1).
Proof.
  intros Hids Hnoid E cursor page cursor' Hdoc.
  set (cands := List.filter Recraft.is_candidate page) in *.
  assert (Hcand : doc ∈ cands).
  { rewrite <- (take_drop Recraft.BATCH_SIZE cands). apply elem_of_app. now right. }
  assert (Hpage : doc ∈ page /\ Recraft.is_candidate doc = true).
  { apply list_elem_of_In, List.filter_In in Hcand as [H1 H2].
    split; [now apply list_elem_of_In|exact H2]. }
  destruct Hpage as [Hpage Hc]. split; [exact Hc|].
  assert (Hlook : meals w !! doc.1 = Some doc.2).
  { apply (query_by_document_id_lookup cursor Recraft.SCAN_PAGE_SIZE).
    destruct doc. now apply list_elem_of_In. }
  (* the ids of the handled candidates *)
  set (P := fun id : string => id ∈ (take Recraft.BATCH_SIZE cands).*1).
  assert (HnotP : ~ P doc.1).
  { unfold P. intros Hin.
    assert (Hnd : NoDup cands.*1).
    { apply (sublist_NoDup _ page.*1); [apply query_by_document_id_NoDup|].
      apply fmap_sublist, filter_sublist. }
    rewrite <- (take_drop Recraft.BATCH_SIZE cands), fmap_app in Hnd.
    apply NoDup_app in Hnd as (_ & Hdisj & _). apply (Hdisj _ Hin).
    apply list_elem_of_fmap. now exists doc. }
  assert (Epage : Recraft.process_page page env
                    (record (EvStore (MealsQuery cursor) true)
                       (record (EvStore ScanStateGet true) w)) = (Ok r, w'))
    by exact (generateImagesBatch_page env w r w' E).
  assert (Hframe : frames P (Recraft.process_page page)).
  { apply frames_image_page_selected. fold cands. apply Forall_forall.
    intros [i d] Hin s Hs. unfold P. apply list_elem_of_fmap. exists (i, d).
    split; [|exact Hin].
    assert (Hd : meals w !! i = Some d).
    { apply (query_by_document_id_lookup cursor Recraft.SCAN_PAGE_SIZE).
      apply list_elem_of_In. fold page.
      apply (elem_of_sublist (take Recraft.BATCH_SIZE cands) cands) in Hin;
        [|apply sublist_take].
      apply list_elem_of_In, List.filter_In in Hin as [Hin _].
      now apply list_elem_of_In. }
    rewrite (no_id_fields_lookup _ _ _ Hnoid Hd) in Hs. now injection Hs as <-. }
  specialize (Hframe env (record (EvStore (MealsQuery cursor) true)
                            (record (EvStore ScanStateGet true) w))).
  rewrite Epage in Hframe. destruct Hframe as (tr & T & Hw & Hm).
  cbn [snd trace meals record] in T, Hm.
  split; [now rewrite (Hm _ HnotP)|]. split.
  - exists (tr ++ [EvStore (MealsQuery cursor) true; EvStore ScanStateGet true]).
    split; [now rewrite T, <- app_assoc|].
    unfold writes. rewrite omap_app. cbn. rewrite app_nil_r.
    intros Hin. apply HnotP. rewrite Forall_forall in Hw. now apply Hw.
  - intros n Hin.
    assert (Hne : page <> []) by (intros Heq; rewrite Heq in Hpage; inversion Hpage).
    destruct (image_step_new_cursor env w r w' Hids E Hne) as (lastDoc & Hlast & Hc').
    fold cursor page in Hlast. fold cursor' in Hc'. rewrite Hc' in Hin.
    apply list_elem_of_fmap in Hin as (doc' & Heq & Hin).
    apply query_by_document_id_after in Hin.
    pose proof (page_before_last cursor Recraft.SCAN_PAGE_SIZE (meals w) doc lastDoc
                  Hlast Hpage) as Hle.
    pose proof (string_leb_ltb_trans _ _ _ Hle Hin) as Hlt.
    rewrite Heq, string_ltb_irrefl in Hlt. discriminate.
Qed.

Lemma candidates_beyond_tenth_wait_witness :
  let w' := snd (Recraft.generateImagesBatch Sample.env_fine Sample.twelve_old_meals) in
  meals w' !! "m20" = Some (Sample.old_meal "Apple" 20)
  /\ Recraft.is_candidate ("m20", Sample.old_meal "Apple" 20) = true
  /\ Recraft.cursor_of (default (mkScan None None None None) (scan_state w')) = Some "m21".
Proof.
  destruct (Recraft.generateImagesBatch Sample.env_fine Sample.twelve_old_meals)
    as [[r|e] w'] eqn:E; [|vm_compute in E; discriminate].
  cbn [snd].
  destruct (candidates_beyond_tenth_wait Sample.env_fine Sample.twelve_old_meals r w'
              ("m20", Sample.old_meal "Apple" 20) eq_refl eq_refl E)
    as (Hc & Hm & _).
  - vm_compute. apply list_elem_of_here.
  - split; [exact Hm|]. split; [exact Hc|].
    vm_compute in E. now injection E as _ <-.
Defined.


(** * Documents the ordered query does not return *)

Section Unordered.
Context (id : string) (d : Doc).

Lemma frame_elsewhere w w' :
  frame (elsewhere id) w w' ->
  meals w' !! id = meals w !! id
  /\ exists tr, trace w' = tr ++ trace w /\ id ∉ writes tr.
Proof.
  intros (tr & T & Hw & Hm). split.
  - apply Hm. unfold elsewhere. tauto.
  - exists tr. split; [exact T|]. intros Hin.
    rewrite Forall_forall in Hw. now apply (Hw id Hin).
Qed.

Lemma updateMealsInBatches_unordered startAfter env w :
  meals w !! id = Some d -> created_time d = None ->
  frame (elsewhere id) w (snd (MealUpdate.updateMealsInBatches startAfter env w)).
Proof.
  intros Hd Ht. unfold MealUpdate.updateMealsInBatches.
  pose proof (start_cursor_quiet startAfter env w) as Q.
  apply frame_bind; [now apply quiet_frame|].
  intros cursor w1 E1. rewrite E1 in Q. destruct Q as [Hm _]. cbn in Hm.
  apply frame_bind; [now apply quiet_frame, store_read_quiet|].
  intros docs w2 E2. apply store_read_value in E2 as [-> ->].
  apply frames_meal_page. apply List.Forall_forall. intros [i di] Hin _.
  apply page_row in Hin as (t & Hti & Hi & _). rewrite Hm in Hi.
  unfold elsewhere. cbn [fst]. intros ->. rewrite Hd in Hi. injection Hi as <-.
  congruence.
Qed.

Lemma updateSingleBatchOnly_unordered env w :
  meals w !! id = Some d -> created_time d = None ->
  frame (elsewhere id) w (snd (MealUpdate.updateSingleBatchOnly env w)).
Proof.
  intros Hd Ht. unfold MealUpdate.updateSingleBatchOnly.
  apply frame_rethrow.
  apply frame_bind; [now apply quiet_frame, store_read_quiet|].
  intros progressDoc w1 E1. apply store_read_value in E1 as [-> ->].
  apply frame_bind; [now apply updateMealsInBatches_unordered|].
  intros result w2 _.
  apply frames_bind; [|intros; apply frames_ret].
  destruct (MealUpdate.hasMore result && truthy_str (MealUpdate.lastProcessedId result)).
  - apply frames_bind; [apply frames_clock|]. intros t.
    apply frames_store_call; [reflexivity|]. now intros ? ? ? [= <- <-].
  - apply frames_store_call; [reflexivity|]. now intros ? ? ? [= <- <-].
Qed.

Lemma drain_unordered env fuel tp tu startAfter w out w' :
  meals w !! id = Some d -> created_time d = None ->
  MealUpdate.drain fuel tp tu startAfter env w = Some (out, w') ->
  frame (elsewhere id) w w'.
Proof.
  intros Hd Ht. revert tp tu startAfter w Hd.
  induction fuel as [|fuel IH]; intros tp tu startAfter w Hd; [discriminate|].
  cbn [MealUpdate.drain].
  pose proof (updateMealsInBatches_unordered startAfter env w Hd Ht) as Hf.
  destruct (MealUpdate.updateMealsInBatches startAfter env w) as [[result|e] w1];
    cbn [snd] in Hf; [|now intros [= _ <-]].
  destruct (negb (MealUpdate.hasMore result)); [now intros [= _ <-]|].
  intros E. apply (frame_trans _ _ w1); [exact Hf|].
  apply (frame_trans _ _ (snd (sleep 5000 env w1))); [apply frames_sleep|].
  apply IH in E; [exact E|]. cbn [sleep snd meals].
  destruct (frame_elsewhere _ _ Hf) as [Hm _]. now rewrite Hm.
Qed.

Lemma frames_releaseLock (P : string -> Prop) : frames P Lock.releaseLock.
Proof.
  unfold Lock.releaseLock. apply frames_try_catch; [|intros; apply frames_ret].
  apply frames_store_call; [reflexivity|]. now intros ? ? ? [= <- <-].
Qed.

Lemma frames_isUpdateProcessRunning (P : string -> Prop) :
  frames P Lock.isUpdateProcessRunning.
Proof.
  unfold Lock.isUpdateProcessRunning.
  apply frames_try_catch; [|intros; apply frames_ret].
  apply frames_bind.
  { apply frames_store_call; [reflexivity|]. now intros ? ? ? [= <- <-]. }
  intros [l|]; [|apply frames_ret].
  apply frames_bind; [apply frames_clock|]. intros t.
  match goal with |- context [if ?c then _ else _] => destruct c end;
    [|apply frames_ret].
  apply frames_bind; [apply frames_releaseLock|]. intros; apply frames_ret.
Qed.

Lemma frames_acquireLock (P : string -> Prop) : frames P Lock.acquireLock.
Proof.
  unfold Lock.acquireLock. apply frames_try_catch; [|intros; apply frames_ret].
  apply frames_bind; [apply frames_clock|]. intros t.
  apply frames_bind; [|intros; apply frames_ret].
  apply frames_store_call; [reflexivity|]. now intros ? ? ? [= <- <-].
Qed.

Lemma updateAllExistingMeals_unordered env fuel w r w' :
  meals w !! id = Some d -> created_time d = None ->
  MealUpdate.updateAllExistingMeals fuel env w = Some (r, w') ->
  frame (elsewhere id) w w'.
Proof.
  intros Hd Ht. unfold MealUpdate.updateAllExistingMeals.
  pose proof (frames_isUpdateProcessRunning (elsewhere id) env w) as F1.
  destruct (Lock.isUpdateProcessRunning env w) as [[[|]|e] w1] eqn:E1; cbn [snd] in F1;
    try (now intros [= _ <-]).
  pose proof (frames_acquireLock (elsewhere id) env w1) as F2.
  destruct (Lock.acquireLock env w1) as [[[|]|e] w2] eqn:E2; cbn [snd] in F2;
    try (intros [= _ <-]; now apply (frame_trans _ _ w1)).
  assert (Hd2 : meals w2 !! id = Some d).
  { apply isUpdateProcessRunning_meals in E1. apply acquireLock_meals in E2.
    now rewrite E2, E1. }
  destruct (MealUpdate.drain fuel 0 0 None env w2) as [[out w3]|] eqn:E3; [|discriminate].
  apply (drain_unordered _ _ _ _ _ _ _ _ Hd2 Ht) in E3.
  intros [= E].
  apply (frame_trans _ _ w1); [exact F1|]. apply (frame_trans _ _ w2); [exact F2|].
  apply (frame_trans _ _ w3); [exact E3|].
  pose proof (frames_releaseLock (elsewhere id) env w3) as F4.
  revert E. unfold try_finally, try_catch, bind, MealUpdate.resumed, ret, throw.
  destruct out as [totals|e];
    destruct (Lock.releaseLock env w3) as [[u|e'] w4]; cbn [snd] in F4;
    now intros [= _ <-].
Qed.

End Unordered.

(** X19. The meal migration reads its pages ordered by [created_time], and
    the ordered query returns no document that lacks the field (a field of
    any type, also [null], counts as present): a document without the field
    is never written by a scheduled step nor by a whole drain, whether or not
    it has the new description fields. *)
Theorem unordered_meals_never_reached env w id d :
  meals w !! id = Some d ->
  created_time d = None ->
  (let w' := snd (MealUpdate.updateSingleBatchOnly env w) in
   meals w' !! id = Some d
   /\ exists tr, trace w' = tr ++ trace w /\ id ∉ writes tr)
  /\ (forall fuel r w',
        MealUpdate.updateAllExistingMeals fuel env w = Some (r, w') ->
        meals w' !! id = Some d
        /\ exists tr, trace w' = tr ++ trace w /\ id ∉ writes tr).
Proof.
  intros Hd Ht. split.
  - cbv zeta. rewrite <- Hd. apply frame_elsewhere.
    now apply (updateSingleBatchOnly_unordered id d).
  - intros fuel r w' E. rewrite <- Hd. apply frame_elsewhere.
    now apply (updateAllExistingMeals_unordered id d env fuel w r w').
Qed.

Lemma unordered_meals_never_reached_witness :
  meals (snd (MealUpdate.updateSingleBatchOnly Sample.env_fine Sample.with_undated)) !! "m0"
  = Some (Sample.undated_meal "Bread").
Proof.
  apply (unordered_meals_never_reached Sample.env_fine Sample.with_undated "m0"
           (Sample.undated_meal "Bread")); reflexivity.
Defined.

(** * A cursor that names a deleted document *)

(** X20. When the document named by the progress cursor no longer exists,
    the step silently starts over: it handles the first page of the
    collection, and, if that page is full, stores its last id as the new
    cursor while adding the page to the totals accumulated so far. *)
Theorem deleted_cursor_restarts_scan env w p sid r w1 :
  progress w = Some p ->
  ProgressDoc.lastProcessedId p = Some sid ->
  meals w !! sid = None ->
  ids_nonempty (meals w) = true ->
  MealUpdate.updateSingleBatchOnly env w = (Ok r, w1) ->
  let first_page := query_by_created_time None MealUpdate.BATCH_SIZE (meals w) in
  MealUpdate.processed r = Z.of_nat (length first_page)
  /\ (MealUpdate.hasMore r = true ->
      exists t,
        progress w1
        = Some (ProgressDoc.mk
                  (Some (List.last first_page.*1 ""))
                  (Some (default 0 (ProgressDoc.totalProcessed p)
                         + Z.of_nat MealUpdate.BATCH_SIZE))
                  (Some (default 0 (ProgressDoc.totalUpdated p) + MealUpdate.updated r))
                  (Some t))).
Proof.
  intros Hp Hsid Hgone Hids E first_page.
  apply updateSingleBatchOnly_result in E as (result & w2 & E & -> & Hprog).
  rewrite Hp in E, Hprog. cbn [mbind option_bind] in E, Hprog. rewrite Hsid in E.
  destruct (batch_result _ _ _ _ _ E) as (Hproc & _ & Hmore & Hlast).
  cbn [meals record] in Hproc, Hmore, Hlast.
  assert (Hc : cursor_at (Some sid) (meals w) = None).
  { unfold cursor_at. rewrite Hgone. now destruct (truthy_str (Some sid)). }
  rewrite Hc in Hproc, Hmore, Hlast. fold first_page in Hproc, Hmore, Hlast.
  cbn [MealUpdate.processed MealUpdate.hasMore MealUpdate.updated].
  split; [exact Hproc|]. intros Hm. rewrite Hm in Hprog, Hmore.
  symmetry in Hmore. apply Z.eqb_eq in Hmore.
  destruct first_page as [|d0 rest] eqn:Hfp; [discriminate|].
  assert (Hin : In (List.last (d0 :: rest).*1 "") (d0 :: rest).*1)
    by (cbn [fmap list_fmap]; apply last_In).
  apply List.in_map_iff in Hin as ([i di] & Hi & Hin). cbn [fst] in Hi.
  assert (Hlook : meals w !! i = Some di).
  { apply (query_by_created_time_lookup None MealUpdate.BATCH_SIZE).
    fold first_page. rewrite Hfp. exact Hin. }
  assert (Hne : (i =? "")%string = false).
  { destruct (String.eqb_spec i "") as [Hempty|_]; [|reflexivity].
    now apply (ids_nonempty_lookup _ _ _ Hids) in Hlook. }
  rewrite Hlast in Hprog. change (map fst (d0 :: rest)) with (d0 :: rest).*1 in Hprog.
  rewrite <- Hi in Hprog |- *. cbn [andb truthy_str] in Hprog. rewrite Hne in Hprog.
  cbn [negb] in Hprog. exists (now w2). rewrite Hprog. repeat f_equal. lia.
Qed.

Lemma deleted_cursor_restarts_scan_witness :
  exists r w1,
    MealUpdate.updateSingleBatchOnly Sample.env_fine Sample.cursor_gone = (Ok r, w1)
    /\ MealUpdate.processed r = 5
    /\ (ProgressDoc.lastProcessedId <$> progress w1) = Some (Some "m4")
    /\ (ProgressDoc.totalProcessed <$> progress w1) = Some (Some 45).
Proof.
  destruct (MealUpdate.updateSingleBatchOnly Sample.env_fine Sample.cursor_gone)
    as [[r|e] w1] eqn:E; [|vm_compute in E; discriminate].
  exists r, w1. split; [reflexivity|].
  destruct (deleted_cursor_restarts_scan Sample.env_fine Sample.cursor_gone _ "gone" r w1
              eq_refl eq_refl eq_refl eq_refl E) as (Hproc & Hmore).
  split; [exact Hproc|].
  assert (Hm : MealUpdate.hasMore r = true)
    by (vm_compute in E; now injection E as <- _).
  destruct (Hmore Hm) as (t & ->). split; reflexivity.
Defined.

(** The ordered query returns a meal whose [created_time] is a number, and
    returns it before the meals dated by timestamps; a step that resumes
    after that meal reads on from it. *)
Example numbers_before_timestamps :
  let m : gmap string Doc := list_to_map Sample.mixed_docs in
  (query_by_created_time None 3 m).*1 = ["m0"; "m1"; "m2"]
  /\ (query_by_created_time (cursor_at (Some "m0") m) 3 m).*1 = ["m1"; "m2"; "m3"]
  /\ fst (MealUpdate.start_cursor (Some "m0") Sample.env_fine
            (Sample.world_of Sample.mixed_docs))
     = Ok (Some (VNum 99, "m0")).
Proof. vm_compute. repeat split; reflexivity. Qed.


(** * Restarting the image scan *)

(** X21. [resetRecraftScanCursor] does not catch: a store failure is thrown
    to the caller and nothing changes.  When the write is accepted, the
    cursor is cleared, [finished] is false and [started_at] is the time of
    the reset, and the next image step, wherever the scan had got to, reads
    the first page of the collection. *)
Theorem reset_restarts_scan env w :
  match store_fault env (steps w) with
  | Some msg =>
      Recraft.resetRecraftScanCursor env w
      = (Throw msg, record (EvStore ScanStateSet false) w)
  | None =>
      exists w1 s,
        Recraft.resetRecraftScanCursor env w = (Ok tt, w1)
        /\ meals w1 = meals w
        /\ scan_state w1 = Some s
        /\ lastDocId s = None /\ finished s = Some false
        /\ started_at s = Some (now w) /\ updated_at s = Some (now w)
        /\ forall env2 w2,
             scan_state w2 = scan_state w1 ->
             store_fault env2 (steps w2) = None ->
             store_fault env2 (S (steps w2)) = None ->
             Recraft.generateImagesBatch env2 w2
             = Recraft.process_page
                 (query_by_document_id None Recraft.SCAN_PAGE_SIZE (meals w2)) env2
                 (record (EvStore (MealsQuery None) true)
                    (record (EvStore ScanStateGet true) w2))
  end.
Proof.
  unfold Recraft.resetRecraftScanCursor, bind, clock, store_call.
  destruct (store_fault env (steps w)) as [msg|]; [reflexivity|].
  eexists _, _. split; [reflexivity|]. cbn.
  repeat (split; [reflexivity|]).
  intros env2 w2 Hs H0 H1.
  rewrite (generateImagesBatch_reads env2 w2 H0 H1). now rewrite Hs.
Qed.

Lemma reset_restarts_scan_witness :
  exists w1,
    Recraft.resetRecraftScanCursor Sample.env_fine Sample.scanned_to_end = (Ok tt, w1)
    /\ Recraft.generateImagesBatch Sample.env_fine w1
       = Recraft.process_page
           (query_by_document_id None Recraft.SCAN_PAGE_SIZE (meals w1)) Sample.env_fine
           (record (EvStore (MealsQuery None) true)
              (record (EvStore ScanStateGet true) w1)).
Proof.
  pose proof (reset_restarts_scan Sample.env_fine Sample.scanned_to_end) as H.
  change (store_fault Sample.env_fine (steps Sample.scanned_to_end)) with (@None string) in H.
  destruct H as (w1 & s & E & _ & _ & _ & _ & _ & _ & Hnext).
  exists w1. split; [exact E|].
  apply Hnext; [reflexivity|reflexivity|reflexivity].
Defined.

(** * The single test image *)

(** A document selected by the test function has a title for the request:
    the check [if (!englishTitle)] cannot fire. *)
Lemma needs_test_image_title doc :
  RecraftTest.needs_test_image doc = true -> truthy (Recraft.englishTitle doc.2) = true.
Proof.
  unfold RecraftTest.needs_test_image, Recraft.englishTitle, js_or, js_and.
  intros H. apply andb_prop in H as [_ H].
  destruct (truthy (member "en" (doc.2 !! "title_localized"))) eqn:Ht; [exact Ht|].
  cbv iota in H |- *. rewrite Ht in H. exact H.
Qed.

(** X22. The test function treats a failure unlike the batch job.  With the
    first document that needs an image selected from the first fifty by id:
    when the image service fails, the error is thrown to the caller and the
    collection is left as it is -- no failure marker is written; when the
    service answers and the store accepts the write, exactly that document
    is rewritten, after which it no longer needs an image. *)
Theorem test_image_outcomes env w doc rest :
  store_fault env (steps w) = None ->
  List.filter RecraftTest.needs_test_image (query_by_document_id None 50 (meals w))
  = doc :: rest ->
  has_plain_id doc = true ->
  let w1 := record (EvStore (MealsQuery None) true) w in
  match recraft env (steps w1) doc.2 with
  | inl msg =>
      RecraftTest.generateSingleTestImage env w
      = (Throw msg, record (EvRecraft (Recraft.englishTitle doc.2) false) w1)
  | inr result =>
      store_fault env (S (steps w1)) = None ->
      exists w',
        RecraftTest.generateSingleTestImage env w = (Ok tt, w')
        /\ meals w'
           = <[doc.1 := RecraftTest.test_image_patch result.1 result.2 (now w) doc.2]>
               (meals w)
        /\ RecraftTest.needs_test_image
             (doc.1, RecraftTest.test_image_patch result.1 result.2 (now w) doc.2) = false
  end.
Proof.
  intros Hio Hsel Hplain w1.
  assert (Hin : In doc (query_by_document_id None 50 (meals w))).
  { assert (H : In doc (doc :: rest)) by now left.
    rewrite <- Hsel in H. now apply List.filter_In in H. }
  assert (Hneed : RecraftTest.needs_test_image doc = true).
  { assert (H : In doc (doc :: rest)) by now left.
    rewrite <- Hsel in H. now apply List.filter_In in H. }
  assert (Hlook : meals w !! doc.1 = Some doc.2).
  { apply (query_by_document_id_lookup None 50). now destruct doc. }
  destruct (plain_meal_id doc Hplain) as [Hid Hne].
  pose proof (needs_test_image_title doc Hneed) as Htitle.
  assert (Hrun : RecraftTest.generateSingleTestImage env w
                 = bind (Recraft.generateRecraftFoodImage doc.2)
                     (fun result =>
                        bind (Recraft.doc_path (Recraft.meal_id doc))
                          (fun path =>
                             bind clock
                               (fun t =>
                                  update_doc (MealImage path) path
                                    (RecraftTest.test_image_patch result.1 result.2 t))))
                     env w1).
  { unfold RecraftTest.generateSingleTestImage. rewrite try_catch_rethrow.
    unfold bind at 1, store_call at 1. rewrite Hio. cbv beta iota. fold w1.
    destruct (query_by_document_id None 50 (meals w)) as [|d0 ds] eqn:Hq;
      [contradiction|].
    rewrite Hsel, Htitle, Hid. cbn [negb truthy]. now rewrite Hne. }
  rewrite Hrun. unfold bind at 1, Recraft.generateRecraftFoodImage.
  destruct (recraft env (steps w1) doc.2) as [msg|result] eqn:Hr; [reflexivity|].
  intros Hio2. rewrite Hid. cbn [Recraft.doc_path].
  unfold bind, ret, clock, update_doc. rewrite Hne. unfold store_call.
  subst w1. cbn [steps record meals now] in Hio2, Hr |- *. rewrite Hr.
  cbn [steps record meals now]. rewrite Hio2, Hlook.
  eexists. split; [reflexivity|]. split; [reflexivity|].
  unfold RecraftTest.needs_test_image, Recraft.needsRegeneration,
    RecraftTest.test_image_patch. cbn [fst snd]. now simplify_map_eq.
Qed.

Lemma test_image_outcomes_witness :
  exists w',
    RecraftTest.generateSingleTestImage Sample.env_fine Sample.three_meals = (Ok tt, w')
    /\ (meals w' !! "m1") ≫= (.!! "image_generation_source") = Some (VStr "recraft-v3").
Proof.
  pose proof (test_image_outcomes Sample.env_fine Sample.three_meals
                ("m1", Sample.old_meal "Apple" 10)
                [("m3", Sample.new_meal "Carrot soup" 30)]
                eq_refl eq_refl eq_refl) as H.
  cbv zeta in H.
  change (recraft Sample.env_fine _ _) with
    (@inr string (string * string) ("https://img/1.webp", "LEHV6n")) in H.
  destruct (H eq_refl) as (w' & E & Hm & _).
  exists w'. split; [exact E|]. rewrite Hm. reflexivity.
Defined.

(** X23. The test endpoint answers 200 whenever [generateSingleTestImage]
    returns, also when there was nothing to generate: if no document among
    the first fifty needs an image, no image is requested and nothing is
    written, whatever the store does after the first read, and the answer
    is still 200. *)
Theorem test_endpoint_success_without_image env w :
  store_fault env (steps w) = None ->
  List.filter RecraftTest.needs_test_image (query_by_document_id None 50 (meals w)) = [] ->
  exists w',
    Triggers.testRecraftImageGeneration env w = (Ok 200, w')
    /\ quiet w w'
    /\ exists tr, trace w' = tr ++ trace w /\ image_requests tr = 0%nat.
Proof.
  intros Hio Hnone. unfold Triggers.testRecraftImageGeneration, try_catch.
  unfold bind at 1. unfold RecraftTest.generateSingleTestImage.
  rewrite try_catch_rethrow. unfold bind at 1, store_call at 1. rewrite Hio.
  cbv beta iota.
  destruct (query_by_document_id None 50 (meals w)) as [|d0 ds].
  { eexists. split; [reflexivity|]. split.
    - split; [reflexivity|]. now exists [EvStore (MealsQuery None) true].
    - now exists [EvStore (MealsQuery None) true]. }
  rewrite Hnone. unfold RecraftTest.debugMealPhotos, try_catch, bind, store_call, ret.
  cbn [steps record].
  destruct (store_fault env (S (steps w))).
  - eexists. split; [reflexivity|]. split.
    + split; [reflexivity|].
      now exists [EvStore (MealsQuery None) false; EvStore (MealsQuery None) true].
    + now exists [EvStore (MealsQuery None) false; EvStore (MealsQuery None) true].
  - eexists. split; [reflexivity|]. split.
    + split; [reflexivity|].
      now exists [EvStore (MealsQuery None) true; EvStore (MealsQuery None) true].
    + now exists [EvStore (MealsQuery None) true; EvStore (MealsQuery None) true].
Qed.

Lemma test_endpoint_success_without_image_witness :
  exists w',
    Triggers.testRecraftImageGeneration Sample.env_offline
      (Sample.world_of [("m2", Sample.recraft_meal "Banana" 20)]) = (Ok 200, w')
    /\ meals w' = meals (Sample.world_of [("m2", Sample.recraft_meal "Banana" 20)]).
Proof.
  destruct (test_endpoint_success_without_image Sample.env_offline
              (Sample.world_of [("m2", Sample.recraft_meal "Banana" 20)])
              eq_refl eq_refl) as (w' & E & [Hm _] & _).
  exists w'. split; [exact E|exact Hm].
Defined.

(** * The limited update *)

Lemma limited_docs_total docs u : total (MealAdmin.limited_docs docs u).
Proof.
  revert u. induction docs as [|[id meal] rest IH]; intros u env w.
  - cbn. unfold ret. eauto.
  - cbn [MealAdmin.limited_docs]. unfold bind at 1. unfold try_catch, bind at 1.
    destruct (attempts_total (Z.to_nat MealUpdate.maxRetries) 1 id meal env w)
      as (b & w1 & E).
    unfold MealUpdate.updateSingleMeal. rewrite E. unfold ret at 1. apply IH.
Qed.

Lemma frames_limited_docs (P : string -> Prop) docs u :
  Forall (fun doc : string * Doc => MealUpdate.already_updated doc.2 = false -> P doc.1)
         docs ->
  frames P (MealAdmin.limited_docs docs u).
Proof.
  intros H. revert u. induction H as [|[id meal] rest Hd _ IH]; intros u.
  - apply frames_ret.
  - cbn [MealAdmin.limited_docs]. apply frames_bind; [|intros; apply IH].
    apply frames_try_catch; [|intros; apply frames_ret].
    apply frames_bind; [|intros; apply frames_ret].
    now apply frames_attempts.
Qed.

(** X24. [updateLimitedMeals] fails only on its query: when the query is
    rejected the error is thrown and nothing else happens; otherwise it
    returns normally, whatever happens to the single meals.  Its writes go
    only to documents among the first [limit] by id that lack one of the
    new fields; every other document is left as it is. *)
Theorem limited_update_outcome limit env w :
  match store_fault env (steps w) with
  | Some msg =>
      MealAdmin.updateLimitedMeals limit env w
      = (Throw msg, record (EvStore (MealsQuery None) false) w)
  | None =>
      exists w',
        MealAdmin.updateLimitedMeals limit env w = (Ok tt, w')
        /\ frame (fun id =>
                    exists d,
                      In (id, d) (query_by_document_id None (Pos.to_nat limit) (meals w))
                      /\ MealUpdate.already_updated d = false) w w'
  end.
Proof.
  destruct (store_fault env (steps w)) as [msg|] eqn:Hio;
    unfold MealAdmin.updateLimitedMeals; rewrite try_catch_rethrow;
    unfold bind at 1, store_call at 1; rewrite Hio; [reflexivity|].
  cbv beta iota.
  set (P := fun id => exists d,
              In (id, d) (query_by_document_id None (Pos.to_nat limit) (meals w))
              /\ MealUpdate.already_updated d = false).
  set (w1 := record (EvStore (MealsQuery None) true) w).
  assert (Hw1 : frame P w w1).
  { exists [EvStore (MealsQuery None) true]. repeat split; auto. }
  destruct (query_by_document_id None (Pos.to_nat limit) (meals w)) as [|d0 rest] eqn:Hq.
  { exists w1. split; [reflexivity|exact Hw1]. }
  assert (Hf : frames P (MealAdmin.limited_docs (d0 :: rest) 0)).
  { apply frames_limited_docs. apply Forall_forall. intros [i di] Hin Hup.
    exists di. split; [|exact Hup]. now apply list_elem_of_In. }
  specialize (Hf env w1). unfold bind.
  destruct (limited_docs_total (d0 :: rest) 0 env w1) as (u' & w' & E).
  rewrite E in Hf |- *. exists w'. split; [reflexivity|].
  now apply (frame_trans P w w1 w').
Qed.

Lemma limited_update_outcome_witness :
  exists w',
    MealAdmin.updateLimitedMeals 1 Sample.env_fine Sample.with_undated = (Ok tt, w')
    /\ meals w' !! "m1" = Some (Sample.old_meal "Apple" 10).
Proof.
  pose proof (limited_update_outcome 1 Sample.env_fine Sample.with_undated) as H.
  change (store_fault Sample.env_fine (steps Sample.with_undated)) with (@None string) in H.
  destruct H as (w' & E & tr & _ & _ & Hm).
  exists w'. split; [exact E|]. rewrite Hm; [reflexivity|].
  intros (d & Hin & _). vm_compute in Hin. destruct Hin as [Hin|[]]. discriminate.
Defined.


(** * The answer of the language model *)

(** X25. The extractor reads back what the message builders build: from a
    response whose first choice carries a message made by [textMsg] it
    returns that text; from one made by [imageMsg] it returns the
    accompanying text, or the empty string when there is none (the image
    block is passed over); a plain string content is returned as it is; and
    a response without choices gives the empty string. *)
Theorem extract_reads_built_messages role text imageUrl textContent :
  let response message := Some (VObj [("choices", VArr [VObj [("message", message)]])]) in
  OpenAI.extractTextFromChat (response (OpenAI.textMsg role text)) = VStr text
  /\ OpenAI.extractTextFromChat (response (OpenAI.imageMsg role imageUrl textContent))
     = VStr (if truthy_str textContent then default "" textContent else "")
  /\ OpenAI.extractTextFromChat
       (response (VObj [("role", VStr role); ("content", VStr text)])) = VStr text
  /\ OpenAI.extractTextFromChat (Some (VObj [("choices", VArr [])])) = VStr ""
  /\ OpenAI.extractTextFromChat None = VStr "".
Proof.
  cbv zeta. repeat split; try reflexivity.
  unfold OpenAI.imageMsg. now destruct (truthy_str textContent).
Qed.

(** * Cleaning the answer *)

Section Cleaning.
Import Text.

Lemma trimStart_blank ws x : blank ws -> trimStart (ws ++ x) = trimStart x.
Proof. induction 1 as [|c ws Hc _ IH]; [reflexivity|]. cbn. now rewrite Hc. Qed.

Lemma trimStart_head x c : head x = Some c -> is_space c = false -> trimStart x = x.
Proof. destruct x as [|c' x]; [discriminate|]. intros [= ->] Hc. cbn. now rewrite Hc. Qed.

Lemma trimEnd_blank ws x : blank ws -> trimEnd (x ++ ws) = trimEnd x.
Proof.
  intros H. unfold trimEnd. rewrite rev_app_distr, trimStart_blank; [reflexivity|].
  unfold blank in *. rewrite Forall_forall in H |- *. intros c Hc. apply H.
  now apply list_elem_of_In, in_rev, list_elem_of_In in Hc.
Qed.

Lemma head_rev_last (x : str) : head (rev x) = last x.
Proof.
  induction x as [|c x IH] using rev_ind; [reflexivity|].
  now rewrite rev_app_distr, last_snoc.
Qed.

Lemma trimEnd_last x c : last x = Some c -> is_space c = false -> trimEnd x = x.
Proof.
  intros Hl Hc. unfold trimEnd. rewrite (trimStart_head (rev x) c).
  - apply rev_involutive.
  - now rewrite head_rev_last.
  - exact Hc.
Qed.

Lemma startsWith_app s p : startsWith (p ++ s) p = true.
Proof. induction p as [|a p IH]; [now destruct s|]. cbn. now rewrite N.eqb_refl. Qed.

Lemma endsWith_app s p : endsWith (s ++ p) p = true.
Proof. unfold endsWith. rewrite rev_app_distr. apply startsWith_app. Qed.

Lemma startsWith_head s p a c :
  head s = Some c -> head p = Some a -> c <> a -> startsWith s p = false.
Proof.
  destruct s as [|c' s]; [discriminate|]. destruct p as [|a' p]; [discriminate|].
  intros [= ->] [= ->] Hne. cbn. destruct (N.eqb_spec a c); [congruence|reflexivity].
Qed.

Lemma endsWith_last s p a c :
  last s = Some c -> last p = Some a -> c <> a -> endsWith s p = false.
Proof.
  intros Hs Hp. unfold endsWith. apply startsWith_head; now rewrite head_rev_last.
Qed.

Lemma head_app_Some (x y : str) c : head x = Some c -> head (x ++ y) = Some c.
Proof. now destruct x. Qed.

Lemma last_app_Some_r (x y : str) c : last y = Some c -> last (x ++ y) = Some c.
Proof. intros H. rewrite last_app. now rewrite H. Qed.

Lemma trim_bare_between ws1 ws2 x :
  blank ws1 -> blank ws2 ->
  (exists c, head x = Some c /\ is_space c = false) ->
  (exists c, last x = Some c /\ is_space c = false) ->
  trim (ws1 ++ x ++ ws2) = x.
Proof.
  intros H1 H2 (c & Hh & Hc) (c' & Hl & Hc'). unfold trim.
  rewrite (trimStart_blank ws1 _ H1).
  rewrite (trimStart_head (x ++ ws2) c (head_app_Some _ _ _ Hh) Hc).
  rewrite (trimEnd_blank ws2 x H2). now apply (trimEnd_last x c').
Qed.

(** X26. What reaches [JSON.parse].  A text with no fence is only trimmed.
    A body wrapped in a [json] fence, or in a plain fence, with any white
    space around the fences, is recovered exactly, provided the body
    itself neither starts nor ends with white space or a backquote (and,
    for the plain fence, is not mistaken for the [json] tag). *)
Theorem cleaning_recovers_body ws1 ws2 ws3 ws4 x :
  blank ws1 -> blank ws2 -> blank ws3 -> blank ws4 ->
  bare x ->
  cleanedText (ws1 ++ x ++ ws4) = x
  /\ cleanedText (ws1 ++ json_fence ++ ws2 ++ x ++ ws3 ++ fence ++ ws4) = x
  /\ (head (ws2 ++ x) <> Some 106%N ->
      cleanedText (ws1 ++ fence ++ ws2 ++ x ++ ws3 ++ fence ++ ws4) = x).
Proof.
  intros H1 H2 H3 H4 [(c & Hh & Hc & Hq) (c' & Hl & Hc' & Hq')].
  assert (Hx : forall a b, blank a -> blank b -> trim (a ++ x ++ b) = x).
  { intros a b Ha Hb. apply trim_bare_between; eauto. }
  assert (Hnf : startsWith x json_fence = false /\ startsWith x fence = false
                /\ endsWith x fence = false).
  { split; [|split].
    - apply (startsWith_head _ _ 96%N c); auto.
    - apply (startsWith_head _ _ 96%N c); auto.
    - apply (endsWith_last _ _ 96%N c'); auto. }
  destruct Hnf as (Hnj & Hnf & Hne).
  assert (Hxx : trim x = x).
  { specialize (Hx [] [] (List.Forall_nil _) (List.Forall_nil _)). now rewrite app_nil_r in Hx. }
  assert (Htail : forall pre, trimEnd (pre ++ x ++ ws3) = pre ++ x).
  { intros pre. rewrite app_assoc, (trimEnd_blank ws3 _ H3).
    apply (trimEnd_last _ c'); [now apply last_app_Some_r|exact Hc']. }
  assert (Hbody : forall f,
             head f = Some 96%N ->
             trim (ws1 ++ f ++ ws2 ++ x ++ ws3 ++ fence ++ ws4)
             = f ++ ws2 ++ x ++ ws3 ++ fence).
  { intros f Hfh.
    replace (ws1 ++ f ++ ws2 ++ x ++ ws3 ++ fence ++ ws4)
      with (ws1 ++ (f ++ ws2 ++ x ++ ws3 ++ fence) ++ ws4)
      by (now rewrite <- !app_assoc).
    apply trim_bare_between; auto.
    - exists 96%N. split; [now apply head_app_Some|reflexivity].
    - exists 96%N. split; [|reflexivity].
      rewrite !app_assoc. now apply last_app_Some_r. }
  assert (Hrest : forall s,
             startsWith s json_fence = false -> startsWith s fence = true ->
             strip_leading fence s = x ++ ws3 ++ fence ->
             (let c0 := s in
              let c1 := if startsWith c0 json_fence then strip_leading json_fence c0
                        else c0 in
              let c2 := if startsWith c1 fence then strip_leading fence c1 else c1 in
              let c3 := if endsWith c2 fence then strip_trailing fence c2 else c2 in
              trim c3) = x).
  { intros s Hj Hf Hs. cbv zeta. rewrite Hj, Hf, Hs.
    replace (x ++ ws3 ++ fence) with ((x ++ ws3) ++ fence) by now rewrite <- app_assoc.
    rewrite endsWith_app. unfold strip_trailing. rewrite endsWith_app.
    rewrite length_app, Nat.add_sub, take_app_length.
    specialize (Htail []). cbn [app] in Htail. now rewrite Htail. }
  split; [|split].
  - unfold cleanedText. rewrite (Hx ws1 ws4 H1 H4), Hnj, Hnf, Hne. exact Hxx.
  - unfold cleanedText. rewrite (Hbody json_fence eq_refl).
    rewrite startsWith_app.
    assert (Hs1 : strip_leading json_fence (json_fence ++ ws2 ++ x ++ ws3 ++ fence)
                  = x ++ ws3 ++ fence).
    { unfold strip_leading. rewrite startsWith_app, drop_app_length.
      rewrite (trimStart_blank ws2 _ H2).
      apply (trimStart_head _ c); [now apply head_app_Some|exact Hc]. }
    rewrite Hs1.
    assert (Hf2 : startsWith (x ++ ws3 ++ fence) fence = false).
    { apply (startsWith_head _ _ 96%N c); auto. now apply head_app_Some. }
    rewrite Hf2.
    replace (x ++ ws3 ++ fence) with ((x ++ ws3) ++ fence) by now rewrite <- app_assoc.
    rewrite endsWith_app. unfold strip_trailing. rewrite endsWith_app.
    rewrite length_app, Nat.add_sub, take_app_length.
    specialize (Htail []). cbn [app] in Htail. now rewrite Htail.
  - intros Hnot. unfold cleanedText. rewrite (Hbody fence eq_refl).
    apply Hrest.
    + change json_fence with (fence ++ lit "json").
      assert (Hp : forall (a s p : str), startsWith (a ++ s) (a ++ p) = startsWith s p).
      { induction a as [|k a IH]; intros s p; [reflexivity|].
        cbn. now rewrite N.eqb_refl, IH. }
      rewrite Hp.
      destruct (head (ws2 ++ x)) as [k|] eqn:Hk.
      * apply (startsWith_head _ _ 106%N k); [|reflexivity|congruence].
        rewrite app_assoc. now apply head_app_Some.
      * destruct ws2; [|discriminate]. cbn in Hk. congruence.
    + apply startsWith_app.
    + unfold strip_leading. rewrite startsWith_app, drop_app_length.
      rewrite (trimStart_blank ws2 _ H2).
      apply (trimStart_head _ c); [now apply head_app_Some|exact Hc].
Qed.

Lemma cleaning_recovers_body_witness :
  cleanedText (lit "  " ++ json_fence ++ [10%N] ++ lit "{}" ++ [10%N] ++ fence ++ [10%N])
  = lit "{}".
Proof.
  assert (Hnl : blank [10%N]) by (repeat constructor).
  assert (Hsp : blank (lit "  ")) by (repeat constructor).
  assert (Hb : bare (lit "{}")).
  { split.
    - exists 123%N. split; [reflexivity|split; [reflexivity|discriminate]].
    - exists 125%N. split; [reflexivity|split; [reflexivity|discriminate]]. }
  destruct (cleaning_recovers_body (lit "  ") [10%N] [10%N] [10%N] (lit "{}")
              Hsp Hnl Hnl Hnl Hb) as (_ & H & _).
  exact H.
Defined.

End Cleaning.

(** * The prompt and the file name of an image *)

Section Prompt.
Import Text.
Variable toLowerCase : str -> str.

Lemma startsWith_nil (s : str) : startsWith s [] = true.
Proof. now destruct s. Qed.

Lemma startsWith_prefix (s p t : str) : startsWith p t = true -> startsWith (p ++ s) t = true.
Proof.
  revert p. induction t as [|a t IH]; intros p; [intros _; apply startsWith_nil|].
  destruct p as [|b p]; [discriminate|]. cbn.
  intros H. apply andb_prop in H as [-> H]. now apply IH.
Qed.

Lemma startsWith_take (s : str) n : startsWith s (take n s) = true.
Proof.
  revert n. induction s as [|a s IH]; intros [|n]; try reflexivity.
  cbn. now rewrite N.eqb_refl, IH.
Qed.

Lemma startsWith_take_app (a b : str) n : startsWith (a ++ b) (take n a) = true.
Proof. apply startsWith_prefix, startsWith_take. Qed.

Lemma startsWith_take_take (s : str) n m :
  (n <= m)%nat -> startsWith (take m s) (take n s) = true.
Proof.
  intros H. replace (take n s) with (take n (take m s)) by (rewrite take_take; f_equal; lia).
  apply startsWith_take.
Qed.

(** X27. The prompt sent to the image service is at most 1000 code units
    long, whatever the title and the description; it begins with the fixed
    opening and the title, as far as the first 997 units go; and a
    description of 200 units or more is left out altogether, as an empty
    one is. *)
Theorem prompt_within_limit title description mealType tags :
  let prompt := createSmartFoodPrompt toLowerCase title description mealType tags in
  let opening := lit "Professional food photography of " ++ title in
  (length prompt <= 1000)%nat
  /\ startsWith prompt (take 997 opening) = true
  /\ ((200 <= length description)%nat ->
      prompt = createSmartFoodPrompt toLowerCase title [] mealType tags).
Proof.
  cbv zeta. split; [|split].
  - unfold createSmartFoodPrompt.
    match goal with |- context [(1000 <? length ?p)%nat] =>
      generalize p as prompt; intros prompt end.
    destruct (Nat.ltb_spec 1000 (length prompt)) as [Hlong|Hshort]; [|lia].
    rewrite length_app, length_take. change (length (lit "...")) with 3%nat. lia.
  - unfold createSmartFoodPrompt.
    set (opening := lit "Professional food photography of " ++ title).
    assert (Hopen : forall rest n, startsWith ((opening ++ lit ". ") ++ rest) (take n opening)
                                   = true).
    { intros rest n. rewrite <- app_assoc. apply startsWith_take_app. }
    assert (Hfull : forall full,
               startsWith full (take 997 opening) = true ->
               startsWith (if (1000 <? length full)%nat then take 997 full ++ lit "..."
                           else full) (take 997 opening) = true).
    { intros full H. destruct (1000 <? length full)%nat; [|exact H].
      apply startsWith_prefix.
      assert (Hgen : forall (s t : str) n, startsWith s t = true ->
                       startsWith (take n s) (take n t) = true).
      { induction s as [|a s IH]; intros [|b t] [|n]; cbn; try reflexivity;
          try discriminate.
        intros Hs. apply andb_prop in Hs as [-> Hs]. cbn. now apply IH. }
      specialize (Hgen _ _ 997%nat H). now rewrite take_take, Nat.min_id in Hgen. }
    apply Hfull.
    change (lit "Professional food photography of " ++ title ++ lit ". ")
      with (lit "Professional food photography of " ++ (title ++ lit ". ")).
    rewrite (app_assoc (lit "Professional food photography of ") title (lit ". ")).
    fold opening.
    destruct (negb (bool_decide (description = [])) && (length description <? 200)%nat);
      rewrite <- ?app_assoc; apply startsWith_take_app.
  - intros Hlen. unfold createSmartFoodPrompt.
    replace (length description <? 200)%nat with false
      by (symmetry; apply Nat.ltb_ge; lia).
    now rewrite andb_false_r.
Qed.

(** ** The file name *)

Lemma no_double_prefix (l1 l2 : str) : no_double (l1 ++ l2) = true -> no_double l1 = true.
Proof.
  induction l1 as [|a l1 IH]; [reflexivity|].
  destruct l1 as [|b l1]; [reflexivity|].
  cbn [app no_double]. intros H. apply andb_prop in H as [H1 H2].
  rewrite H1. cbn [andb]. now apply IH.
Qed.

Lemma no_double_tail a (l : str) : no_double (a :: l) = true -> no_double l = true.
Proof. destruct l as [|b l]; [reflexivity|]. cbn [no_double]. intros H. now apply andb_prop in H. Qed.

Lemma collapse_shape (s : str) :
  no_double (collapse s) = true /\ head (collapse s) = head s.
Proof.
  induction s as [|a rest [IH1 IH2]]; [now split|].
  cbn [collapse]. destruct rest as [|b r]; [now split|].
  destruct ((a =? underscore) && (b =? underscore))%N eqn:E.
  - split; [exact IH1|]. rewrite IH2. cbn.
    apply andb_prop in E as [Ea Eb]. apply N.eqb_eq in Ea, Eb. congruence.
  - split; [|reflexivity].
    destruct (collapse (b :: r)) as [|b' r'] eqn:Hc; [reflexivity|].
    cbn in IH2. injection IH2 as Hb. rewrite Hb in IH1 |- *.
    change (no_double (a :: b :: r'))
      with (negb ((a =? underscore) && (b =? underscore))%N && no_double (b :: r')).
    now rewrite E, IH1.
Qed.

Lemma collapse_chars (P : N -> Prop) (s : str) : Forall P s -> Forall P (collapse s).
Proof.
  induction s as [|a rest IH]; [constructor|]. intros H.
  apply Forall_cons in H as [Ha Hrest]. cbn [collapse].
  destruct rest as [|b r]; [now repeat constructor|].
  destruct ((a =? underscore) && (b =? underscore))%N; [now apply IH|].
  constructor; [exact Ha|now apply IH].
Qed.

Lemma strip_underscores_shape (s : str) :
  no_double s = true ->
  no_double (strip_underscores s) = true
  /\ head (strip_underscores s) <> Some underscore
  /\ exists pre post, s = pre ++ strip_underscores s ++ post.
Proof.
  intros Hnd. unfold strip_underscores.
  set (s1 := match s with
             | c :: rest => if (c =? underscore)%N then rest else s
             | [] => []
             end).
  assert (H1 : no_double s1 = true /\ head s1 <> Some underscore
               /\ exists pre, s = pre ++ s1).
  { subst s1. destruct s as [|c rest]; [repeat split; [discriminate|now exists []]|].
    destruct (N.eqb_spec c underscore) as [->|Hc].
    - split; [now apply no_double_tail in Hnd|]. split; [|now exists [underscore]].
      destruct rest as [|b r]; [discriminate|]. cbn [no_double] in Hnd.
      apply andb_prop in Hnd as [Hnd _]. rewrite N.eqb_refl in Hnd. cbn [andb] in Hnd.
      apply negb_true_iff, N.eqb_neq in Hnd. cbn [head]. congruence.
    - split; [exact Hnd|]. split; [cbn; congruence|now exists []]. }
  destruct H1 as (Hnd1 & Hh1 & pre & Hpre).
  destruct (rev s1) as [|c rest] eqn:Hrev.
  { split; [reflexivity|]. split; [discriminate|]. exists s, []. now rewrite app_nil_r. }
  assert (Hs1 : s1 = rev rest ++ [c]).
  { rewrite <- (rev_involutive s1), Hrev. reflexivity. }
  destruct (c =? underscore)%N.
  - split; [rewrite Hs1 in Hnd1; now apply no_double_prefix in Hnd1|]. split.
    + intros Hh. apply Hh1. rewrite Hs1. destruct (rev rest); [discriminate|exact Hh].
    + exists pre, [c]. now rewrite <- Hs1.
  - split; [exact Hnd1|]. split; [exact Hh1|]. exists pre, []. now rewrite app_nil_r.
Qed.

(** X28. The file name of an image starts with a slug of the title: at most
    20 code units, each a lower-case letter, a digit or an underscore; it
    never starts with an underscore and never has two in a row.  A title
    without any letter or digit of that range (a title in another script,
    say) gives the empty slug. *)
Theorem slug_shape englishTitle :
  let s := slug toLowerCase englishTitle in
  (length s <= 20)%nat
  /\ Forall (fun c => is_slug_char c = true \/ c = underscore) s
  /\ head s <> Some underscore
  /\ no_double s = true
  /\ (Forall (fun c => is_slug_char c = false) (toLowerCase englishTitle) -> s = []).
Proof.
  cbv zeta. unfold slug.
  set (mapped := (fun c => if is_slug_char c then c else underscore)
                   <$> toLowerCase englishTitle).
  assert (Hchars : Forall (fun c => is_slug_char c = true \/ c = underscore) mapped).
  { unfold mapped. apply Forall_fmap, Forall_forall. intros c _. cbn.
    destruct (is_slug_char c) eqn:E; auto. }
  destruct (collapse_shape mapped) as [Hnd Hhead].
  destruct (strip_underscores_shape (collapse mapped) Hnd) as (Hnd2 & Hh2 & pre & post & Hsplit).
  split; [rewrite length_take; lia|]. split; [|split; [|split]].
  - apply Forall_take. apply (collapse_chars _ _) in Hchars.
    rewrite Hsplit in Hchars. apply Forall_app in Hchars as [_ Hchars].
    now apply Forall_app in Hchars as [Hchars _].
  - intros Hh. apply Hh2.
    destruct (strip_underscores (collapse mapped)) as [|c r]; [discriminate|exact Hh].
  - rewrite <- (take_drop 20 (strip_underscores (collapse mapped))) in Hnd2.
    now apply no_double_prefix in Hnd2.
  - intros Hnone.
    assert (Hall : Forall (fun c => c = underscore) mapped).
    { unfold mapped. apply Forall_fmap. rewrite Forall_forall in Hnone |- *.
      intros c Hc. cbn. now rewrite (Hnone c Hc). }
    apply (collapse_chars _ _) in Hall.
    destruct (collapse mapped) as [|a [|b r]] eqn:Hc; [reflexivity| |].
    + apply Forall_cons in Hall as [-> _]. reflexivity.
    + apply Forall_cons in Hall as [-> Hall]. apply Forall_cons in Hall as [-> _].
      discriminate.
Qed.

End Prompt.

Lemma prompt_within_limit_witness :
  Text.createSmartFoodPrompt (fun s => s) (Text.lit "Carrot soup") (repeat 120%N 200)
    (Text.lit "full_meal") []
  = Text.createSmartFoodPrompt (fun s => s) (Text.lit "Carrot soup") []
      (Text.lit "full_meal") [].
Proof.
  apply (prompt_within_limit (fun s => s) (Text.lit "Carrot soup") (repeat 120%N 200)
           (Text.lit "full_meal") []).
  rewrite repeat_length. lia.
Defined.

Lemma slug_shape_witness :
  Text.slug (fun s => s) [1073%N; 1086%N; 1088%N; 1097%N] = [].
Proof.
  apply (slug_shape (fun s => s) [1073%N; 1086%N; 1088%N; 1097%N]).
  repeat constructor.
Defined.


(** * Order of the pages of the meal migration *)

Lemma key_leb_total a b : key_leb a b = true \/ key_leb b a = true.
Proof.
  unfold key_leb. rewrite !key_ltb_cases.
  pose proof (value_compare_antisym a.1 b.1) as H.
  destruct (value_compare a.1 b.1) eqn:E; cbn in H.
  - destruct (String.leb_total a.2 b.2) as [L|L]; [left|right]; right; auto.
  - left. now left.
  - right. now left.
Qed.

Lemma key_leb_trans a b c : key_leb a b = true -> key_leb b c = true -> key_leb a c = true.
Proof. apply key_order_trans, string_leb_trans. Qed.

Lemma key_leb_ltb_trans a b c :
  key_leb a b = true -> key_ltb b c = true -> key_ltb a c = true.
Proof. apply key_order_trans, string_leb_ltb_trans. Qed.

Lemma key_leb_refl a : key_leb a a = true.
Proof. destruct (key_leb_total a a); assumption. Qed.

Lemma row_le_total : Total row_le.
Proof. intros a b. apply key_leb_total. Qed.

Lemma row_le_trans : Transitive row_le.
Proof. intros a b c. apply key_leb_trans. Qed.

(** The rows behind a page of the meal migration. *)
Lemma page_rows_sorted cursor n m :
  StronglySorted row_le (take n (List.filter (after_key cursor) (by_created_time m))).
Proof.
  apply (StronglySorted_sublist _ _ (by_created_time m)).
  - etransitivity; [apply sublist_take|apply filter_sublist].
  - apply StronglySorted_merge_sort; [apply row_le_trans|apply row_le_total].
Qed.

Lemma stdlib_last {A} (l : list A) x d : last l = Some x -> List.last l d = x.
Proof. intros H. apply last_Some in H as [l' ->]. apply last_last. Qed.

(** Every document of a page is at or before the last one, in the order of
    [created_time] and id. *)
Lemma meal_page_before_last cursor n m id d :
  In (id, d) (query_by_created_time cursor n m) ->
  exists t t_l d_l,
    created_time d = Some t
    /\ m !! List.last (map fst (query_by_created_time cursor n m)) "" = Some d_l
    /\ created_time d_l = Some t_l
    /\ key_leb (t, id) (t_l, List.last (map fst (query_by_created_time cursor n m)) "")
       = true.
Proof.
  unfold query_by_created_time.
  set (L := take n (List.filter (after_key cursor) (by_created_time m))).
  pose proof (page_rows_sorted cursor n m) as Hs. fold L in Hs.
  assert (Hrow : forall r, r ∈ L -> m !! r.1.2 = Some r.2 /\ created_time r.2 = Some r.1.1).
  { intros [[t i] di] Hr. apply (elem_of_sublist _ (by_created_time m)) in Hr;
      [|etransitivity; [apply sublist_take|apply filter_sublist]].
    unfold by_created_time in Hr. rewrite merge_sort_Permutation in Hr.
    now apply rows_elem in Hr. }
  intros Hin. apply List.in_map_iff in Hin as (r & Heq & Hr).
  apply list_elem_of_In in Hr.
  destruct (last L) as [r_l|] eqn:Hlast;
    [|apply last_None in Hlast; rewrite Hlast in Hr; inversion Hr].
  assert (Hid : List.last (map fst ((fun r : Value * string * Doc => (r.1.2, r.2)) <$> L)) ""
                = r_l.1.2).
  { apply stdlib_last. change (map fst ?l) with (fst <$> l).
    now rewrite !fmap_last, Hlast. }
  rewrite Hid.
  destruct (Hrow r Hr) as [_ Ht]. destruct (Hrow r_l (last_Some_elem_of _ _ Hlast)) as [Hdl Htl].
  injection Heq as <- <-.
  exists r.1.1, r_l.1.1, r_l.2. repeat split; auto.
  apply last_Some in Hlast as [L' HL]. rewrite HL in Hs, Hr.
  apply elem_of_app in Hr as [Hr|Hr].
  - pose proof (StronglySorted_app_1_elem_of _ _ _ r r_l Hs Hr (list_elem_of_here _ _)) as H.
    unfold row_le in H. now destruct r as [[? ?] ?], r_l as [[? ?] ?].
  - apply list_elem_of_singleton in Hr as ->.
    destruct r_l as [[? ?] ?]. apply key_leb_refl.
Qed.

(** X29. Pages of the meal migration never overlap: when a batch reports
    more work, every document of the page that starts after its last
    processed id comes strictly later, by [created_time] and then id, than
    every document of the page just handled; in particular it is a
    different document.  The order is that of the query: the values of
    [created_time], of whatever type, then the ids.  No answer of the model is
    taken to write to [created_time], with the key itself or with a dotted key
    that leads inside it, and the ids are taken to be non-empty. *)
Theorem meal_pages_never_overlap startAfter env w result w1 :
  answers_keep_sort_key env ->
  ids_nonempty (meals w) = true ->
  MealUpdate.updateMealsInBatches startAfter env w = (Ok result, w1) ->
  MealUpdate.hasMore result = true ->
  let page := query_by_created_time (cursor_at startAfter (meals w))
                MealUpdate.BATCH_SIZE (meals w) in
  forall n id d id' d',
    In (id, d) page ->
    In (id', d')
       (query_by_created_time (cursor_at (MealUpdate.lastProcessedId result) (meals w1))
          n (meals w1)) ->
    id <> id'
    /\ exists t t',
         created_time d = Some t /\ created_time d' = Some t'
         /\ key_ltb (t, id) (t', id') = true.
Proof.
  intros Henv Hids E Hmore page n id d id' d' Hin Hin'.
  destruct (batch_advances startAfter env w result w1 Henv Hids E Hmore) as [Hkeep _].
  destruct (batch_result _ _ _ _ _ E) as (_ & _ & _ & Hlast). fold page in Hlast.
  destruct (meal_page_before_last _ _ _ _ _ Hin) as (t & t_l & d_l & Ht & Hdl & Htl & Hle).
  fold page in Hdl, Hle.
  assert (Hd : meals w !! id = Some d)
    by now apply (query_by_created_time_lookup _ _ _ _ _ Hin).
  clearbody page.
  set (last_id := List.last (map fst page) "") in *.
  assert (Hl : MealUpdate.lastProcessedId result = Some last_id).
  { rewrite Hlast. subst last_id. now destruct page. }
  assert (Hne : last_id <> "") by now apply (ids_nonempty_lookup _ _ d_l Hids).
  assert (Hcur : cursor_at (Some last_id) (meals w1) = Some (t_l, last_id)).
  { unfold cursor_at, truthy_str.
    destruct (String.eqb_spec last_id ""); [contradiction|]. cbn [negb].
    specialize (Hkeep last_id). rewrite Hdl in Hkeep. cbn in Hkeep.
    destruct (meals w1 !! last_id) as [d1|]; [|discriminate].
    cbn in Hkeep. injection Hkeep as Hk. now rewrite Hk, Htl. }
  rewrite Hl, Hcur in Hin'.
  apply page_row in Hin' as (t' & Ht' & Hd' & Hafter). cbn [after] in Hafter.
  pose proof (key_leb_ltb_trans _ _ _ Hle Hafter) as Hlt.
  split.
  - intros ->.
    specialize (Hkeep id'). rewrite Hd, Hd' in Hkeep. cbn in Hkeep.
    rewrite Ht, Ht' in Hkeep. injection Hkeep as ->.
    now rewrite key_ltb_irrefl in Hlt.
  - exists t, t'. repeat split; auto.
Qed.

Lemma meal_pages_never_overlap_witness :
  exists result w1 id' d' rest,
    MealUpdate.updateMealsInBatches None Sample.env_fine Sample.twelve_old_meals
    = (Ok result, w1)
    /\ query_by_created_time
         (cursor_at (MealUpdate.lastProcessedId result) (meals w1)) 5 (meals w1)
       = (id', d') :: rest
    /\ "m10" <> id'.
Proof.
  destruct (MealUpdate.updateMealsInBatches None Sample.env_fine Sample.twelve_old_meals)
    as [[result|e] w1] eqn:E; [|vm_compute in E; discriminate].
  assert (Hm : MealUpdate.hasMore result = true)
    by (vm_compute in E; now injection E as <- _).
  assert (Henv : answers_keep_sort_key Sample.env_fine).
  { intros n meal u [= <-]. reflexivity. }
  destruct (query_by_created_time
              (cursor_at (MealUpdate.lastProcessedId result) (meals w1)) 5 (meals w1))
    as [|[id' d'] rest] eqn:Hq.
  { exfalso. vm_compute in E. injection E as <- <-. vm_compute in Hq. discriminate. }
  exists result, w1, id', d', rest. split; [reflexivity|]. split; [exact Hq|].
  apply (meal_pages_never_overlap None Sample.env_fine Sample.twelve_old_meals
           result w1 Henv eq_refl E Hm 5%nat "m10" (Sample.old_meal "Apple" 10) id' d').
  - vm_compute. left. reflexivity.
  - rewrite Hq. now left.
Defined.


(** * Who looks at the lock *)

Section Oblivious.
Context (l : option LockDoc).

Lemma oblivious_ret {A} (a : A) : oblivious (set_lock l) (ret a).
Proof. now intros env w. Qed.

Lemma oblivious_throw {A} e : oblivious (set_lock l) (@throw A e).
Proof. now intros env w. Qed.

Lemma oblivious_clock : oblivious (set_lock l) clock.
Proof. now intros env w. Qed.

Lemma oblivious_sleep ms : oblivious (set_lock l) (sleep ms).
Proof. now intros env w. Qed.

Lemma oblivious_bind {A B} (m : M A) (k : A -> M B) :
  oblivious (set_lock l) m -> (forall a, oblivious (set_lock l) (k a)) ->
  oblivious (set_lock l) (bind m k).
Proof.
  intros Hm Hk env w. unfold bind. rewrite (Hm env w).
  destruct (m env w) as [[a|e] w1]; cbn [fst snd]; [apply Hk|reflexivity].
Qed.

Lemma oblivious_try_catch {A} (m : M A) (h : string -> M A) :
  oblivious (set_lock l) m -> (forall e, oblivious (set_lock l) (h e)) ->
  oblivious (set_lock l) (try_catch m h).
Proof.
  intros Hm Hh env w. unfold try_catch. rewrite (Hm env w).
  destruct (m env w) as [[a|e] w1]; cbn [fst snd]; [reflexivity|apply Hh].
Qed.

(** A store call whose effect neither reads nor writes the lock. *)
Lemma oblivious_store_call {A} op (effect : World -> string + (A * World)) :
  (forall w,
     effect (set_lock l w)
     = match effect w with
       | inl msg => inl msg
       | inr (a, w') => inr (a, set_lock l w')
       end) ->
  oblivious (set_lock l) (store_call op effect).
Proof.
  intros H env w. unfold store_call. cbn [steps set_lock].
  destruct (store_fault env (steps w)); [reflexivity|].
  rewrite H. now destruct (effect w) as [msg|[a w']].
Qed.

Lemma oblivious_update_doc op id patch : oblivious (set_lock l) (update_doc op id patch).
Proof.
  unfold update_doc. destruct (id =? "")%string; [apply oblivious_throw|].
  apply oblivious_store_call. intros w. cbn [meals set_lock].
  now destruct (meals w !! id).
Qed.

Lemma oblivious_update_fields op id data :
  oblivious (set_lock l) (update_fields op id data).
Proof.
  unfold update_fields. destruct (id =? "")%string; [apply oblivious_throw|].
  destruct (update_error data); [apply oblivious_throw|apply oblivious_update_doc].
Qed.

Lemma oblivious_updateSingleMeal mealId meal :
  oblivious (set_lock l) (MealUpdate.updateSingleMeal mealId meal).
Proof.
  unfold MealUpdate.updateSingleMeal. generalize (Z.to_nat MealUpdate.maxRetries) 1.
  intros remaining. induction remaining as [|r IH]; intros n; [apply oblivious_ret|].
  cbn [MealUpdate.attempts]. apply oblivious_try_catch.
  - unfold MealUpdate.attempt.
    destruct (MealUpdate.already_updated meal); [apply oblivious_ret|].
    apply oblivious_bind.
    { intros env w. unfold MealUpdate.generateEnhancedMealDescription. cbn [steps set_lock].
      destruct (openai env (steps w) meal); [reflexivity|].
      now match goal with |- context [if ?c then _ else _] => destruct c end. }
    intros u. apply oblivious_bind; [apply oblivious_clock|]. intros t.
    apply oblivious_bind; [apply oblivious_update_fields|]. intros; apply oblivious_ret.
  - intros _. destruct (n =? MealUpdate.maxRetries); [apply oblivious_ret|].
    apply oblivious_bind; [apply oblivious_sleep|]. intros _. apply IH.
Qed.

Lemma oblivious_meal_docs docs p u last :
  oblivious (set_lock l) (MealUpdate.process_docs docs p u last).
Proof.
  revert p u last. induction docs as [|[id meal] rest IH]; intros p u last.
  - apply oblivious_ret.
  - cbn [MealUpdate.process_docs]. apply oblivious_bind; [|intros; apply IH].
    apply oblivious_try_catch; [|intros; apply oblivious_ret].
    apply oblivious_bind; [apply oblivious_updateSingleMeal|].
    intros; apply oblivious_ret.
Qed.

Lemma oblivious_read {A} op (g : World -> A) :
  (forall w, g (set_lock l w) = g w) ->
  oblivious (set_lock l) (store_call op (fun w => inr (g w, w))).
Proof. intros H. apply oblivious_store_call. intros w. now rewrite H. Qed.

Lemma oblivious_updateSingleBatchOnly : oblivious (set_lock l) MealUpdate.updateSingleBatchOnly.
Proof.
  unfold MealUpdate.updateSingleBatchOnly.
  apply oblivious_try_catch; [|intros; apply oblivious_throw].
  apply oblivious_bind; [now apply oblivious_read|]. intros progressDoc.
  apply oblivious_bind.
  { unfold MealUpdate.updateMealsInBatches. apply oblivious_bind.
    - unfold MealUpdate.start_cursor.
      destruct (progressDoc ≫= ProgressDoc.lastProcessedId) as [sid|];
        [|apply oblivious_ret].
      destruct (truthy_str (Some sid)); [|apply oblivious_ret].
      apply oblivious_bind; [now apply oblivious_read|]. intros [d|]; [|apply oblivious_ret].
      destruct (created_time d); [apply oblivious_ret|apply oblivious_throw].
    - intros cursor. apply oblivious_bind; [now apply oblivious_read|]. intros docs.
      unfold MealUpdate.process_page. destruct docs; [apply oblivious_ret|].
      apply oblivious_bind; [apply oblivious_meal_docs|]. intros; apply oblivious_ret. }
  intros result. apply oblivious_bind; [|intros; apply oblivious_ret].
  destruct (MealUpdate.hasMore result && truthy_str (MealUpdate.lastProcessedId result)).
  - apply oblivious_bind; [apply oblivious_clock|]. intros t.
    now apply oblivious_store_call.
  - now apply oblivious_store_call.
Qed.

Lemma oblivious_updateLimitedMeals limit :
  oblivious (set_lock l) (MealAdmin.updateLimitedMeals limit).
Proof.
  unfold MealAdmin.updateLimitedMeals.
  apply oblivious_try_catch; [|intros; apply oblivious_throw].
  apply oblivious_bind; [now apply oblivious_read|]. intros mealsSnap.
  destruct mealsSnap as [|d0 rest]; [apply oblivious_ret|].
  apply oblivious_bind; [|intros; apply oblivious_ret].
  generalize (d0 :: rest) 0. intros docs.
  induction docs as [|[id meal] docs IH]; intros u; [apply oblivious_ret|].
  cbn [MealAdmin.limited_docs]. apply oblivious_bind; [|intros; apply IH].
  apply oblivious_try_catch; [|intros; apply oblivious_ret].
  apply oblivious_bind; [apply oblivious_updateSingleMeal|]. intros; apply oblivious_ret.
Qed.

Lemma oblivious_generateRecraftFoodImage meal :
  oblivious (set_lock l) (Recraft.generateRecraftFoodImage meal).
Proof.
  intros env w. unfold Recraft.generateRecraftFoodImage. cbn [steps set_lock].
  now destruct (recraft env (steps w) meal).
Qed.

Lemma oblivious_doc_path v : oblivious (set_lock l) (Recraft.doc_path v).
Proof.
  unfold Recraft.doc_path. destruct v as [[| | |s| | |]|];
    first [apply oblivious_ret | apply oblivious_throw].
Qed.

Lemma oblivious_image_docs docs c : oblivious (set_lock l) (Recraft.process_docs docs c).
Proof.
  revert c. induction docs as [|doc rest IH]; intros c; [apply oblivious_ret|].
  cbn [Recraft.process_docs].
  destruct (negb (truthy (Recraft.meal_id doc))); [apply IH|].
  apply oblivious_bind; [|intros; apply IH].
  apply oblivious_try_catch.
  - destruct (negb (truthy (Recraft.englishTitle doc.2))); [apply oblivious_ret|].
    apply oblivious_bind; [apply oblivious_generateRecraftFoodImage|]. intros result.
    apply oblivious_bind; [apply oblivious_doc_path|]. intros path.
    apply oblivious_bind; [apply oblivious_clock|]. intros t.
    apply oblivious_bind; [apply oblivious_update_doc|]. intros _.
    apply oblivious_bind; [apply oblivious_sleep|]. intros; apply oblivious_ret.
  - intros e. apply oblivious_bind; [|intros; apply oblivious_ret].
    unfold Recraft.markMealImageFailed.
    apply oblivious_try_catch; [|intros; apply oblivious_ret].
    apply oblivious_bind; [apply oblivious_doc_path|]. intros path.
    apply oblivious_bind; [apply oblivious_clock|]. intros t. apply oblivious_update_doc.
Qed.

Lemma oblivious_generateImagesBatch : oblivious (set_lock l) Recraft.generateImagesBatch.
Proof.
  assert (Hdone : forall patch (r : Recraft.Summary),
             oblivious (set_lock l) (bind (Recraft.setScanState patch) (fun _ => ret r))).
  { intros. apply oblivious_bind; [|intros; apply oblivious_ret].
    unfold Recraft.setScanState. apply oblivious_bind; [apply oblivious_clock|]. intros t.
    now apply oblivious_store_call. }
  unfold Recraft.generateImagesBatch.
  apply oblivious_try_catch; [|intros; apply oblivious_throw].
  apply oblivious_bind.
  { unfold Recraft.getScanState. apply oblivious_bind; [now apply oblivious_read|].
    intros; apply oblivious_ret. }
  intros state. apply oblivious_bind; [now apply oblivious_read|]. intros snapshot.
  unfold Recraft.process_page.
  destruct snapshot as [|d0 rest]; [apply Hdone|].
  destruct (last (d0 :: rest)); [|apply Hdone].
  destruct (List.filter Recraft.is_candidate (d0 :: rest)); [apply Hdone|].
  apply oblivious_bind; [apply oblivious_image_docs|]. intros; apply Hdone.
Qed.

Lemma oblivious_generateSingleTestImage :
  oblivious (set_lock l) RecraftTest.generateSingleTestImage.
Proof.
  unfold RecraftTest.generateSingleTestImage.
  apply oblivious_try_catch; [|intros; apply oblivious_throw].
  apply oblivious_bind; [now apply oblivious_read|]. intros snapshot.
  destruct snapshot as [|d0 rest]; [apply oblivious_ret|].
  destruct (List.filter RecraftTest.needs_test_image (d0 :: rest)) as [|doc _].
  { unfold RecraftTest.debugMealPhotos.
    apply oblivious_try_catch; [|intros; apply oblivious_ret].
    apply oblivious_bind; [now apply oblivious_read|]. intros; apply oblivious_ret. }
  destruct (negb (truthy (Recraft.englishTitle doc.2))); [apply oblivious_ret|].
  destruct (negb (truthy (Recraft.meal_id doc))); [apply oblivious_ret|].
  apply oblivious_bind; [apply oblivious_generateRecraftFoodImage|]. intros result.
  apply oblivious_bind; [apply oblivious_doc_path|]. intros path.
  apply oblivious_bind; [apply oblivious_clock|]. intros t. apply oblivious_update_doc.
Qed.

End Oblivious.

(** X30. Only the meal drain and the scheduled meal handler look at the
    lock.  The image job and its scheduled handler, the test image, the
    limited update and the batch step itself run the same way whatever the
    lock document holds, and leave it as it is: a lock, whether taken by a
    drain or set through the "stop" switch, does not hold them back. *)
Theorem lock_is_not_consulted :
  ignores_lock Recraft.generateImagesBatch
  /\ ignores_lock Triggers.scheduledRecraftImageGeneration
  /\ ignores_lock RecraftTest.generateSingleTestImage
  /\ (forall limit, ignores_lock (MealAdmin.updateLimitedMeals limit))
  /\ ignores_lock MealUpdate.updateSingleBatchOnly.
Proof.
  repeat split; intros; intros l.
  - apply oblivious_generateImagesBatch.
  - unfold Triggers.scheduledRecraftImageGeneration.
    apply oblivious_try_catch; [|intros; apply oblivious_ret].
    apply oblivious_bind; [apply oblivious_generateImagesBatch|].
    intros; apply oblivious_ret.
  - apply oblivious_generateSingleTestImage.
  - apply oblivious_updateLimitedMeals.
  - apply oblivious_updateSingleBatchOnly.
Qed.
